(** * Prototype generator backend: job lifecycle, bridge client and
    generation engine ([web/backend/app.py])

    The development embeds the orchestration core of the backend: the shared
    [UnityBridge] client, the job store, the coroutine [generate_prototype]
    with its fallback [simulate_generation], and the progress websocket.
    Coroutines are functions from the process state to a resumption; every
    [await asyncio.sleep] is a suspension at which other tasks may run. *)

From Stdlib Require Import ZArith QArith Qround Qpower Lia Lqa Floats Uint63.
From stdpp Require Import gmap strings list sorting.

(** ** Python float arithmetic of the progress expression

    [int((current_step / total_steps) * 100)] divides two ints (a correctly
    rounded binary64 quotient), multiplies by [100.0] (rounded again) and
    truncates.  A float is modelled by the rational it denotes; [round53]
    rounds a rational to 53 significant bits, ties to even.  The exponent
    range of binary64 is never reached here: the values lie in
    [[1/total_steps, 100]]. *)

Module Binary64.

Local Open Scope Q_scope.

Definition ilog2 (x : Q) : Z :=
  let d := (Z.log2 (Qnum x) - Z.log2 (Z.pos (Qden x)))%Z in
  if Qle_bool (2 ^ d) x then d else (d - 1)%Z.

Definition rne (t : Q) : Z :=
  let f := Qfloor t in
  match Qcompare (t - inject_Z f) (1 # 2) with
  | Lt => f
  | Gt => (f + 1)%Z
  | Eq => if Z.even f then f else (f + 1)%Z
  end.

Definition round_pos (x : Q) : Q :=
  let e := (ilog2 x - 52)%Z in
  inject_Z (rne (x / 2 ^ e)) * 2 ^ e.

Definition round53 (x : Q) : Q :=
  match Qcompare x 0 with
  | Eq => 0
  | Gt => round_pos x
  | Lt => - round_pos (- x)
  end.

Definition float_of_int (z : Z) : Q := round53 (inject_Z z).
Definition truediv (a b : Z) : Q := round53 (inject_Z a / inject_Z b).
Definition fmul (x y : Q) : Q := round53 (x * y).
Definition py_int (x : Q) : Z := if Qle_bool 0 x then Qfloor x else Qceiling x.

End Binary64.

(** [int((current_step / total_steps) * 100)], as Python evaluates it. *)
Definition py_percent (current_step total_steps : Z) : Z :=
  Binary64.py_int (Binary64.fmul (Binary64.truediv current_step total_steps) (Binary64.float_of_int 100)).

(** ** Python strings *)

Definition LF : Ascii.ascii := Ascii.ascii_of_nat 10.

(** [s.endswith("\n")] *)
Fixpoint endswith_newline (s : string) : bool :=
  match s with
  | EmptyString => false
  | String c EmptyString => Ascii.eqb c LF
  | String _ rest => endswith_newline rest
  end.

(** ASCII whitespace, as [str.strip()] removes it. *)
Definition is_space (c : Ascii.ascii) : bool :=
  let n := Ascii.nat_of_ascii c in
  Nat.eqb n 32 || (Nat.leb 9 n && Nat.leb n 13) || (Nat.leb 28 n && Nat.leb n 31).

Fixpoint lstrip (s : string) : string :=
  match s with
  | String c rest => if is_space c then lstrip rest else s
  | EmptyString => EmptyString
  end.

Fixpoint rstrip (s : string) : string :=
  match s with
  | EmptyString => EmptyString
  | String c rest =>
      match rstrip rest with
      | EmptyString => if is_space c then EmptyString else String c EmptyString
      | rest' => String c rest'
      end
  end.

Definition strip (s : string) : string := lstrip (rstrip s).

(** [s.lower()] on the ASCII letters. *)
Definition lower_char (c : Ascii.ascii) : Ascii.ascii :=
  let n := Ascii.nat_of_ascii c in
  if Nat.leb 65 n && Nat.leb n 90 then Ascii.ascii_of_nat (n + 32) else c.

Fixpoint lower (s : string) : string :=
  match s with
  | EmptyString => EmptyString
  | String c rest => String (lower_char c) (lower rest)
  end.

(** [needle in hay] *)
Fixpoint contains (needle hay : string) : bool :=
  if String.prefix needle hay then true
  else match hay with
       | EmptyString => false
       | String _ rest => contains needle rest
       end.

(** ** JSON values, exceptions *)

#[warnings="-register-all"]
Inductive Json : Type :=
| JNull
| JBool (b : bool)
| JNum (n : Z)
| JStr (s : string)
| JList (items : list Json)
| JDict (items : list (string * Json)).

(** The exceptions the backend raises or catches.  [Error msg] stands for
    any other [Exception] whose [str()] is [msg] (socket errors, timeouts,
    JSON decoding errors). *)
Inductive Exn : Type :=
| HTTPException (status_code : Z) (detail : string)
| KeyError (key : string)
| IndexError (msg : string)
| Error (msg : string).

(** ** Models (the job dictionary the handlers build) *)

Record PrototypeRequest : Type := {
  req_name : string;
  req_gameType : string;
  req_systems : list string;
  req_reference : option string
}.

(** The dict built by [create_prototype]; one field per key. *)
Record Prototype : Type := {
  proto_id : string;
  name : string;
  gameType : string;
  systems : list string;
  reference : option string;
  status : string;
  createdAt : string;
  completedAt : option string;
  progress : Z;
  logs : list string
}.

(** ** System templates *)

Record Template : Type := {
  template_name : string;
  scripts : list string;
  prefabs : list string;
  ui : list string
}.

Definition SYSTEM_TEMPLATES : gmap string Template :=
  list_to_map [
    ("health", {| template_name := "HealthSystem";
                  scripts := ["HealthSystem.cs"; "IDamageable.cs"];
                  prefabs := []; ui := ["HealthBar"] |});
    ("mana", {| template_name := "ManaSystem";
                scripts := ["ManaSystem.cs"; "IResource.cs"];
                prefabs := []; ui := ["ManaBar"] |});
    ("inventory", {| template_name := "InventorySystem";
                     scripts := ["InventorySystem.cs"; "InventorySlot.cs"; "ItemSO.cs"];
                     prefabs := ["InventoryUI"]; ui := ["InventoryPanel"] |});
    ("equipment", {| template_name := "EquipmentSystem";
                     scripts := ["EquipmentManager.cs"; "EquipSlot.cs"];
                     prefabs := []; ui := [] |});
    ("combat-melee", {| template_name := "MeleeCombat";
                        scripts := ["MeleeCombat.cs"; "AttackData.cs"; "Hitbox.cs"];
                        prefabs := ["HitboxPrefab"]; ui := [] |});
    ("combat-ranged", {| template_name := "RangedCombat";
                         scripts := ["RangedCombat.cs"; "Projectile.cs"];
                         prefabs := ["ProjectilePrefab"]; ui := [] |});
    ("ai-fsm", {| template_name := "AIStateMachine";
                  scripts := ["AIStateMachine.cs"; "AIState.cs"; "IdleState.cs";
                              "ChaseState.cs"; "AttackState.cs"];
                  prefabs := []; ui := [] |});
    ("ai-patrol", {| template_name := "PatrolSystem";
                     scripts := ["PatrolSystem.cs"; "Waypoint.cs"];
                     prefabs := ["WaypointPrefab"]; ui := [] |});
    ("dialogue", {| template_name := "DialogueSystem";
                    scripts := ["DialogueSystem.cs"; "DialogueSO.cs"; "DialogueUI.cs"];
                    prefabs := ["DialoguePanel"]; ui := ["DialogueBox"] |});
    ("quest", {| template_name := "QuestSystem";
                 scripts := ["QuestSystem.cs"; "Quest.cs"; "QuestObjective.cs"];
                 prefabs := []; ui := ["QuestTracker"] |});
    ("save-load", {| template_name := "SaveLoadSystem";
                     scripts := ["SaveManager.cs"; "ISaveable.cs"; "SaveData.cs"];
                     prefabs := []; ui := [] |})
  ].

(** ** Process state

    The job dicts live in a heap of objects: [prototypes_db] maps an
    identifier to the address of its dict, and a running engine holds the
    address it looked up at its start, as the Python variable [prototype]
    holds a reference.  The network is the environment: each [connect()]
    consumes the next outcome of [network]; a connection that is accepted
    comes with the script of what its socket will do.  A script that has run
    out behaves as a dead peer (refused connection, broken pipe, read
    timeout after [settimeout(5)]). *)

Inductive RecvEvent : Type :=
| Chunk (data : string)
| RecvError (msg : string).

Record Socket : Type := {
  sock_sends : list (option string);  (* [None]: the bytes are taken; [Some msg]: [send] raises *)
  sock_recvs : list RecvEvent
}.

Inductive ConnectOutcome : Type :=
| Refused (msg : string)
| Accepted (s : Socket).

Record UnityBridge : Type := {
  socket : option Socket;
  connected : bool
}.

Record World : Type := {
  heap : list Prototype;
  prototypes_db : gmap string nat;
  unity_bridge : UnityBridge;
  network : list ConnectOutcome;
  clock : nat                         (* number of [datetime.now()] readings so far *)
}.

(** ** Observable effects

    What a task does, in program order: the assignments to a job dict, the
    connection attempts, the payloads handed to the socket, and how each
    [send_command] call ended.  Nothing in the program reads this history. *)

Inductive JobEvent : Type :=
| SetStatus (s : string)
| SetProgress (v : Z)
| AppendLog (line : string)
| SetCompletedAt (t : string).

Inductive Event : Type :=
| EvJob (prototype : nat) (e : JobEvent)
| EvConnect (ok : bool)
| EvSend (command : string) (params : Json)
| EvReturn (command : string) (response : Json)
| EvRaise (command : string) (e : Exn).

Definition apply_job (e : JobEvent) (p : Prototype) : Prototype :=
  match e with
  | SetStatus s =>
      {| proto_id := proto_id p; name := name p; gameType := gameType p; systems := systems p;
         reference := reference p; status := s; createdAt := createdAt p;
         completedAt := completedAt p; progress := progress p; logs := logs p |}
  | SetProgress v =>
      {| proto_id := proto_id p; name := name p; gameType := gameType p; systems := systems p;
         reference := reference p; status := status p; createdAt := createdAt p;
         completedAt := completedAt p; progress := v; logs := logs p |}
  | AppendLog line =>
      {| proto_id := proto_id p; name := name p; gameType := gameType p; systems := systems p;
         reference := reference p; status := status p; createdAt := createdAt p;
         completedAt := completedAt p; progress := progress p; logs := logs p ++ [line] |}
  | SetCompletedAt t =>
      {| proto_id := proto_id p; name := name p; gameType := gameType p; systems := systems p;
         reference := reference p; status := status p; createdAt := createdAt p;
         completedAt := Some t; progress := progress p; logs := logs p |}
  end.

(** ** Coroutines

    A coroutine maps the process state to a resumption: it returns, raises,
    or is suspended at an [await] that yields to the event loop, with the
    rest of its body waiting for the state it is resumed in.  Each carries
    the events of the block that just ran. *)

Inductive Res (A : Type) : Type :=
| Done (a : A) (evs : list Event) (w : World)
| Raised (e : Exn) (evs : list Event) (w : World)
| Paused (evs : list Event) (w : World) (k : World -> Res A).

Arguments Done {A} a evs w.
Arguments Raised {A} e evs w.
Arguments Paused {A} evs w k.

Definition Coro (A : Type) : Type := World -> Res A.

Definition prepend {A} (evs : list Event) (r : Res A) : Res A :=
  match r with
  | Done a evs' w => Done a (evs ++ evs') w
  | Raised e evs' w => Raised e (evs ++ evs') w
  | Paused evs' w k => Paused (evs ++ evs') w k
  end.

Fixpoint bind_res {A B} (r : Res A) (f : A -> Coro B) : Res B :=
  match r with
  | Done a evs w => prepend evs (f a w)
  | Raised e evs w => Raised e evs w
  | Paused evs w k => Paused evs w (fun w' => bind_res (k w') f)
  end.

(** [try: ... except Exception as e: ...] *)
Fixpoint catch_res {A} (r : Res A) (handler : Exn -> Coro A) : Res A :=
  match r with
  | Done a evs w => Done a evs w
  | Raised e evs w => prepend evs (handler e w)
  | Paused evs w k => Paused evs w (fun w' => catch_res (k w') handler)
  end.

Definition ret {A} (a : A) : Coro A := fun w => Done a [] w.
Definition raise {A} (e : Exn) : Coro A := fun w => Raised e [] w.
Definition bind {A B} (m : Coro A) (f : A -> Coro B) : Coro B := fun w => bind_res (m w) f.
Definition try_except {A} (body : Coro A) (handler : Exn -> Coro A) : Coro A :=
  fun w => catch_res (body w) handler.
Definition emit (e : Event) : Coro unit := fun w => Done tt [e] w.

(** [await asyncio.sleep(0.5)] *)
Definition sleep : Coro unit := fun w => Paused [] w (fun w' => Done tt [] w').

Notation "'do' x <- m ; k" := (bind m (fun x => k))
  (at level 10, x name, m at level 100, k at level 200).
Notation "'run' m ; k" := (bind m (fun _ => k))
  (at level 10, m at level 100, k at level 200).

(** *** State accessors *)

Definition set_heap (h : list Prototype) (w : World) : World :=
  {| heap := h; prototypes_db := prototypes_db w; unity_bridge := unity_bridge w;
     network := network w; clock := clock w |}.

Definition set_bridge (b : UnityBridge) (w : World) : World :=
  {| heap := heap w; prototypes_db := prototypes_db w; unity_bridge := b;
     network := network w; clock := clock w |}.

Definition set_network (n : list ConnectOutcome) (w : World) : World :=
  {| heap := heap w; prototypes_db := prototypes_db w; unity_bridge := unity_bridge w;
     network := n; clock := clock w |}.

(** [datetime.now()]: the number of the reading; formatting is the
    platform's. *)
Definition now : Coro nat := fun w =>
  Done (clock w) []
    {| heap := heap w; prototypes_db := prototypes_db w; unity_bridge := unity_bridge w;
       network := network w; clock := S (clock w) |}.

(** [prototype[key] = value] and [prototype["logs"].append(line)] *)
Definition mutate (prototype : nat) (e : JobEvent) : Coro unit := fun w =>
  Done tt [EvJob prototype e] (set_heap (alter (apply_job e) prototype (heap w)) w).

(** [prototype[key]] *)
Definition getitem {A} (prototype : nat) (key : Prototype -> A) : Coro A := fun w =>
  match heap w !! prototype with
  | Some p => Done (key p) [] w
  | None => Raised (Error "dangling reference") [] w
  end.

(** [prototypes_db[prototype_id]] *)
Definition db_getitem (prototype_id : string) : Coro nat := fun w =>
  match prototypes_db w !! prototype_id with
  | Some prototype => Done prototype [] w
  | None => Raised (KeyError prototype_id) [] w
  end.

(** ** Unity bridge communication *)

Definition dead_socket : Socket := {| sock_sends := []; sock_recvs := [] |}.

(** [UnityBridge.connect]: opens a fresh socket; on any error the flag is
    cleared and [False] returned (the message is printed, not raised). *)
Definition connect : Coro bool := fun w =>
  match network w with
  | Accepted s :: rest =>
      Done true [EvConnect true]
        (set_network rest (set_bridge {| socket := Some s; connected := true |} w))
  | Refused _ :: rest =>
      Done false [EvConnect false]
        (set_network rest (set_bridge {| socket := Some dead_socket; connected := false |} w))
  | [] =>
      Done false [EvConnect false]
        (set_bridge {| socket := Some dead_socket; connected := false |} w)
  end.

Definition is_connected : Coro bool := fun w => Done (connected (unity_bridge w)) [] w.

Definition set_connected (b : bool) : Coro unit := fun w =>
  Done tt [] (set_bridge {| socket := socket (unity_bridge w); connected := b |} w).

(** [self.socket.send(request.encode())]; the payload is recorded as the
    request it encodes. *)
Definition socket_send (command : string) (params : Json) : Coro unit := fun w =>
  match socket (unity_bridge w) with
  | None => Raised (Error "'NoneType' object has no attribute 'send'") [] w
  | Some s =>
      match sock_sends s with
      | [] => Raised (Error "Broken pipe") [] w
      | Some msg :: rest =>
          Raised (Error msg) []
            (set_bridge {| socket := Some {| sock_sends := rest; sock_recvs := sock_recvs s |};
                           connected := connected (unity_bridge w) |} w)
      | None :: rest =>
          Done tt [EvSend command params]
            (set_bridge {| socket := Some {| sock_sends := rest; sock_recvs := sock_recvs s |};
                           connected := connected (unity_bridge w) |} w)
      end
  end.

(** The read loop: [while not response.endswith("\n")], one [recv] per
    turn, an empty chunk breaks.  Returns what is left of the script. *)
Fixpoint recv_until_newline (response : string) (recvs : list RecvEvent)
  : (Exn + string) * list RecvEvent :=
  if endswith_newline response then (inr response, recvs)
  else match recvs with
       | [] => (inl (Error "timed out"), [])
       | RecvError msg :: rest => (inl (Error msg), rest)
       | Chunk chunk :: rest =>
           match chunk with
           | EmptyString => (inr response, rest)
           | _ => recv_until_newline (response +:+ chunk) rest
           end
       end.

Definition socket_recv_response : Coro string := fun w =>
  match socket (unity_bridge w) with
  | None => Raised (Error "'NoneType' object has no attribute 'recv'") [] w
  | Some s =>
      let '(result, rest) := recv_until_newline "" (sock_recvs s) in
      let w' := set_bridge {| socket := Some {| sock_sends := sock_sends s; sock_recvs := rest |};
                              connected := connected (unity_bridge w) |} w in
      match result with
      | inl e => Raised e [] w'
      | inr response => Done response [] w'
      end
  end.

(** ** Running coroutines

    [run_under env r] runs a coroutine to its end; at each suspension the
    other tasks of the event loop act on the state: [env] lists what they do,
    one entry per suspension (nothing once the list has run out). *)

Record Run (A : Type) : Type := {
  outcome : Exn + A;
  final : World;
  events : list Event
}.

Arguments outcome {A} r.
Arguments final {A} r.
Arguments events {A} r.

Fixpoint run_under {A} (env : list (World -> World)) (r : Res A) : Run A :=
  match r with
  | Done a evs w => {| outcome := inr a; final := w; events := evs |}
  | Raised e evs w => {| outcome := inl e; final := w; events := evs |}
  | Paused evs w k =>
      let w' := match env with f :: _ => f w | [] => w end in
      let rest := run_under (tail env) (k w') in
      {| outcome := outcome rest; final := final rest; events := evs ++ events rest |}
  end.

(** ** Progress websocket

    The handler only reads the store.  It is resumed after [accept()], after
    each [send_json] and after each [sleep]; [w] is the state in which it
    checks the identifier and builds the first snapshot, [future] the states
    of the later resumptions.  [sends] scripts the client: [None] takes the
    message, anything else (or a script that has run out) makes [send_json]
    raise.  The loop reads the dict object it looked up before the send when
    it tests the status after it. *)




(** [status in ["completed", "failed"]] *)
Definition is_terminal (s : string) : bool :=
  bool_decide (s = "completed") || bool_decide (s = "failed").








Section Backend.

(** The platform: how a clock reading prints, [json.loads], and [str()] of
    an [HTTPException] (library code outside the repository). *)
Variable strftime_HMS : nat -> string.
Variable isoformat : nat -> string.
Variable json_loads : string -> Exn + Json.
Variable str_HTTPException : Z -> string -> string.

(** [str(e)] *)
Definition str (e : Exn) : string :=
  match e with
  | HTTPException status_code detail => str_HTTPException status_code detail
  | KeyError key => "'" +:+ key +:+ "'"
  | IndexError msg => msg
  | Error msg => msg
  end.

(** [UnityBridge.send_command] *)
Definition send_command (command : string) (params : Json) : Coro Json :=
  do live <- is_connected ;
  run (if negb live then (run connect ; ret tt) else ret tt) ;
  do live <- is_connected ;
  if negb live then
    let e := HTTPException 503 "Unity Bridge baglantisi yok" in
    run emit (EvRaise command e) ; raise e
  else
    try_except
      (run socket_send command params ;
       do response <- socket_recv_response ;
       match json_loads (strip response) with
       | inr value => run emit (EvReturn command value) ; ret value
       | inl e => raise e
       end)
      (fun e =>
         run set_connected false ;
         let e' := HTTPException 500 ("Unity komut hatasi: " +:+ str e) in
         run emit (EvRaise command e') ; raise e').

(** ** Endpoints and the generation engine *)

(** [f"[{datetime.now().strftime('%H:%M:%S')}] {msg}"] *)
Definition log_line (t : nat) (msg : string) : string :=
  "[" +:+ strftime_HMS t +:+ "] " +:+ msg.

Definition log (prototype : nat) (msg : string) : Coro unit :=
  do t <- now ;
  mutate prototype (AppendLog (log_line t msg)).

(** [[SYSTEM_TEMPLATES[s]["name"] for s in systems if s in SYSTEM_TEMPLATES]] *)
Definition resolved_names (systems : list string) : list Json :=
  omap (fun s => (fun t => JStr (template_name t)) <$> SYSTEM_TEMPLATES !! s) systems.

Definition scene_params : Json :=
  JDict [("structure", JList [JStr "--- MANAGERS ---"; JStr "--- PLAYER ---";
                               JStr "--- ENEMIES ---"; JStr "--- ENVIRONMENT ---";
                               JStr "--- UI ---"])].

Definition import_params (system_id : string) (template : Template) (p : Prototype) : Json :=
  JDict [("systemId", JStr system_id);
         ("systemPath", JStr ("Core/" +:+ template_name template));
         ("targetPath", JStr ("Assets/_Prototype_" +:+ name p +:+ "/Scripts"))].

Definition player_params (p : Prototype) : Json :=
  JDict [("playerType", JStr (if contains "3d" (lower (gameType p)) then "3D" else "2D"));
         ("systems", JList (resolved_names (systems p)));
         ("createModel", JBool true)].

Definition ui_params (p : Prototype) : Json :=
  JDict [("systems", JList (resolved_names (systems p)));
         ("uiStyle", JStr "Minimal")].

Definition len {A} (l : list A) : Z := Z.of_nat (length l).

(** The loop [for system_id in prototype["systems"]] of
    [generate_prototype]; returns [current_step]. *)
Fixpoint import_systems (prototype : nat) (total_steps : Z) (systems : list string)
  (current_step : Z) : Coro Z :=
  match systems with
  | [] => ret current_step
  | system_id :: rest =>
      run (match SYSTEM_TEMPLATES !! system_id with
           | Some template =>
               run log prototype (template_name template +:+ " ekleniyor...") ;
               do p <- getitem prototype (fun p => p) ;
               run send_command "ImportVaultSystem" (import_params system_id template p) ;
               sleep
           | None => ret tt
           end) ;
      let current_step := (current_step + 1)%Z in
      run mutate prototype (SetProgress (py_percent current_step total_steps)) ;
      import_systems prototype total_steps rest current_step
  end.

(** One turn of the loop of [simulate_generation], for index [i]. *)
Definition simulate_step (prototype : nat) (total_steps : Z) (i : Z) : Coro unit :=
  run sleep ;
  run mutate prototype (SetProgress (py_percent (i + 1) total_steps)) ;
  do requested <- getitem prototype systems ;
  if (i =? 0)%Z then
    log prototype "Scene olusturuluyor (simule)..."
  else if (i <? len requested + 1)%Z then
    let system_idx := (i - 1)%Z in
    if (system_idx <? len requested)%Z then
      match requested !! Z.to_nat system_idx with
      | Some system => log prototype (system +:+ " ekleniyor (simule)...")
      | None => raise (IndexError "list index out of range")
      end
    else ret tt
  else if (i =? total_steps - 2)%Z then
    log prototype "Player olusturuluyor (simule)..."
  else
    log prototype "UI olusturuluyor (simule)...".

Fixpoint simulate_loop (prototype : nat) (total_steps : Z) (indices : list Z) : Coro unit :=
  match indices with
  | [] => ret tt
  | i :: rest =>
      run simulate_step prototype total_steps i ;
      simulate_loop prototype total_steps rest
  end.

(** [range(n)] *)
Definition range (n : Z) : list Z := Z.of_nat <$> seq 0 (Z.to_nat n).

Definition simulate_generation (prototype : nat) : Coro unit :=
  do requested <- getitem prototype systems ;
  let total_steps := (len requested + 3)%Z in
  run simulate_loop prototype total_steps (range total_steps) ;
  run mutate prototype (SetStatus "completed") ;
  do t <- now ;
  run mutate prototype (SetCompletedAt (isoformat t)) ;
  log prototype "Tamamlandi (simule)!".

(** The body of the [try] of [generate_prototype]. *)
Definition generate_body (prototype : nat) : Coro unit :=
  do connected <- connect ;
  if negb connected then
    simulate_generation prototype
  else
    do requested <- getitem prototype systems ;
    let total_steps := (len requested + 3)%Z in
    let current_step := 0%Z in
    run log prototype "Scene olusturuluyor..." ;
    run send_command "SetupSceneStructure" scene_params ;
    let current_step := (current_step + 1)%Z in
    run mutate prototype (SetProgress (py_percent current_step total_steps)) ;
    do requested <- getitem prototype systems ;
    do current_step <- import_systems prototype total_steps requested current_step ;
    run log prototype "Player olusturuluyor..." ;
    do p <- getitem prototype (fun p => p) ;
    run send_command "SetupPlayer" (player_params p) ;
    let current_step := (current_step + 1)%Z in
    run mutate prototype (SetProgress (py_percent current_step total_steps)) ;
    run log prototype "UI olusturuluyor..." ;
    do p <- getitem prototype (fun p => p) ;
    run send_command "SetupGameUI" (ui_params p) ;
    let current_step := (current_step + 1)%Z in
    run mutate prototype (SetProgress 100) ;
    run mutate prototype (SetStatus "completed") ;
    do t <- now ;
    run mutate prototype (SetCompletedAt (isoformat t)) ;
    log prototype "Tamamlandi!".

Definition generate_prototype (prototype_id : string) : Coro unit :=
  do prototype <- db_getitem prototype_id ;
  run mutate prototype (SetStatus "generating") ;
  run log prototype "Basladi" ;
  try_except
    (generate_body prototype)
    (fun e =>
       run mutate prototype (SetStatus "failed") ;
       log prototype ("HATA: " +:+ str e)).

(** [create_prototype]: the handler has no suspension point; it returns the
    dict, the task it spawned with [asyncio.create_task], and the new state.
    [uuid4] is the string of the identifier drawn. *)
Definition create_prototype (request : PrototypeRequest) (uuid4 : string) (w : World)
  : Prototype * (string * Coro unit) * World :=
  let prototype_id := String.substring 0 8 uuid4 in
  let prototype :=
    {| proto_id := prototype_id; name := req_name request; gameType := req_gameType request;
       systems := req_systems request; reference := req_reference request;
       status := "queued"; createdAt := isoformat (clock w); completedAt := None;
       progress := 0; logs := [] |} in
  (prototype, (prototype_id, generate_prototype prototype_id),
   {| heap := heap w ++ [prototype];
      prototypes_db := <[prototype_id := length (heap w)]> (prototypes_db w);
      unity_bridge := unity_bridge w; network := network w; clock := S (clock w) |}).

(** [get_prototype] and [list_prototypes] only read. *)
Definition get_prototype (prototype_id : string) (w : World) : Exn + Prototype :=
  match prototypes_db w !! prototype_id with
  | Some prototype =>
      match heap w !! prototype with
      | Some p => inr p
      | None => inl (Error "dangling reference")
      end
  | None => inl (HTTPException 404 "Prototip bulunamadi")
  end.

(** ** The event loop

    The state, the tasks spawned so far (with the
    identifier each was spawned for; [None] once finished), and the history
    of events.  A task runs from one suspension to the next without
    interleaving. *)

Record System : Type := {
  world : World;
  tasks : list (option (string * Coro unit));
  history : list Event
}.

Inductive Label : Type :=
| Submit (request : PrototypeRequest) (uuid4 : string)
| Resume (task : nat).

Definition step (l : Label) (s : System) : System :=
  match l with
  | Submit request uuid4 =>
      let '(_, task, w') := create_prototype request uuid4 (world s) in
      {| world := w'; tasks := tasks s ++ [Some task]; history := history s |}
  | Resume i =>
      match (tasks s !! i : option (option (string * Coro unit))) with
      | Some (Some (prototype_id, k)) =>
          match k (world s) with
          | Done _ evs w' | Raised _ evs w' =>
              {| world := w'; tasks := <[i := None]> (tasks s); history := history s ++ evs |}
          | Paused evs w' k' =>
              {| world := w'; tasks := <[i := Some (prototype_id, k')]> (tasks s);
                 history := history s ++ evs |}
          end
      | _ => s
      end
  end.

Definition exec (ls : list Label) (s : System) : System := foldl (fun s l => step l s) s ls.

Definition initial (net : list ConnectOutcome) (t0 : nat) : System :=
  {| world := {| heap := []; prototypes_db := ∅;
                 unity_bridge := {| socket := None; connected := false |};
                 network := net; clock := t0 |};
     tasks := []; history := [] |}.

(** Identifiers drawn by [uuid4] are taken to be new: no submission of the
    run reuses the first eight characters of a stored identifier. *)
Fixpoint fresh_ids (ls : list Label) (s : System) : Prop :=
  match ls with
  | [] => True
  | l :: rest =>
      match l with
      | Submit _ uuid4 => prototypes_db (world s) !! String.substring 0 8 uuid4 = None
      | Resume _ => True
      end ∧ fresh_ids rest (step l s)
  end.

(** ** Vocabulary of the specification

    The generation sequence as a list of steps, and what each step sends and
    logs.  [step_request] gives the log message, the command and its
    parameters, or nothing for a system key the catalog does not hold. *)

Inductive Step : Type :=
| StepScene
| StepSystem (key : string)
| StepPlayer
| StepUI.

Definition steps_of (requested : list string) : list Step :=
  StepScene :: (StepSystem <$> requested) ++ [StepPlayer; StepUI].

Definition step_request (p : Prototype) (st : Step) : option (string * string * Json) :=
  match st with
  | StepScene => Some ("Scene olusturuluyor...", "SetupSceneStructure", scene_params)
  | StepSystem key =>
      match SYSTEM_TEMPLATES !! key with
      | Some template =>
          Some (template_name template +:+ " ekleniyor...", "ImportVaultSystem",
                import_params key template p)
      | None => None
      end
  | StepPlayer => Some ("Player olusturuluyor...", "SetupPlayer", player_params p)
  | StepUI => Some ("UI olusturuluyor...", "SetupGameUI", ui_params p)
  end.

Definition is_system (st : Step) : Prop :=
  match st with StepSystem _ => True | _ => False end.

(** The value stored once step number [k] is done (the last step stores the
    literal 100). *)
Definition progress_after (st : Step) (k total : Z) : Z :=
  match st with
  | StepUI => 100
  | _ => py_percent k total
  end.

Definition sim_msg (st : Step) : string :=
  match st with
  | StepScene => "Scene olusturuluyor (simule)..."
  | StepSystem key => key +:+ " ekleniyor (simule)..."
  | StepPlayer => "Player olusturuluyor (simule)..."
  | StepUI => "UI olusturuluyor (simule)..."
  end.

(** How a computation is seen from outside: it returned, raised, or is
    suspended. *)
Inductive Obs (A : Type) : Type :=
| ODone (a : A)
| ORaised (e : Exn)
| OPaused.

Arguments ODone {A} a.
Arguments ORaised {A} e.
Arguments OPaused {A}.

(** The job dict after the events [evs], starting from [p]. *)
Definition replay (j : nat) (p : Prototype) (evs : list Event) : Prototype :=
  foldl (fun p e =>
           match e with
           | EvJob j' je => if decide (j' = j) then apply_job je p else p
           | _ => p
           end) p evs.

(** Events of one [send_command] call. *)
Inductive command_beh (command : string) (params : Json) : list Event -> Obs Json -> Prop :=
| cb_return pre value :
    pre = [] ∨ pre = [EvConnect true] ->
    command_beh command params
      (pre ++ [EvSend command params; EvReturn command value]) (ODone value)
| cb_unavailable :
    command_beh command params
      [EvConnect false; EvRaise command (HTTPException 503 "Unity Bridge baglantisi yok")]
      (ORaised (HTTPException 503 "Unity Bridge baglantisi yok"))
| cb_error pre sent cause :
    pre = [] ∨ pre = [EvConnect true] ->
    sent = [] ∨ sent = [EvSend command params] ->
    command_beh command params
      (pre ++ sent ++
       [EvRaise command (HTTPException 500 ("Unity komut hatasi: " +:+ str cause))])
      (ORaised (HTTPException 500 ("Unity komut hatasi: " +:+ str cause))).

(** Events of the bridge-driven steps [sts], the first being number
    [k + 1], for the job at [j] whose request is that of [p]. *)
Inductive steps_beh (j : nat) (p : Prototype) (total : Z)
  : Z -> list Step -> list Event -> Obs unit -> Prop :=
| sb_done k :
    steps_beh j p total k [] [] (ODone tt)
| sb_skip k st rest evs o :
    step_request p st = None ->
    steps_beh j p total (k + 1) rest evs o ->
    steps_beh j p total k (st :: rest)
      (EvJob j (SetProgress (progress_after st (k + 1) total)) :: evs) o
| sb_command k st rest msg c ps t cevs value evs o :
    step_request p st = Some (msg, c, ps) ->
    command_beh c ps cevs (ODone value) ->
    steps_beh j p total (k + 1) rest evs o ->
    steps_beh j p total k (st :: rest)
      (EvJob j (AppendLog (log_line t msg)) :: cevs ++
       EvJob j (SetProgress (progress_after st (k + 1) total)) :: evs) o
| sb_sleeping k st rest msg c ps t cevs value :
    step_request p st = Some (msg, c, ps) ->
    is_system st ->
    command_beh c ps cevs (ODone value) ->
    steps_beh j p total k (st :: rest)
      (EvJob j (AppendLog (log_line t msg)) :: cevs) OPaused
| sb_failed k st rest msg c ps t cevs e :
    step_request p st = Some (msg, c, ps) ->
    command_beh c ps cevs (ORaised e) ->
    steps_beh j p total k (st :: rest)
      (EvJob j (AppendLog (log_line t msg)) :: cevs) (ORaised e).

(** Events of the simulated steps [sts], the first having index [i]. *)
Inductive sim_beh (j : nat) (total : Z) : Z -> list Step -> list Event -> Obs unit -> Prop :=
| sim_done i :
    sim_beh j total i [] [] (ODone tt)
| sim_sleeping i st rest :
    sim_beh j total i (st :: rest) [] OPaused
| sim_step i st rest t evs o :
    sim_beh j total (i + 1) rest evs o ->
    sim_beh j total i (st :: rest)
      (EvJob j (SetProgress (py_percent (i + 1) total)) ::
       EvJob j (AppendLog (log_line t (sim_msg st))) :: evs) o.

Definition prelude (j : nat) (evs : list Event) : Prop :=
  ∃ t, evs = [EvJob j (SetStatus "generating"); EvJob j (AppendLog (log_line t "Basladi"))].

Definition completion (j : nat) (msg : string) (evs : list Event) : Prop :=
  ∃ t t', evs = [EvJob j (SetStatus "completed"); EvJob j (SetCompletedAt (isoformat t));
                 EvJob j (AppendLog (log_line t' msg))].

Definition failure (j : nat) (e : Exn) (evs : list Event) : Prop :=
  ∃ t, evs = [EvJob j (SetStatus "failed");
              EvJob j (AppendLog (log_line t ("HATA: " +:+ str e)))].

(** Events of one run of [generate_prototype] for the job at [j], up to a
    suspension or to its end. *)
Inductive generate_beh (j : nat) (p : Prototype) : list Event -> Obs unit -> Prop :=
| gb_sim_paused pre evs :
    prelude j pre ->
    sim_beh j (len (systems p) + 3) 0 (steps_of (systems p)) evs OPaused ->
    generate_beh j p (pre ++ EvConnect false :: evs) OPaused
| gb_sim_done pre evs fin :
    prelude j pre ->
    sim_beh j (len (systems p) + 3) 0 (steps_of (systems p)) evs (ODone tt) ->
    completion j "Tamamlandi (simule)!" fin ->
    generate_beh j p (pre ++ EvConnect false :: evs ++ fin) (ODone tt)
| gb_bridge_paused pre evs :
    prelude j pre ->
    steps_beh j p (len (systems p) + 3) 0 (steps_of (systems p)) evs OPaused ->
    generate_beh j p (pre ++ EvConnect true :: evs) OPaused
| gb_bridge_done pre evs fin :
    prelude j pre ->
    steps_beh j p (len (systems p) + 3) 0 (steps_of (systems p)) evs (ODone tt) ->
    completion j "Tamamlandi!" fin ->
    generate_beh j p (pre ++ EvConnect true :: evs ++ fin) (ODone tt)
| gb_bridge_failed pre evs e fin :
    prelude j pre ->
    steps_beh j p (len (systems p) + 3) 0 (steps_of (systems p)) evs (ORaised e) ->
    failure j e fin ->
    generate_beh j p (pre ++ EvConnect true :: evs ++ fin) (ODone tt).

(** *** Reasoning about a task among others

    The task that owns the job at [j] relies on the others leaving that dict
    alone ([rely]); in return each of its blocks leaves the rest of the
    store as it found it ([frame], against the state the block started in).
    [wp r w0 acc P] says that [P] holds of every observation of [r]: at each
    suspension and at the end, for the state [w0] the current block started
    in, the events [acc] of the task so far and the current state, whatever
    the others do in between. *)

Definition rely (j : nat) (w w' : World) : Prop := heap w' !! j = heap w !! j.

Definition frame (j : nat) (w0 w : World) : Prop :=
  prototypes_db w = prototypes_db w0 ∧
  length (heap w) = length (heap w0) ∧
  ∀ l, l ≠ j -> heap w !! l = heap w0 !! l.

Fixpoint wp {A} (j : nat) (r : Res A) (w0 : World) (acc : list Event)
  (P : Obs A -> World -> list Event -> World -> Prop) : Prop :=
  match r with
  | Done a evs w => P (ODone a) w0 (acc ++ evs) w
  | Raised e evs w => P (ORaised e) w0 (acc ++ evs) w
  | Paused evs w k =>
      P OPaused w0 (acc ++ evs) w ∧
      ∀ w', rely j w w' -> wp j (k w') w' (acc ++ evs) P
  end.

(** [sat j m p B]: started on the dict [p], [m] only shows behaviours of
    [B], keeps the frame, and leaves the dict as its events replayed. *)
Definition sat {A} (j : nat) (m : Coro A) (p : Prototype)
  (B : list Event -> Obs A -> Prop) : Prop :=
  ∀ w0 acc w P,
    frame j w0 w ->
    heap w !! j = Some p ->
    (∀ o evs w0' w',
        B evs o -> frame j w0' w' -> heap w' !! j = Some (replay j p evs) ->
        P o w0' (acc ++ evs) w') ->
    wp j (m w) w0 acc P.

Definition same_request (p p' : Prototype) : Prop :=
  name p' = name p ∧ gameType p' = gameType p ∧ systems p' = systems p.

(** *** Reading a history *)

Definition job_events (j : nat) (evs : list Event) : list JobEvent :=
  omap (fun e => match e with
                 | EvJob j' je => if decide (j' = j) then Some je else None
                 | _ => None
                 end) evs.

Definition progress_of (e : JobEvent) : option Z :=
  match e with SetProgress v => Some v | _ => None end.

Definition log_of (e : JobEvent) : option string :=
  match e with AppendLog line => Some line | _ => None end.

Definition status_of (e : JobEvent) : option string :=
  match e with SetStatus s => Some s | _ => None end.

(** The values assigned to [progress], the lines appended to [logs] and the
    values assigned to [status], in order. *)
Definition progress_values (j : nat) (evs : list Event) : list Z :=
  omap progress_of (job_events j evs).

Definition log_lines (j : nat) (evs : list Event) : list string :=
  omap log_of (job_events j evs).

Definition statuses (j : nat) (evs : list Event) : list string :=
  omap status_of (job_events j evs).

(** The payloads written to the transport, and the calls that raised. *)
Definition sent_commands (evs : list Event) : list (string * Json) :=
  omap (fun e => match e with EvSend c ps => Some (c, ps) | _ => None end) evs.

Definition raised_commands (evs : list Event) : list (string * Exn) :=
  omap (fun e => match e with EvRaise c e => Some (c, e) | _ => None end) evs.

(** The outcomes of the [connect()] attempts. *)
Definition connects (evs : list Event) : list bool :=
  omap (fun e => match e with EvConnect ok => Some ok | _ => None end) evs.

Definition completions (j : nat) (evs : list Event) : list string :=
  omap (fun e => match e with SetCompletedAt t => Some t | _ => None end) (job_events j evs).

(** [lines] are the messages [msgs], each behind a time stamp. *)
Definition stamped (msgs lines : list string) : Prop :=
  Forall2 (fun msg line => ∃ t, line = log_line t msg) msgs lines.

(** What the steps [sts], the first being number [k + 1], store, log and
    send when they all succeed. *)
Fixpoint expected_progress (total k : Z) (sts : list Step) : list Z :=
  match sts with
  | [] => []
  | st :: rest => progress_after st (k + 1) total :: expected_progress total (k + 1) rest
  end.

Definition step_msg (p : Prototype) (st : Step) : option string :=
  (fun r => r.1.1) <$> step_request p st.

Definition step_command (p : Prototype) (st : Step) : option (string * Json) :=
  (fun r => (r.1.2, r.2)) <$> step_request p st.

(** The progress the specification words: floor(completed_steps /
    total_steps * 100), in exact arithmetic. *)
Definition floor_percent (completed_steps total_steps : Z) : Z :=
  (completed_steps * 100) / total_steps.

(** Whether the code's expression and the exact one agree for every
    [1 <= total_steps < bound] and [0 <= k <= total_steps]. *)
Definition percents_agree (bound : Z) : bool :=
  forallb (fun n => forallb (fun k => py_percent k (n + 1) =? floor_percent k (n + 1))%Z
                      (range (n + 2)))
    (range (bound - 1)).

(** The same expression on the kernel's binary64 floats: [of_uint63] is
    exact on these integers, [div] and [mul] round to nearest even, and
    [int()] truncates. *)
Definition float_trunc (f : float) : Z :=
  match Prim2SF f with
  | S754_finite s m e =>
      let v := if (0 <=? e)%Z then (Z.pos m * 2 ^ e)%Z else (Z.pos m / 2 ^ (- e))%Z in
      if s then (- v)%Z else v
  | _ => 0%Z
  end.

Definition binary64_percent (current_step total_steps : Z) : Z :=
  float_trunc
    (PrimFloat.mul
       (PrimFloat.div (PrimFloat.of_uint63 (Uint63.of_Z current_step))
          (PrimFloat.of_uint63 (Uint63.of_Z total_steps)))
       (PrimFloat.of_uint63 100)).

Definition binary64_agree (bound : Z) : bool :=
  forallb (fun n => forallb (fun k => py_percent k (n + 1) =? binary64_percent k (n + 1))%Z
                      (range (n + 2)))
    (range (bound - 1)).

(** [py_percent k total] for [k = first + 1 .. first + n]. *)
Fixpoint percents (total first : Z) (n : nat) : list Z :=
  match n with
  | O => []
  | S n' => py_percent (first + 1) total :: percents total (first + 1) n'
  end.

(** What other tasks may do to the state while the owner of the job at [j]
    is suspended. *)
Definition respects (j : nat) (f : World -> World) : Prop :=
  ∀ w, heap (f w) !! j = heap w !! j.

Definition obs_of {A} (o : Exn + A) : Obs A :=
  match o with
  | inr a => ODone a
  | inl e => ORaised e
  end.

(** Whether the next [connect()] succeeds. *)
Definition accepts (w : World) : bool :=
  match network w with
  | Accepted _ :: _ => true
  | _ => false
  end.

(** One run of the engine for [prototype_id], started in [w], among the
    tasks [env]. *)
Definition engine_run (env : list (World -> World)) (prototype_id : string) (w : World)
  : Run unit :=
  run_under env (generate_prototype prototype_id w).

(** *** The bridge client seen from a call *)

(** What the transport and the parser make of one command on socket [s]. *)
Definition exchange (s : Socket) : Exn + Json :=
  match sock_sends s with
  | [] => inl (Error "Broken pipe")
  | Some msg :: _ => inl (Error msg)
  | None :: _ =>
      match fst (recv_until_newline "" (sock_recvs s)) with
      | inl e => inl e
      | inr response => json_loads (strip response)
      end
  end.

(** The socket a command is exchanged on: the current one when the
    connection is live, else the one the reconnection opens. *)
Definition live (w : World) (s : Socket) : Prop :=
  (connected (unity_bridge w) = true ∧ socket (unity_bridge w) = Some s) ∨
  (connected (unity_bridge w) = false ∧ ∃ rest, network w = Accepted s :: rest).

Definition unavailable (w : World) : Prop :=
  connected (unity_bridge w) = false ∧ ∀ s rest, network w ≠ Accepted s :: rest.

(** *** The event loop seen from one job *)

(** A block of a task: what it observed, its events, the state it left and
    what remains of the task. *)
Definition res_obs {A} (r : Res A) : Obs A :=
  match r with
  | Done a _ _ => ODone a
  | Raised e _ _ => ORaised e
  | Paused _ _ _ => OPaused
  end.

Definition res_events {A} (r : Res A) : list Event :=
  match r with
  | Done _ evs _ | Raised _ evs _ | Paused evs _ _ => evs
  end.

Definition res_world {A} (r : Res A) : World :=
  match r with
  | Done _ _ w | Raised _ _ w | Paused _ w _ => w
  end.

Definition res_task (prototype_id : string) (r : Res unit) : option (string * Coro unit) :=
  match r with
  | Paused _ _ k => Some (prototype_id, k)
  | _ => None
  end.

(** Only the job at [j] is assigned to in [evs]. *)
Definition job_only (j : nat) (evs : list Event) : Prop :=
  Forall (fun e => match e with EvJob j' _ => j' = j | _ => True end) evs.

(** A dict as [create_prototype] builds it. *)
Definition created (p0 : Prototype) : Prop :=
  status p0 = "queued" ∧ progress p0 = 0%Z ∧ logs p0 = [] ∧ completedAt p0 = None.

(** What every observation of the engine task of the job at [j] shows:
    the events of the task so far are a behaviour of [generate_prototype],
    the block left the rest of the store alone, and the dict is the created
    one with the events replayed. *)
Definition engine_post (j : nat) (p0 : Prototype)
  : Obs unit -> World -> list Event -> World -> Prop :=
  fun o w0 acc w =>
    generate_beh j p0 acc o ∧ frame j w0 w ∧ heap w !! j = Some (replay j p0 acc).

(** The job at [j] and its task, in a state of the event loop: [acc] are
    the events of the task so far. *)
Definition task_inv (s : System) (j : nat) : Prop :=
  ∃ p0 acc,
    created p0 ∧
    heap (world s) !! j = Some (replay j p0 acc) ∧
    job_events j (history s) = job_events j acc ∧
    match (tasks s !! j : option (option (string * Coro unit))) with
    | Some (Some (prototype_id, k)) =>
        prototypes_db (world s) !! prototype_id = Some j ∧
        (acc = [] ∨ generate_beh j p0 acc OPaused) ∧
        ∀ w', heap w' !! j = heap (world s) !! j ->
              prototypes_db w' !! prototype_id = Some j ->
              wp j (k w') w' acc (engine_post j p0)
    | Some None => generate_beh j p0 acc (ODone tt)
    | None => False
    end.

Definition system_inv (s : System) : Prop :=
  length (tasks s) = length (heap (world s)) ∧
  (∀ j, (length (heap (world s)) <= j)%nat -> job_events j (history s) = []) ∧
  ∀ j, (j < length (heap (world s)))%nat -> task_inv s j.


(** The assignments to [status] a job may have seen: none yet, then
    [generating], then [completed] or [failed]. *)
Definition lifecycle (l : list string) : Prop :=
  l = [] ∨ l = ["generating"] ∨ l = ["generating"; "completed"] ∨
  l = ["generating"; "failed"].


(** *** Auxiliary predicates of the proofs *)

(** Events of the bridge client: anything but an assignment to a job. *)
Definition bridge_event (e : Event) : Prop :=
  match e with EvJob _ _ => False | _ => True end.

(** Postconditions of [bind] and [try_except]. *)
Definition bind_post {A B} (j : nat) (f : A -> Coro B)
  (P : Obs B -> World -> list Event -> World -> Prop)
  : Obs A -> World -> list Event -> World -> Prop :=
  fun o w0 acc w =>
    match o with
    | ODone a => wp j (f a w) w0 acc P
    | ORaised e => P (ORaised e) w0 acc w
    | OPaused => P OPaused w0 acc w
    end.

Definition catch_post {A} (j : nat) (h : Exn -> Coro A)
  (P : Obs A -> World -> list Event -> World -> Prop)
  : Obs A -> World -> list Event -> World -> Prop :=
  fun o w0 acc w =>
    match o with
    | ORaised e => wp j (h e w) w0 acc P
    | _ => P o w0 acc w
    end.

(** The loop over the requested systems, as a run of system steps. *)
Definition import_beh (j : nat) (p : Prototype) (total : Z) (k : Z) (requested : list string)
  (evs : list Event) (o : Obs Z) : Prop :=
  match o with
  | ODone k' =>
      k' = (k + len requested)%Z ∧
      steps_beh j p total k ((StepSystem <$> requested)) evs (ODone tt)
  | ORaised e => steps_beh j p total k ((StepSystem <$> requested)) evs (ORaised e)
  | OPaused => steps_beh j p total k ((StepSystem <$> requested)) evs OPaused
  end.

(** Behaviours of the simulated path and of the bridge-driven path, after
    the first [connect()]. *)
Definition simulated_beh (j : nat) (p : Prototype) (evs : list Event) (o : Obs unit) : Prop :=
  match o with
  | ODone _ =>
      ∃ sevs fin, evs = sevs ++ fin ∧
        sim_beh j (len (systems p) + 3) 0 (steps_of (systems p)) sevs (ODone tt) ∧
        completion j "Tamamlandi (simule)!" fin
  | ORaised _ => False
  | OPaused => sim_beh j (len (systems p) + 3) 0 (steps_of (systems p)) evs OPaused
  end.

Definition bridge_beh (j : nat) (p : Prototype) (evs : list Event) (o : Obs unit) : Prop :=
  match o with
  | ODone _ =>
      ∃ sevs fin, evs = sevs ++ fin ∧
        steps_beh j p (len (systems p) + 3) 0 (steps_of (systems p)) sevs (ODone tt) ∧
        completion j "Tamamlandi!" fin
  | ORaised e => steps_beh j p (len (systems p) + 3) 0 (steps_of (systems p)) evs (ORaised e)
  | OPaused => steps_beh j p (len (systems p) + 3) 0 (steps_of (systems p)) evs OPaused
  end.

Definition body_beh (j : nat) (p : Prototype) (evs : list Event) (o : Obs unit) : Prop :=
  (∃ evs', evs = EvConnect true :: evs' ∧ bridge_beh j p evs' o) ∨
  (∃ evs', evs = EvConnect false :: evs' ∧ simulated_beh j p evs' o).

(** What a finished run leaves, by case. *)
Definition simulated_summary (j : nat) (p : Prototype) (evs : list Event) : Prop :=
  progress_values j evs = percents (len (systems p) + 3) 0 (length (systems p) + 3) ∧
  stamped ("Basladi" :: (sim_msg <$> steps_of (systems p)) ++ ["Tamamlandi (simule)!"])
    (log_lines j evs) ∧
  statuses j evs = ["generating"; "completed"] ∧
  (∃ t, completions j evs = [isoformat t]) ∧
  sent_commands evs = [] ∧ raised_commands evs = [].

Definition completed_summary (j : nat) (p : Prototype) (evs : list Event) : Prop :=
  progress_values j evs = percents (len (systems p) + 3) 0 (length (systems p) + 3) ∧
  stamped ("Basladi" :: omap (step_msg p) (steps_of (systems p)) ++ ["Tamamlandi!"])
    (log_lines j evs) ∧
  statuses j evs = ["generating"; "completed"] ∧
  (∃ t, completions j evs = [isoformat t]) ∧
  sent_commands evs = omap (step_command p) (steps_of (systems p)) ∧
  raised_commands evs = [].

Definition failed_summary (j : nat) (p : Prototype) (evs : list Event) : Prop :=
  ∃ m st msg c ps e,
    steps_of (systems p) !! m = Some st ∧ step_request p st = Some (msg, c, ps) ∧
    progress_values j evs = percents (len (systems p) + 3) 0 m ∧
    stamped ("Basladi" :: omap (step_msg p) (take m (steps_of (systems p))) ++
             [msg; "HATA: " +:+ str e]) (log_lines j evs) ∧
    statuses j evs = ["generating"; "failed"] ∧
    completions j evs = [] ∧
    (sent_commands evs = omap (step_command p) (take m (steps_of (systems p))) ∨
     sent_commands evs = omap (step_command p) (take m (steps_of (systems p))) ++ [(c, ps)]) ∧
    raised_commands evs = [(c, e)] ∧
    (e = HTTPException 503 "Unity Bridge baglantisi yok" ∨
     ∃ cause, e = HTTPException 500 ("Unity komut hatasi: " +:+ str cause)).


(** *** A concrete platform and runs on it

    A clock printing seconds as [HH:MM:SS], a [json.loads] that knows the
    three literals, and [str()] of an [HTTPException] as Starlette prints
    it. *)

Definition digit (n : nat) : string :=
  String (Ascii.ascii_of_nat (48 + n mod 10)) EmptyString.

Definition two_digits (n : nat) : string := digit (n / 10) +:+ digit n.

Definition clock_HMS (t : nat) : string :=
  two_digits (t / 3600 mod 24) +:+ ":" +:+ two_digits (t / 60 mod 60) +:+ ":" +:+
  two_digits (t mod 60).

Definition clock_iso (t : nat) : string := "2024-05-01T" +:+ clock_HMS t.

Definition loads (s : string) : Exn + Json :=
  if String.eqb s "true" then inr (JBool true)
  else if String.eqb s "false" then inr (JBool false)
  else if String.eqb s "null" then inr JNull
  else inl (Error "Expecting value").

Definition http_str (status_code : Z) (detail : string) : string :=
  digit (Z.to_nat status_code / 100) +:+ two_digits (Z.to_nat status_code) +:+ ": " +:+ detail.

(** A bridge that answers [true] to the first [n] commands and then resets
    the connection. *)
Definition answering (n : nat) : Socket :=
  {| sock_sends := replicate n None ++ [Some "Connection reset by peer"];
     sock_recvs := replicate n (Chunk ("true" +:+ String LF EmptyString)) |}.

Definition request_of (keys : list string) : PrototypeRequest :=
  {| req_name := "Arena"; req_gameType := "3D-RPG"; req_systems := keys;
     req_reference := None |}.

Definition uuid : string := "0a1b2c3d-0000-4000-8000-000000000000".
Definition uuid' : string := "7e8f9a0b-0000-4000-8000-000000000000".

(** The state right after one request for [keys] was accepted, the bridge
    behaving as [net]; the job it stored; the run of its engine alone. *)
Definition submitted (net : list ConnectOutcome) (keys : list string) : System :=
  step (Submit (request_of keys) uuid) (initial net 0).

Definition job_of (w : World) : Prototype :=
  default {| proto_id := ""; name := ""; gameType := ""; systems := []; reference := None;
             status := ""; createdAt := ""; completedAt := None; progress := 0; logs := [] |}
    (heap w !! 0%nat).

Definition engine (net : list ConnectOutcome) (keys : list string) : Run unit :=
  engine_run [] "0a1b2c3d" (world (submitted net keys)).


Definition bridge_schedule : list Label :=
  [Submit (request_of ["health"]) uuid; Resume 0; Resume 0].

Definition later_schedule : list Label :=
  [Submit (request_of []) uuid'; Resume 1; Resume 0; Resume 1].

(** *** The rest of the file: the other endpoints and methods *)

(** The module global [queue]: no function appends to it or rebinds it. *)
Definition queue : list Json := [].

(** [health_check] *)
Definition health_check (w : World) : Json :=
  let bridge_status := if connected (unity_bridge w) then "connected" else "disconnected" in
  JDict [("api", JStr "healthy"); ("unity_bridge", JStr bridge_status);
         ("queue_length", JNum (len queue))].

(** [UnityBridge.disconnect]: a socket object is truthy; once closed it
    fails every call, like a dead one. *)
Definition disconnect (w : World) : World :=
  match socket (unity_bridge w) with
  | Some _ => set_bridge {| socket := Some dead_socket; connected := false |} w
  | None => w
  end.

(** Every stored identifier names a dict of the store. *)
Definition store_ok (w : World) : Prop :=
  ∀ prototype_id j, prototypes_db w !! prototype_id = Some j -> (j < length (heap w))%nat.

(** The invariant of the client object: a connection marked live has a
    socket. *)
Definition bridge_ok (w : World) : Prop :=
  connected (unity_bridge w) = true -> is_Some (socket (unity_bridge w)).

(** The keys of a job that the engine never assigns to. *)
Definition same_identity (p p' : Prototype) : Prop :=
  proto_id p' = proto_id p ∧ name p' = name p ∧ gameType p' = gameType p ∧
  systems p' = systems p ∧ reference p' = reference p ∧ createdAt p' = createdAt p.

(** The commands of a bridge-driven generation, in the order of the source:
    scene, one import per requested key the catalog holds, player, UI. *)
Definition import_command (p : Prototype) (system_id : string) : option (string * Json) :=
  (fun template => ("ImportVaultSystem", import_params system_id template p))
    <$> SYSTEM_TEMPLATES !! system_id.

Definition generation_commands (p : Prototype) : list (string * Json) :=
  ("SetupSceneStructure", scene_params) ::
  omap (import_command p) (systems p) ++
  [("SetupPlayer", player_params p); ("SetupGameUI", ui_params p)].

(** The text of the chunks [recv] returned. *)
Definition chunks_text (chunks : list string) : string := foldr String.append "" chunks.

(** Whether the progress expression is the exact floor or one below it,
    for every [1 <= total_steps < bound] and [0 <= k <= total_steps]. *)
Definition percents_near_floor (bound : Z) : bool :=
  forallb (fun n => forallb (fun k => (floor_percent k (n + 1) - 1 <=? py_percent k (n + 1))%Z &&
                                      (py_percent k (n + 1) <=? floor_percent k (n + 1))%Z)
                      (range (n + 2)))
    (range (bound - 1)).

(** Two requests whose identifiers share their first eight characters. *)
Definition colliding_uuid : string := "0a1b2c3d-ffff-4fff-8fff-ffffffffffff".

Definition twice_submitted (net : list ConnectOutcome) (keys keys' : list string) : System :=
  step (Submit (request_of keys') colliding_uuid) (submitted net keys).

(** A reply arriving in two chunks, followed by bytes of a later message. *)
Definition sample_stream : list RecvEvent :=
  [Chunk "tr"; Chunk ("ue" +:+ String LF EmptyString); Chunk "next"].


(** * Verification *)

(** ** Facts about the float model *)

Section Binary64Facts.

Import Binary64.
Local Open Scope Q_scope.

Lemma two_pow_pos e : 0 < 2 ^ e.
Proof. apply Qpower_0_lt. reflexivity. Qed.

Lemma two_pow_plus a b : 2 ^ (a + b) == 2 ^ a * 2 ^ b.
Proof. apply Qpower_plus. discriminate. Qed.

Lemma two_pow_succ a : 2 ^ (a + 1) == 2 * 2 ^ a.
Proof. rewrite two_pow_plus. simpl. ring. Qed.

Lemma two_pow_le a b : (a <= b)%Z -> 2 ^ a <= 2 ^ b.
Proof. intros H. apply Qpower_le_compat_l; [exact H | discriminate]. Qed.

Lemma two_pow_lt a b : (a < b)%Z -> 2 ^ a < 2 ^ b.
Proof. intros H. apply Qpower_lt_compat_l; [exact H | reflexivity]. Qed.

Lemma two_pow_inject n : (0 <= n)%Z -> inject_Z (2 ^ n) == 2 ^ n.
Proof. intros H. apply (Zpower_Qpower 2 n H). Qed.

Lemma ilog2_spec x : 0 < x -> 2 ^ ilog2 x <= x /\ x < 2 ^ (ilog2 x + 1).
Proof.
  intros Hx. unfold ilog2.
  destruct x as [a b]. 
  assert (Ha : (0 < a)%Z) by (unfold Qlt in Hx; simpl in Hx; lia).
  cbn [Qnum Qden].
  set (la := Z.log2 a). set (lb := Z.log2 (Z.pos b)).
  assert (Hla := Z.log2_spec a Ha). assert (Hlb := Z.log2_spec (Z.pos b) eq_refl).
  fold la in Hla. fold lb in Hlb.
  assert (Hla0 : (0 <= la)%Z) by apply Z.log2_nonneg.
  assert (Hlb0 : (0 <= lb)%Z) by apply Z.log2_nonneg.
  set (d := (la - lb)%Z).
  assert (HD : 2 ^ d * 2 ^ lb == 2 ^ la).
  { rewrite <- two_pow_plus. replace (d + lb)%Z with la by (unfold d; lia). reflexivity. }
  assert (HA1 : 2 ^ la <= inject_Z a).
  { rewrite <- two_pow_inject by lia. rewrite <- Zle_Qle. lia. }
  assert (HA2 : inject_Z a < 2 * 2 ^ la).
  { rewrite <- two_pow_succ. rewrite <- two_pow_inject by lia. rewrite <- Zlt_Qlt. unfold Z.succ in Hla. lia. }
  assert (HB1 : 2 ^ lb <= inject_Z (Z.pos b)).
  { rewrite <- two_pow_inject by lia. rewrite <- Zle_Qle. lia. }
  assert (HB2 : inject_Z (Z.pos b) < 2 * 2 ^ lb).
  { rewrite <- two_pow_succ. rewrite <- two_pow_inject by lia. rewrite <- Zlt_Qlt. unfold Z.succ in Hlb. lia. }
  assert (HX : (a # b) * inject_Z (Z.pos b) == inject_Z a).
  { rewrite (Qmake_Qdiv a b). field. discriminate. }
  assert (Hd := two_pow_pos d). assert (Hlbp := two_pow_pos lb).
  assert (HB0 : 0 < inject_Z (Z.pos b)) by reflexivity.
  assert (Hup : (a # b) < 2 * 2 ^ d).
  { apply Qnot_le_lt. intros Hc.
    assert (2 * 2 ^ d * inject_Z (Z.pos b) <= (a # b) * inject_Z (Z.pos b)).
    { apply Qmult_le_compat_r; [exact Hc | lra]. }
    assert (2 * 2 ^ d * 2 ^ lb <= 2 * 2 ^ d * inject_Z (Z.pos b)).
    { apply Qmult_le_l; lra. }
    lra. }
  assert (Hlo : 2 ^ d < 2 * (a # b)).
  { apply Qnot_le_lt. intros Hc.
    assert (2 * (a # b) * inject_Z (Z.pos b) <= 2 ^ d * inject_Z (Z.pos b)).
    { apply Qmult_le_compat_r; [exact Hc | lra]. }
    assert (2 ^ d * inject_Z (Z.pos b) < 2 ^ d * (2 * 2 ^ lb)).
    { apply Qmult_lt_l; lra. }
    lra. }
  destruct (Qle_bool (2 ^ d) (a # b)) eqn:E.
  - apply Qle_bool_iff in E. split; [exact E|]. rewrite two_pow_succ. exact Hup.
  - assert (~ 2 ^ d <= a # b) by (rewrite <- Qle_bool_iff; congruence).
    replace (d - 1 + 1)%Z with d by lia.
    split; [| lra].
    assert (2 * 2 ^ (d - 1) == 2 ^ d).
    { rewrite <- two_pow_succ. replace (d - 1 + 1)%Z with d by lia. reflexivity. }
    lra.
Qed.


Lemma ilog2_unique x l : 0 < x -> 2 ^ l <= x -> x < 2 ^ (l + 1) -> ilog2 x = l.
Proof.
  intros Hx H1 H2. destruct (ilog2_spec x Hx) as [H3 H4].
  assert (ilog2 x < l + 1)%Z.
  { apply (Qpower_lt_compat_l_inv 2); [|reflexivity]. lra. }
  assert (l < ilog2 x + 1)%Z.
  { apply (Qpower_lt_compat_l_inv 2); [|reflexivity]. lra. }
  lia.
Qed.

Lemma ilog2_comp x y : 0 < x -> x == y -> ilog2 x = ilog2 y.
Proof.
  intros Hx E. symmetry. destruct (ilog2_spec x Hx).
  apply ilog2_unique; lra.
Qed.

Lemma ilog2_mono x y : 0 < x -> x <= y -> (ilog2 x <= ilog2 y)%Z.
Proof.
  intros Hx Hxy. destruct (ilog2_spec x Hx) as [H1 _].
  assert (Hy : 0 < y) by lra. destruct (ilog2_spec y Hy) as [_ H2].
  assert (ilog2 x < ilog2 y + 1)%Z.
  { apply (Qpower_lt_compat_l_inv 2); [|reflexivity]. lra. }
  lia.
Qed.

Lemma rne_comp t t' : t == t' -> rne t = rne t'.
Proof.
  intros E. unfold rne. rewrite (Qfloor_comp _ _ E).
  assert (E' : t - inject_Z (Qfloor t') == t' - inject_Z (Qfloor t')) by (rewrite E; reflexivity).
  rewrite (Qcompare_comp _ _ E' _ _ (Qeq_refl (1 # 2))). reflexivity.
Qed.

Lemma rne_range t : (Qfloor t <= rne t <= Qfloor t + 1)%Z.
Proof.
  unfold rne. destruct (Qcompare _ _); [destruct (Z.even _)| |]; lia.
Qed.

Lemma rne_inject_Z z : rne (inject_Z z) = z.
Proof.
  unfold rne. rewrite Qfloor_Z.
  destruct (Qcompare_spec (inject_Z z - inject_Z z) (1 # 2)) as [A | A | A];
    [exfalso; lra | reflexivity | exfalso; lra].
Qed.

Lemma rne_mono t t' : t <= t' -> (rne t <= rne t')%Z.
Proof.
  intros H. pose proof (Qfloor_resp_le _ _ H) as Hf.
  destruct (Z.eq_dec (Qfloor t) (Qfloor t')) as [E | NE].
  - unfold rne. rewrite <- E.
    destruct (Qcompare_spec (t - inject_Z (Qfloor t)) (1 # 2)) as [A | A | A];
      destruct (Qcompare_spec (t' - inject_Z (Qfloor t)) (1 # 2)) as [B | B | B];
      try destruct (Z.even (Qfloor t)); try lia; exfalso; lra.
  - pose proof (rne_range t). pose proof (rne_range t'). lia.
Qed.

Lemma round_pos_scaled x : 0 < x ->
  2 ^ 52 <= x / 2 ^ (ilog2 x - 52) /\ x / 2 ^ (ilog2 x - 52) < 2 ^ 53.
Proof.
  intros Hx. destruct (ilog2_spec x Hx) as [H1 H2].
  set (e := (ilog2 x - 52)%Z). pose proof (two_pow_pos e) as He.
  assert (E1 : 2 ^ ilog2 x == 2 ^ 52 * 2 ^ e).
  { rewrite <- two_pow_plus. unfold e. replace (52 + (ilog2 x - 52))%Z with (ilog2 x) by lia. reflexivity. }
  assert (E2 : 2 ^ (ilog2 x + 1) == 2 ^ 53 * 2 ^ e).
  { rewrite <- two_pow_plus. unfold e. replace (53 + (ilog2 x - 52))%Z with (ilog2 x + 1)%Z by lia. reflexivity. }
  split.
  - apply Qle_shift_div_l; [exact He|]. lra.
  - apply Qlt_shift_div_r; [exact He|]. lra.
Qed.

Lemma round_pos_mant x : 0 < x ->
  (2 ^ 52 <= rne (x / 2 ^ (ilog2 x - 52)) <= 2 ^ 53)%Z.
Proof.
  intros Hx. destruct (round_pos_scaled x Hx) as [H1 H2].
  split.
  - rewrite <- (rne_inject_Z (2 ^ 52)). apply rne_mono.
    rewrite two_pow_inject by lia. exact H1.
  - rewrite <- (rne_inject_Z (2 ^ 53)). apply rne_mono.
    rewrite two_pow_inject by lia. lra.
Qed.

Lemma round_pos_mono x y : 0 < x -> x <= y -> round_pos x <= round_pos y.
Proof.
  intros Hx Hxy. assert (Hy : 0 < y) by lra.
  pose proof (ilog2_mono x y Hx Hxy) as Hl.
  unfold round_pos.
  destruct (Z.eq_dec (ilog2 x) (ilog2 y)) as [E | NE].
  - rewrite E. pose proof (two_pow_pos (ilog2 y - 52)) as He.
    apply Qmult_le_compat_r; [| lra].
    rewrite <- Zle_Qle. apply rne_mono.
    apply Qmult_le_compat_r; [exact Hxy|]. apply Qlt_le_weak, Qinv_lt_0_compat, He.
  - pose proof (round_pos_mant x Hx) as [_ Mx]. pose proof (round_pos_mant y Hy) as [My _].
    set (ex := (ilog2 x - 52)%Z) in *. set (ey := (ilog2 y - 52)%Z) in *.
    pose proof (two_pow_pos ex) as Hex. pose proof (two_pow_pos ey) as Hey.
    apply Qle_trans with (2 ^ 53 * 2 ^ ex).
    { apply Qmult_le_compat_r; [| lra]. rewrite <- (two_pow_inject 53) by lia. rewrite <- Zle_Qle. exact Mx. }
    apply Qle_trans with (2 ^ 52 * 2 ^ ey).
    { rewrite <- !two_pow_plus. apply two_pow_le. unfold ex, ey. lia. }
    apply Qmult_le_compat_r; [| lra]. rewrite <- (two_pow_inject 52) by lia. rewrite <- Zle_Qle. exact My.
Qed.

Lemma round_pos_pos x : 0 < x -> 0 < round_pos x.
Proof.
  intros Hx. unfold round_pos. pose proof (round_pos_mant x Hx) as [M _].
  apply Qmult_lt_0_compat; [| apply two_pow_pos].
  replace 0 with (inject_Z 0) by reflexivity. rewrite <- Zlt_Qlt. lia.
Qed.

Lemma round_pos_comp x y : 0 < x -> x == y -> round_pos x == round_pos y.
Proof.
  intros Hx E. unfold round_pos. rewrite <- (ilog2_comp x y Hx E).
  rewrite (rne_comp (x / 2 ^ (ilog2 x - 52)) (y / 2 ^ (ilog2 x - 52))); [reflexivity|].
  apply Qdiv_comp; [exact E | reflexivity].
Qed.

Lemma round53_comp x y : x == y -> round53 x == round53 y.
Proof.
  intros E. unfold round53. rewrite <- (Qcompare_comp _ _ E _ _ (Qeq_refl 0)).
  destruct (Qcompare_spec x 0) as [A | A | A].
  - reflexivity.
  - rewrite (round_pos_comp (- x) (- y)); [reflexivity | lra | rewrite E; reflexivity].
  - apply round_pos_comp; assumption.
Qed.

Lemma round53_nonneg x : 0 <= x -> 0 <= round53 x.
Proof.
  intros H. unfold round53. destruct (Qcompare_spec x 0) as [A | A | A].
  - lra.
  - lra.
  - apply Qlt_le_weak, round_pos_pos, A.
Qed.

Lemma round53_mono x y : 0 <= x -> x <= y -> round53 x <= round53 y.
Proof.
  intros Hx Hxy. unfold round53 at 1. destruct (Qcompare_spec x 0) as [A | A | A].
  - apply round53_nonneg. lra.
  - lra.
  - unfold round53. destruct (Qcompare_spec y 0) as [B | B | B]; [exfalso; lra | exfalso; lra |].
    apply round_pos_mono; assumption.
Qed.

Lemma float_of_int_100 : float_of_int 100 == 100.
Proof. vm_compute. reflexivity. Qed.

Lemma round53_1 : round53 1 == 1.
Proof. vm_compute. reflexivity. Qed.

Lemma round53_100 : round53 100 == 100.
Proof. vm_compute. reflexivity. Qed.

Lemma truediv_mono a b n : (0 <= a <= b)%Z -> (0 < n)%Z -> 0 <= truediv a n <= truediv b n.
Proof.
  intros Hab Hn. unfold truediv.
  assert (Hn' : 0 < inject_Z n) by (replace 0 with (inject_Z 0) by reflexivity; rewrite <- Zlt_Qlt; lia).
  assert (Ha : 0 <= inject_Z a) by (replace 0 with (inject_Z 0) by reflexivity; rewrite <- Zle_Qle; lia).
  assert (Hab' : inject_Z a <= inject_Z b) by (rewrite <- Zle_Qle; lia).
  assert (Hi : 0 < / inject_Z n) by (apply Qinv_lt_0_compat, Hn').
  assert (0 <= inject_Z a / inject_Z n) by (apply Qmult_le_0_compat; lra).
  split.
  - apply round53_nonneg. assumption.
  - apply round53_mono; [assumption|]. apply Qmult_le_compat_r; lra.
Qed.

Lemma truediv_self n : (0 < n)%Z -> truediv n n == 1.
Proof.
  intros Hn. unfold truediv. rewrite <- round53_1. apply round53_comp.
  assert (Hn' : 0 < inject_Z n) by (replace 0 with (inject_Z 0) by reflexivity; rewrite <- Zlt_Qlt; lia).
  field. lra.
Qed.



Lemma py_percent_mono k k' n :
  (0 <= k <= k')%Z -> (0 < n)%Z -> (0 <= py_percent k n <= py_percent k' n)%Z.
Proof.
  intros Hk Hn. unfold py_percent, Binary64.fmul.
  destruct (truediv_mono k k' n Hk Hn) as [H0 H1].
  pose proof float_of_int_100 as H100.
  assert (A : (0 <= Binary64.truediv k n * Binary64.float_of_int 100)%Q).
  { apply Qmult_le_0_compat; [exact H0 | lra]. }
  assert (B : (Binary64.truediv k n * Binary64.float_of_int 100 <= Binary64.truediv k' n * Binary64.float_of_int 100)%Q).
  { apply Qmult_le_compat_r; [exact H1 | lra]. }
  pose proof (round53_nonneg _ A) as A'.
  pose proof (round53_mono _ _ A B) as B'.
  unfold Binary64.py_int.
  apply Qle_bool_iff in A'. rewrite A'. apply Qle_bool_iff in A'.
  assert (C : (0 <= Binary64.round53 (Binary64.truediv k' n * Binary64.float_of_int 100))%Q) by lra.
  apply Qle_bool_iff in C. rewrite C.
  split.
  - replace 0%Z with (Qfloor 0) by reflexivity. apply Qfloor_resp_le. exact A'.
  - apply Qfloor_resp_le. exact B'.
Qed.

Lemma py_percent_full n : (0 < n)%Z -> py_percent n n = 100%Z.
Proof.
  intros Hn. unfold py_percent, Binary64.fmul.
  assert (E : (Binary64.round53 (Binary64.truediv n n * Binary64.float_of_int 100) == 100)%Q).
  { rewrite <- round53_100. apply round53_comp.
    rewrite (truediv_self n Hn), float_of_int_100. reflexivity. }
  unfold Binary64.py_int.
  assert (C : (0 <= Binary64.round53 (Binary64.truediv n n * Binary64.float_of_int 100))%Q) by lra.
  apply Qle_bool_iff in C. rewrite C.
  rewrite (Qfloor_comp _ _ E). reflexivity.
Qed.

End Binary64Facts.

(** ** Replaying events *)

Lemma replay_app j p evs1 evs2 :
  replay j p (evs1 ++ evs2) = replay j (replay j p evs1) evs2.
Proof. unfold replay. apply foldl_app. Qed.

Lemma replay_job j p e : replay j p [EvJob j e] = apply_job e p.
Proof. unfold replay. simpl. destruct (decide (j = j)); [reflexivity | contradiction]. Qed.

Lemma replay_cons_job j p e evs :
  replay j p (EvJob j e :: evs) = replay j (apply_job e p) evs.
Proof. unfold replay. simpl. destruct (decide (j = j)); [reflexivity | contradiction]. Qed.

Lemma same_request_refl p : same_request p p.
Proof. repeat split. Qed.

Lemma same_request_apply p p' e : same_request p p' -> same_request p (apply_job e p').
Proof. intros (H1 & H2 & H3). destruct e; repeat split; assumption. Qed.

Lemma same_request_replay j p p' evs : same_request p p' -> same_request p (replay j p' evs).
Proof.
  revert p'. induction evs as [| e evs IH]; intros p' H; [exact H |].
  unfold replay. simpl. apply IH.
  destruct e; try exact H. destruct (decide (prototype = j)); [apply same_request_apply |]; exact H.
Qed.

Lemma step_request_same p p' st : same_request p p' -> step_request p' st = step_request p st.
Proof.
  intros (H1 & H2 & H3). destruct st; simpl; try reflexivity.
  - destruct (SYSTEM_TEMPLATES !! key); [| reflexivity]. unfold import_params. rewrite H1. reflexivity.
  - unfold player_params. rewrite H2, H3. reflexivity.
  - unfold ui_params. rewrite H3. reflexivity.
Qed.

Lemma replay_bridge j p evs : Forall bridge_event evs -> replay j p evs = p.
Proof.
  induction 1 as [| e evs He _ IH]; [reflexivity |].
  unfold replay in *. simpl. destruct e; simpl in He; try contradiction; exact IH.
Qed.

Lemma command_beh_bridge c ps evs o : command_beh c ps evs o -> Forall bridge_event evs.
Proof.
  destruct 1 as [pre value [-> | ->] | | pre sent cause [-> | ->] [-> | ->]];
    repeat constructor.
Qed.

(** ** Rules of [wp] and [sat] *)

Lemma frame_refl j w : frame j w w.
Proof. repeat split. Qed.

Lemma frame_same_store j w0 w w' :
  frame j w0 w -> heap w' = heap w -> prototypes_db w' = prototypes_db w -> frame j w0 w'.
Proof. intros (H1 & H2 & H3) Hh Hd. unfold frame. rewrite Hh, Hd. auto. Qed.

Lemma frame_alter j w0 w f :
  frame j w0 w -> frame j w0 (set_heap (alter f j (heap w)) w).
Proof.
  intros (H1 & H2 & H3). repeat split; simpl.
  - exact H1.
  - rewrite length_alter. exact H2.
  - intros l Hl. rewrite list_lookup_alter_ne by congruence. apply H3, Hl.
Qed.

Lemma wp_mono {A} j (r : Res A) w0 acc (P P' : Obs A -> World -> list Event -> World -> Prop) :
  (∀ o w0 acc w, P o w0 acc w -> P' o w0 acc w) ->
  wp j r w0 acc P -> wp j r w0 acc P'.
Proof.
  intros HPP'. revert w0 acc.
  induction r as [a evs w | e evs w | evs w k IH]; intros w0 acc; simpl.
  - apply HPP'.
  - apply HPP'.
  - intros [H1 H2]. split; [apply HPP', H1 |]. intros w' Hr. apply IH, H2, Hr.
Qed.

Lemma wp_prepend {A} j evs (r : Res A) w0 acc P :
  wp j (prepend evs r) w0 acc P <-> wp j r w0 (acc ++ evs) P.
Proof. destruct r; simpl; rewrite !app_assoc; reflexivity. Qed.

Lemma wp_bind {A B} j (r : Res A) (f : A -> Coro B) w0 acc P :
  wp j r w0 acc (bind_post j f P) -> wp j (bind_res r f) w0 acc P.
Proof.
  revert w0 acc. induction r as [a evs w | e evs w | evs w k IH]; intros w0 acc; simpl.
  - intros H. apply wp_prepend. exact H.
  - auto.
  - intros [H1 H2]. split; [exact H1 |]. intros w' Hr. apply IH, H2, Hr.
Qed.

Lemma wp_catch {A} j (r : Res A) (h : Exn -> Coro A) w0 acc P :
  wp j r w0 acc (catch_post j h P) -> wp j (catch_res r h) w0 acc P.
Proof.
  revert w0 acc. induction r as [a evs w | e evs w | evs w k IH]; intros w0 acc; simpl.
  - auto.
  - intros H. apply wp_prepend. exact H.
  - intros [H1 H2]. split; [exact H1 |]. intros w' Hr. apply IH, H2, Hr.
Qed.

Lemma sat_mono {A} j (m : Coro A) p (B B' : list Event -> Obs A -> Prop) :
  (∀ evs o, B evs o -> B' evs o) -> sat j m p B -> sat j m p B'.
Proof.
  intros HBB' Hm w0 acc w P Hfr Hh HP. apply Hm; [exact Hfr | exact Hh |].
  intros o evs w0' w' HB. apply HP, HBB', HB.
Qed.

Lemma sat_bind {A B} j (m : Coro A) (f : A -> Coro B) p B1 (B2 : list Event -> Obs B -> Prop) :
  sat j m p B1 ->
  (∀ a evs1, B1 evs1 (ODone a) ->
     sat j (f a) (replay j p evs1) (fun evs2 o => B2 (evs1 ++ evs2) o)) ->
  (∀ e evs, B1 evs (ORaised e) -> B2 evs (ORaised e)) ->
  (∀ evs, B1 evs OPaused -> B2 evs OPaused) ->
  sat j (bind m f) p B2.
Proof.
  intros Hm Hf He Hp w0 acc w P Hfr Hh HP. unfold bind. apply wp_bind.
  apply Hm; [exact Hfr | exact Hh |].
  intros o evs w0' w' HB Hfr' Hh'. destruct o as [a | e |]; simpl.
  - apply (Hf a evs HB w0' (acc ++ evs) w' P Hfr' Hh').
    intros o2 evs2 w0'' w'' HB2 Hfr2 Hh2. rewrite <- app_assoc.
    apply HP; [exact HB2 | exact Hfr2 |]. rewrite replay_app. exact Hh2.
  - apply HP; [apply He, HB | exact Hfr' | exact Hh'].
  - apply HP; [apply Hp, HB | exact Hfr' | exact Hh'].
Qed.

Lemma sat_try {A} j (body : Coro A) (h : Exn -> Coro A) p B1 (B2 : list Event -> Obs A -> Prop) :
  sat j body p B1 ->
  (∀ e evs1, B1 evs1 (ORaised e) ->
     sat j (h e) (replay j p evs1) (fun evs2 o => B2 (evs1 ++ evs2) o)) ->
  (∀ a evs, B1 evs (ODone a) -> B2 evs (ODone a)) ->
  (∀ evs, B1 evs OPaused -> B2 evs OPaused) ->
  sat j (try_except body h) p B2.
Proof.
  intros Hm Hh' Hd Hp w0 acc w P Hfr Hh HP. unfold try_except. apply wp_catch.
  apply Hm; [exact Hfr | exact Hh |].
  intros o evs w0' w' HB Hfr' Hhp. destruct o as [a | e |]; simpl.
  - apply HP; [apply Hd, HB | exact Hfr' | exact Hhp].
  - apply (Hh' e evs HB w0' (acc ++ evs) w' P Hfr' Hhp).
    intros o2 evs2 w0'' w'' HB2 Hfr2 Hh2. rewrite <- app_assoc.
    apply HP; [exact HB2 | exact Hfr2 |]. rewrite replay_app. exact Hh2.
  - apply HP; [apply Hp, HB | exact Hfr' | exact Hhp].
Qed.

Lemma sat_ret {A} j (a : A) p (B : list Event -> Obs A -> Prop) :
  B [] (ODone a) -> sat j (ret a) p B.
Proof.
  intros HB w0 acc w P Hfr Hh HP. simpl. apply HP; [exact HB | exact Hfr | exact Hh].
Qed.

Lemma sat_raise {A} j e p (B : list Event -> Obs A -> Prop) :
  B [] (ORaised e) -> sat j (raise e) p B.
Proof.
  intros HB w0 acc w P Hfr Hh HP. simpl. apply HP; [exact HB | exact Hfr | exact Hh].
Qed.

Lemma sat_mutate j e p (B : list Event -> Obs unit -> Prop) :
  B [EvJob j e] (ODone tt) -> sat j (mutate j e) p B.
Proof.
  intros HB w0 acc w P Hfr Hh HP. unfold mutate. cbn [wp].
  apply HP; [exact HB | apply frame_alter, Hfr |].
  cbn [set_heap heap]. rewrite list_lookup_alter_eq, Hh, replay_job. reflexivity.
Qed.

Lemma sat_now j p (B : list Event -> Obs nat -> Prop) :
  (∀ t, B [] (ODone t)) -> sat j now p B.
Proof.
  intros HB w0 acc w P Hfr Hh HP. simpl. apply HP; [apply HB | | exact Hh].
  apply (frame_same_store j w0 w); [exact Hfr | reflexivity | reflexivity].
Qed.

Lemma sat_log j msg p (B : list Event -> Obs unit -> Prop) :
  (∀ t, B [EvJob j (AppendLog (log_line t msg))] (ODone tt)) -> sat j (log j msg) p B.
Proof.
  intros HB. unfold log. apply sat_bind with (B1 := fun evs o => evs = [] ∧ ∃ t, o = ODone t).
  - apply sat_now. eauto.
  - intros t evs1 [-> _]. apply sat_mutate. simpl. apply HB.
  - intros e evs [_ [t Ht]]. discriminate.
  - intros evs [_ [t Ht]]. discriminate.
Qed.

Lemma sat_getitem {A} j (key : Prototype -> A) p (B : list Event -> Obs A -> Prop) :
  B [] (ODone (key p)) -> sat j (getitem j key) p B.
Proof.
  intros HB w0 acc w P Hfr Hh HP. unfold getitem. rewrite Hh. simpl.
  apply HP; [exact HB | exact Hfr | exact Hh].
Qed.

Lemma sat_sleep j p (B : list Event -> Obs unit -> Prop) :
  B [] OPaused -> B [] (ODone tt) -> sat j sleep p B.
Proof.
  intros HB1 HB2 w0 acc w P Hfr Hh HP. simpl. split.
  - apply HP; [exact HB1 | exact Hfr | exact Hh].
  - intros w' Hr. rewrite app_nil_r. apply HP; [exact HB2 | apply frame_refl |].
    unfold rely in Hr. rewrite Hr. exact Hh.
Qed.

Lemma sat_connect j p (B : list Event -> Obs bool -> Prop) :
  (∀ ok, B [EvConnect ok] (ODone ok)) -> sat j connect p B.
Proof.
  intros HB w0 acc w P Hfr Hh HP. unfold connect.
  destruct (network w) as [| [msg | s] rest]; simpl;
    (apply HP; [apply HB | | exact Hh]);
    (apply (frame_same_store j w0 w); [exact Hfr | reflexivity | reflexivity]).
Qed.

(** ** The bridge client *)

Lemma send_command_live c ps w s :
  live w s ->
  match exchange s with
  | inr v =>
      ∃ pre w', send_command c ps w = Done v (pre ++ [EvSend c ps; EvReturn c v]) w' ∧
                (pre = [] ∨ pre = [EvConnect true]) ∧
                heap w' = heap w ∧ prototypes_db w' = prototypes_db w ∧
                connected (unity_bridge w') = true
  | inl cause =>
      ∃ pre sent w',
        send_command c ps w =
          Raised (HTTPException 500 ("Unity komut hatasi: " +:+ str cause))
            (pre ++ sent ++
             [EvRaise c (HTTPException 500 ("Unity komut hatasi: " +:+ str cause))]) w' ∧
        (pre = [] ∨ pre = [EvConnect true]) ∧ (sent = [] ∨ sent = [EvSend c ps]) ∧
        heap w' = heap w ∧ prototypes_db w' = prototypes_db w ∧
        connected (unity_bridge w') = false
  end.
Proof.
  intros [[Hc Hs] | [Hc [rest Hn]]].
  - unfold send_command, exchange, bind, is_connected, try_except, socket_send,
      socket_recv_response, emit, raise, ret, set_connected.
    cbn [bind_res prepend]. rewrite Hc. cbn [negb bind_res prepend app]. rewrite Hc.
    cbn [negb]. rewrite Hs.
    destruct (sock_sends s) as [| [msg |] sends'].
    + cbn. exists [], [], (set_bridge {| socket := socket (unity_bridge w); connected := false |} w).
      repeat split; auto.
    + cbn. eexists [], [], _. repeat split; auto.
    + cbn. destruct (recv_until_newline "" (sock_recvs s)) as [[e | response] recvs'].
      * cbn. eexists [], [EvSend c ps], _. repeat split; auto.
      * cbn. destruct (json_loads (strip response)) as [e | v].
        -- cbn. eexists [], [EvSend c ps], _. repeat split; auto.
        -- cbn. eexists [], _. repeat split; auto.
  - unfold send_command, exchange, bind, is_connected, try_except, socket_send,
      socket_recv_response, emit, raise, ret, set_connected, connect.
    cbn [bind_res prepend]. rewrite Hc. cbn [negb bind_res prepend app]. rewrite Hn.
    cbn.
    destruct (sock_sends s) as [| [msg |] sends'].
    + cbn. eexists [EvConnect true], [], _. repeat split; auto.
    + cbn. eexists [EvConnect true], [], _. repeat split; auto.
    + cbn. destruct (recv_until_newline "" (sock_recvs s)) as [[e | response] recvs'].
      * cbn. eexists [EvConnect true], [EvSend c ps], _. repeat split; auto.
      * cbn. destruct (json_loads (strip response)) as [e | v].
        -- cbn. eexists [EvConnect true], [EvSend c ps], _. repeat split; auto.
        -- cbn. eexists [EvConnect true], _. repeat split; auto.
Qed.

Lemma send_command_unavailable c ps w :
  unavailable w ->
  ∃ w', send_command c ps w =
          Raised (HTTPException 503 "Unity Bridge baglantisi yok")
            [EvConnect false; EvRaise c (HTTPException 503 "Unity Bridge baglantisi yok")] w' ∧
        heap w' = heap w ∧ prototypes_db w' = prototypes_db w ∧
        connected (unity_bridge w') = false ∧
        socket (unity_bridge w') = Some dead_socket ∧
        network w' = tail (network w).
Proof.
  intros [Hc Hn].
  unfold send_command, bind, is_connected, emit, raise, ret, connect.
  cbn [bind_res prepend]. rewrite Hc. cbn [negb bind_res prepend app].
  destruct (network w) as [| [msg | s] rest] eqn:E.
  - cbn. eexists. repeat split; auto.
  - cbn. eexists. repeat split; auto.
  - exfalso. apply (Hn s rest). reflexivity.
Qed.

Lemma send_command_no_socket c ps w :
  connected (unity_bridge w) = true -> socket (unity_bridge w) = None ->
  ∃ cause w',
    send_command c ps w =
      Raised (HTTPException 500 ("Unity komut hatasi: " +:+ str cause))
        [EvRaise c (HTTPException 500 ("Unity komut hatasi: " +:+ str cause))] w' ∧
    heap w' = heap w ∧ prototypes_db w' = prototypes_db w.
Proof.
  intros Hc Hs.
  unfold send_command, bind, is_connected, try_except, socket_send, emit, raise, ret,
    set_connected.
  cbn [bind_res prepend]. rewrite Hc. cbn [negb bind_res prepend app]. rewrite Hc.
  cbn [negb]. rewrite Hs. cbn.
  exists (Error "'NoneType' object has no attribute 'send'"). eexists. repeat split; auto.
Qed.

Lemma live_or_not w :
  (∃ s, live w s) ∨ unavailable w ∨
  (connected (unity_bridge w) = true ∧ socket (unity_bridge w) = None).
Proof.
  unfold live, unavailable.
  destruct (connected (unity_bridge w)) eqn:Hc.
  - destruct (socket (unity_bridge w)) as [s |] eqn:Hs; eauto 6.
  - destruct (network w) as [| [msg | s] rest] eqn:Hn; eauto 8;
      right; left; (split; [reflexivity | intros; discriminate]).
Qed.

(** Every call of [send_command] returns or raises at once (its awaits
    never yield), touches neither the store nor the dicts, and shows one of
    the behaviours of [command_beh]. *)
Lemma send_command_cases c ps w :
  (∃ v evs w', send_command c ps w = Done v evs w' ∧ command_beh c ps evs (ODone v) ∧
               heap w' = heap w ∧ prototypes_db w' = prototypes_db w) ∨
  (∃ e evs w', send_command c ps w = Raised e evs w' ∧ command_beh c ps evs (ORaised e) ∧
               heap w' = heap w ∧ prototypes_db w' = prototypes_db w).
Proof.
  destruct (live_or_not w) as [[s Hl] | [Hu | [Hc Hs]]].
  - pose proof (send_command_live c ps w s Hl) as H.
    destruct (exchange s) as [cause | v].
    + destruct H as (pre & sent & w' & E & Hpre & Hsent & Hh & Hd & _).
      right. eexists _, _, w'. split; [exact E |]. split; [| auto].
      apply cb_error; assumption.
    + destruct H as (pre & w' & E & Hpre & Hh & Hd & _).
      left. eexists _, _, w'. split; [exact E |]. split; [| auto].
      apply cb_return; assumption.
  - destruct (send_command_unavailable c ps w Hu) as (w' & E & Hh & Hd & _).
    right. eexists _, _, w'. split; [exact E |]. split; [| auto]. apply cb_unavailable.
  - destruct (send_command_no_socket c ps w Hc Hs) as (cause & w' & E & Hh & Hd).
    right. eexists _, _, w'. split; [exact E |]. split; [| auto].
    apply (cb_error c ps [] [] cause); auto.
Qed.

Lemma sat_send_command j c ps p (B : list Event -> Obs Json -> Prop) :
  (∀ evs o, command_beh c ps evs o -> B evs o) -> sat j (send_command c ps) p B.
Proof.
  intros HB w0 acc w P Hfr Hh HP.
  destruct (send_command_cases c ps w) as
    [(v & evs & w' & E & Hb & Hh' & Hd') | (e & evs & w' & E & Hb & Hh' & Hd')];
    rewrite E; cbn [wp];
    (apply HP; [apply HB, Hb | apply (frame_same_store j w0 w); assumption |]);
    rewrite (replay_bridge j p evs (command_beh_bridge _ _ _ _ Hb)), Hh'; exact Hh.
Qed.

(** ** Derived rules, one per statement form *)

Section Rules.

Variable j : nat.

Lemma sat_bind_mutate {B} e (f : unit -> Coro B) p (B2 : list Event -> Obs B -> Prop) :
  sat j (f tt) (apply_job e p) (fun evs2 o => B2 (EvJob j e :: evs2) o) ->
  sat j (bind (mutate j e) f) p B2.
Proof.
  intros H. apply sat_bind with (B1 := fun evs o => evs = [EvJob j e] ∧ o = ODone tt).
  - apply sat_mutate. auto.
  - intros [] evs1 [-> _]. rewrite replay_job. exact H.
  - intros e' evs [_ ?]. discriminate.
  - intros evs [_ ?]. discriminate.
Qed.

Lemma sat_bind_log {B} msg (f : unit -> Coro B) p (B2 : list Event -> Obs B -> Prop) :
  (∀ t, sat j (f tt) (apply_job (AppendLog (log_line t msg)) p)
          (fun evs2 o => B2 (EvJob j (AppendLog (log_line t msg)) :: evs2) o)) ->
  sat j (bind (log j msg) f) p B2.
Proof.
  intros H.
  apply sat_bind with
    (B1 := fun evs o => ∃ t, evs = [EvJob j (AppendLog (log_line t msg))] ∧ o = ODone tt).
  - apply sat_log. eauto.
  - intros [] evs1 [t [-> _]]. rewrite replay_job. apply H.
  - intros e' evs [t [_ ?]]. discriminate.
  - intros evs [t [_ ?]]. discriminate.
Qed.

Lemma sat_bind_getitem {A B} (key : Prototype -> A) (f : A -> Coro B) p
  (B2 : list Event -> Obs B -> Prop) :
  sat j (f (key p)) p B2 -> sat j (bind (getitem j key) f) p B2.
Proof.
  intros H. apply sat_bind with (B1 := fun evs o => evs = [] ∧ o = ODone (key p)).
  - apply sat_getitem. auto.
  - intros a evs1 [-> E]. injection E as ->. exact H.
  - intros e' evs [_ ?]. discriminate.
  - intros evs [_ ?]. discriminate.
Qed.

Lemma sat_bind_now {B} (f : nat -> Coro B) p (B2 : list Event -> Obs B -> Prop) :
  (∀ t, sat j (f t) p B2) -> sat j (bind now f) p B2.
Proof.
  intros H. apply sat_bind with (B1 := fun evs o => evs = [] ∧ ∃ t, o = ODone t).
  - apply sat_now. eauto.
  - intros t evs1 [-> _]. apply H.
  - intros e' evs [_ [t ?]]. discriminate.
  - intros evs [_ [t ?]]. discriminate.
Qed.

Lemma sat_bind_sleep {B} (f : unit -> Coro B) p (B2 : list Event -> Obs B -> Prop) :
  B2 [] OPaused -> sat j (f tt) p B2 -> sat j (bind sleep f) p B2.
Proof.
  intros HP H.
  apply sat_bind with (B1 := fun evs o => evs = [] ∧ (o = OPaused ∨ o = ODone tt)).
  - apply sat_sleep; auto.
  - intros [] evs1 [-> _]. exact H.
  - intros e' evs [_ [? | ?]]; discriminate.
  - intros evs [-> _]. exact HP.
Qed.

Lemma sat_bind_connect {B} (f : bool -> Coro B) p (B2 : list Event -> Obs B -> Prop) :
  (∀ ok, sat j (f ok) p (fun evs2 o => B2 (EvConnect ok :: evs2) o)) ->
  sat j (bind connect f) p B2.
Proof.
  intros H.
  apply sat_bind with (B1 := fun evs o => ∃ ok, evs = [EvConnect ok] ∧ o = ODone ok).
  - apply sat_connect. eauto.
  - intros ok evs1 [ok' [-> E]]. injection E as <-. apply H.
  - intros e' evs [ok [_ ?]]. discriminate.
  - intros evs [ok [_ ?]]. discriminate.
Qed.

Lemma sat_bind_send {B} c ps (f : Json -> Coro B) p (B2 : list Event -> Obs B -> Prop) :
  (∀ v cevs, command_beh c ps cevs (ODone v) ->
     sat j (f v) p (fun evs2 o => B2 (cevs ++ evs2) o)) ->
  (∀ e cevs, command_beh c ps cevs (ORaised e) -> B2 cevs (ORaised e)) ->
  sat j (bind (send_command c ps) f) p B2.
Proof.
  intros H He. apply sat_bind with (B1 := command_beh c ps).
  - apply sat_send_command. auto.
  - intros v evs1 Hb. rewrite (replay_bridge j p evs1 (command_beh_bridge _ _ _ _ Hb)).
    apply H, Hb.
  - intros e evs Hb. apply He, Hb.
  - intros evs Hb. inversion Hb.
Qed.

End Rules.

(** ** The generation engine *)

Section Engine.

Variable j : nat.
Variable p : Prototype.
Variable total : Z.

Lemma import_beh_skip k key rest evs o :
  SYSTEM_TEMPLATES !! key = None ->
  import_beh j p total (k + 1) rest evs o ->
  import_beh j p total k (key :: rest) (EvJob j (SetProgress (py_percent (k + 1) total)) :: evs) o.
Proof.
  intros Hk H.
  assert (Hr : step_request p (StepSystem key) = None) by (simpl; rewrite Hk; reflexivity).
  destruct o as [k' | e |]; simpl in *.
  - destruct H as [-> H]. split; [unfold len; simpl; lia |].
    apply (sb_skip j p total k (StepSystem key) _ _ _ Hr H).
  - apply (sb_skip j p total k (StepSystem key) _ _ _ Hr H).
  - apply (sb_skip j p total k (StepSystem key) _ _ _ Hr H).
Qed.

Lemma import_beh_command k key template rest t cevs v evs o :
  SYSTEM_TEMPLATES !! key = Some template ->
  command_beh "ImportVaultSystem" (import_params key template p) cevs (ODone v) ->
  import_beh j p total (k + 1) rest evs o ->
  import_beh j p total k (key :: rest)
    (EvJob j (AppendLog (log_line t (template_name template +:+ " ekleniyor..."))) :: cevs ++
     EvJob j (SetProgress (py_percent (k + 1) total)) :: evs) o.
Proof.
  intros Hk Hc H.
  assert (Hr : step_request p (StepSystem key) =
               Some (template_name template +:+ " ekleniyor...", "ImportVaultSystem",
                     import_params key template p)) by (simpl; rewrite Hk; reflexivity).
  destruct o as [k' | e |]; simpl in *.
  - destruct H as [-> H]. split; [unfold len; simpl; lia |].
    apply (sb_command j p total k (StepSystem key) _ _ _ _ t _ v _ _ Hr Hc H).
  - apply (sb_command j p total k (StepSystem key) _ _ _ _ t _ v _ _ Hr Hc H).
  - apply (sb_command j p total k (StepSystem key) _ _ _ _ t _ v _ _ Hr Hc H).
Qed.

Lemma sat_import_systems requested :
  ∀ k p' (B : list Event -> Obs Z -> Prop),
    same_request p p' ->
    (∀ evs o, import_beh j p total k requested evs o -> B evs o) ->
    sat j (import_systems j total requested k) p' B.
Proof.
  induction requested as [| key rest IH]; intros k p' B Hsame HB.
  - cbn [import_systems]. apply sat_ret. apply HB. simpl.
    split; [unfold len; simpl; lia | constructor].
  - cbn [import_systems]. destruct (SYSTEM_TEMPLATES !! key) as [template |] eqn:Hk.
    + set (msg := template_name template +:+ " ekleniyor...").
      apply sat_bind with
        (B1 := fun evs o =>
                 ∃ t cevs, evs = EvJob j (AppendLog (log_line t msg)) :: cevs ∧
                   ((∃ v, command_beh "ImportVaultSystem" (import_params key template p) cevs
                            (ODone v) ∧ (o = OPaused ∨ o = ODone tt)) ∨
                    (∃ e, command_beh "ImportVaultSystem" (import_params key template p) cevs
                            (ORaised e) ∧ o = ORaised e))).
      * apply sat_bind_log. intros t. apply sat_bind_getitem.
        assert (Hps : import_params key template (apply_job (AppendLog (log_line t msg)) p')
                      = import_params key template p).
        { unfold import_params. simpl. destruct Hsame as (-> & _). reflexivity. }
        rewrite Hps. apply sat_bind_send.
        -- intros v cevs Hc. apply sat_sleep.
           ++ exists t, cevs. rewrite app_nil_r. split; [reflexivity |]. left. eauto.
           ++ exists t, cevs. rewrite app_nil_r. split; [reflexivity |]. left. eauto.
        -- intros e cevs Hc. exists t, cevs. split; [reflexivity |]. right. eauto.
      * intros [] evs1 (t & cevs & -> & [(v & Hc & _) | (e & _ & ?)]); [| discriminate].
        apply sat_bind_mutate. apply IH.
        -- apply same_request_apply, same_request_replay, Hsame.
        -- intros evs o H. apply HB. cbn [app].
           apply (import_beh_command k key template rest t cevs v evs o Hk Hc H).
      * intros e evs (t & cevs & -> & [(v & _ & [? | ?]) | (e' & Hc & E)]); try discriminate.
        injection E as <-. apply HB. simpl.
        eapply sb_failed; [simpl; rewrite Hk; reflexivity | exact Hc].
      * intros evs (t & cevs & -> & [(v & Hc & _) | (e' & _ & ?)]); [| discriminate].
        apply HB. simpl.
        eapply sb_sleeping; [simpl; rewrite Hk; reflexivity | exact I | exact Hc].
    + apply sat_bind with (B1 := fun evs o => evs = [] ∧ o = ODone tt).
      * apply sat_ret. auto.
      * intros [] evs1 [-> _]. apply sat_bind_mutate. apply IH.
        -- apply same_request_apply, Hsame.
        -- intros evs o H. apply HB. cbn [app].
           apply (import_beh_skip k key rest evs o Hk H).
      * intros e evs [_ ?]. discriminate.
      * intros evs [_ ?]. discriminate.
Qed.

End Engine.

Section Runs.

Variable j : nat.
Variable p : Prototype.

Local Abbreviation total := (len (systems p) + 3)%Z.

Lemma steps_beh_app_done k s1 evs1 s2 evs2 (o : Obs unit) :
  steps_beh j p total k s1 evs1 (ODone tt) ->
  steps_beh j p total (k + len s1) s2 evs2 o ->
  steps_beh j p total k (s1 ++ s2) (evs1 ++ evs2) o.
Proof.
  intros H. remember (ODone tt) as o1 eqn:Ho1. revert Ho1.
  induction H as [k | k st rest evs o' Hr _ IH | k st rest msg c ps t cevs v evs o' Hr Hc _ IH
                 | k st rest msg c ps t cevs v Hr Hs Hc | k st rest msg c ps t cevs e Hr Hc];
    intros Ho1 H2; try discriminate.
  - replace (k + len [])%Z with k in H2 by (unfold len; simpl; lia). exact H2.
  - cbn [app]. apply sb_skip; [exact Hr |]. apply IH; [exact Ho1 |].
    replace (k + 1 + len rest)%Z with (k + len (st :: rest))%Z
      by (unfold len; simpl length; lia).
    exact H2.
  - cbn [app]. rewrite <- app_assoc. cbn [app].
    apply (sb_command j p total k st _ msg c ps t cevs v _ _ Hr Hc). apply IH; [exact Ho1 |].
    replace (k + 1 + len rest)%Z with (k + len (st :: rest))%Z
      by (unfold len; simpl length; lia).
    exact H2.
Qed.

Lemma steps_beh_app_stop k s1 evs s2 (o : Obs unit) :
  steps_beh j p total k s1 evs o -> o ≠ ODone tt ->
  steps_beh j p total k (s1 ++ s2) evs o.
Proof.
  induction 1 as [k | k st rest evs o' Hr _ IH | k st rest msg c ps t cevs v evs o' Hr Hc _ IH
                 | k st rest msg c ps t cevs v Hr Hs Hc | k st rest msg c ps t cevs e Hr Hc];
    intros Ho.
  - contradiction.
  - cbn [app]. apply sb_skip; [exact Hr | apply IH, Ho].
  - cbn [app]. apply (sb_command j p total k st _ msg c ps t cevs v _ _ Hr Hc). apply IH, Ho.
  - cbn [app]. apply (sb_sleeping j p total k st _ msg c ps t cevs v Hr Hs Hc).
  - cbn [app]. apply (sb_failed j p total k st _ msg c ps t cevs e Hr Hc).
Qed.

(** *** The simulated path *)

Lemma steps_of_lookup n st :
  steps_of (systems p) !! n = Some st ->
  (n = 0%nat ∧ st = StepScene) ∨
  (∃ key, (1 <= n <= length (systems p))%nat ∧ systems p !! (n - 1)%nat = Some key ∧
          st = StepSystem key) ∨
  (n = S (length (systems p)) ∧ st = StepPlayer) ∨
  (n = S (S (length (systems p))) ∧ st = StepUI).
Proof.
  unfold steps_of. destruct n as [| m]; simpl.
  - intros [= <-]. auto.
  - intros H. destruct (decide (m < length (systems p))%nat) as [Hlt | Hge].
    + rewrite lookup_app_l in H by (rewrite length_fmap; exact Hlt).
      rewrite list_lookup_fmap in H. destruct (systems p !! m) as [key |] eqn:E; [| discriminate].
      injection H as <-. right. left. exists key.
      replace (m - 0)%nat with m by lia. repeat split; [lia | lia | exact E].
    + rewrite lookup_app_r in H by (rewrite length_fmap; lia).
      rewrite length_fmap in H.
      destruct (m - length (systems p))%nat as [| [| r]] eqn:E; simpl in H.
      * injection H as <-. right. right. left. split; [lia | reflexivity].
      * injection H as <-. right. right. right. split; [lia | reflexivity].
      * discriminate.
Qed.

Lemma sat_simulate_step n st p' (B : list Event -> Obs unit -> Prop) :
  same_request p p' ->
  steps_of (systems p) !! n = Some st ->
  B [] OPaused ->
  (∀ t, B [EvJob j (SetProgress (py_percent (Z.of_nat n + 1) total));
           EvJob j (AppendLog (log_line t (sim_msg st)))] (ODone tt)) ->
  sat j (simulate_step j total (Z.of_nat n)) p' B.
Proof.
  intros Hsame Hst HP HD. unfold simulate_step.
  apply sat_bind_sleep; [exact HP |]. apply sat_bind_mutate. apply sat_bind_getitem.
  assert (Hsys : systems (apply_job (SetProgress (py_percent (Z.of_nat n + 1) total)) p')
                 = systems p) by (simpl; apply Hsame).
  rewrite Hsys. unfold len.
  destruct (steps_of_lookup n st Hst) as
    [[-> ->] | [(key & Hn & Hkey & ->) | [[-> ->] | [-> ->]]]].
  - simpl (Z.of_nat 0 =? 0)%Z. cbn iota. apply sat_log. intros t. apply (HD t).
  - destruct (Z.eqb_spec (Z.of_nat n) 0) as [E | _]; [lia |].
    destruct (Z.ltb_spec (Z.of_nat n) (Z.of_nat (length (systems p)) + 1)) as [_ | E]; [| lia].
    destruct (Z.ltb_spec (Z.of_nat n - 1) (Z.of_nat (length (systems p)))) as [_ | E]; [| lia].
    replace (Z.to_nat (Z.of_nat n - 1)) with (n - 1)%nat by lia. rewrite Hkey.
    apply sat_log. intros t. apply (HD t).
  - destruct (Z.eqb_spec (Z.of_nat (S (length (systems p)))) 0) as [E | _]; [lia |].
    destruct (Z.ltb_spec (Z.of_nat (S (length (systems p)))) (Z.of_nat (length (systems p)) + 1))
      as [E | _]; [lia |].
    destruct (Z.eqb_spec (Z.of_nat (S (length (systems p))))
                (Z.of_nat (length (systems p)) + 3 - 2)) as [_ | E]; [| lia].
    apply sat_log. intros t. apply (HD t).
  - destruct (Z.eqb_spec (Z.of_nat (S (S (length (systems p))))) 0) as [E | _]; [lia |].
    destruct (Z.ltb_spec (Z.of_nat (S (S (length (systems p)))))
                (Z.of_nat (length (systems p)) + 1)) as [E | _]; [lia |].
    destruct (Z.eqb_spec (Z.of_nat (S (S (length (systems p)))))
                (Z.of_nat (length (systems p)) + 3 - 2)) as [E | _]; [lia |].
    apply sat_log. intros t. apply (HD t).
Qed.

Lemma sat_simulate_loop sts :
  ∀ n p' (B : list Event -> Obs unit -> Prop),
    same_request p p' ->
    (∀ i st, sts !! i = Some st -> steps_of (systems p) !! (n + i)%nat = Some st) ->
    (∀ evs o, sim_beh j total (Z.of_nat n) sts evs o -> B evs o) ->
    sat j (simulate_loop j total (Z.of_nat <$> seq n (length sts))) p' B.
Proof.
  induction sts as [| st rest IH]; intros n p' B Hsame Hsts HB.
  - simpl. apply sat_ret. apply HB. constructor.
  - cbn [length seq fmap list_fmap simulate_loop].
    apply sat_bind with
      (B1 := fun evs o =>
               (evs = [] ∧ o = OPaused) ∨
               (∃ t, evs = [EvJob j (SetProgress (py_percent (Z.of_nat n + 1) total));
                            EvJob j (AppendLog (log_line t (sim_msg st)))] ∧ o = ODone tt)).
    + apply sat_simulate_step with (st := st); [exact Hsame | | auto | eauto].
      specialize (Hsts 0%nat st eq_refl). rewrite Nat.add_0_r in Hsts. exact Hsts.
    + intros [] evs1 [[_ ?] | [t [-> _]]]; [discriminate |].
      apply IH.
      * apply same_request_replay, Hsame.
      * intros i st' Hi. specialize (Hsts (S i) st' Hi).
        replace (S n + i)%nat with (n + S i)%nat by lia. exact Hsts.
      * intros evs o H. apply HB. cbn [app]. apply sim_step.
        replace (Z.of_nat n + 1)%Z with (Z.of_nat (S n)) by lia. exact H.
    + intros e evs [[_ ?] | [t [_ ?]]]; discriminate.
    + intros evs [[-> _] | [t [_ ?]]]; [| discriminate]. apply HB. constructor.
Qed.

Lemma range_steps : range total = Z.of_nat <$> seq 0 (length (steps_of (systems p))).
Proof.
  unfold range, steps_of, len. simpl length. rewrite length_app, length_fmap. simpl length.
  f_equal. f_equal. lia.
Qed.

Lemma sim_beh_no_raise i sts evs e : sim_beh j total i sts evs (ORaised e) -> False.
Proof.
  intros H. remember (ORaised e) as o eqn:Ho. revert Ho.
  induction H; intros Ho; try discriminate. auto.
Qed.

Lemma sat_simulate_generation p' (B : list Event -> Obs unit -> Prop) :
  same_request p p' ->
  (∀ evs o, simulated_beh j p evs o -> B evs o) ->
  sat j (simulate_generation j) p' B.
Proof.
  intros Hsame HB. unfold simulate_generation. apply sat_bind_getitem.
  destruct Hsame as (Hn & Hg & Hs). rewrite Hs, range_steps.
  apply sat_bind with (B1 := sim_beh j total (Z.of_nat 0) (steps_of (systems p))).
  - apply sat_simulate_loop; [repeat split; assumption | intros i st H; exact H | auto].
  - intros [] evs1 H1. apply sat_bind_mutate. apply sat_bind_now. intros t.
    apply sat_bind_mutate. apply sat_log. intros t'. apply HB. simpl.
    exists evs1, [EvJob j (SetStatus "completed"); EvJob j (SetCompletedAt (isoformat t));
                  EvJob j (AppendLog (log_line t' "Tamamlandi (simule)!"))].
    split; [reflexivity |]. split; [exact H1 |]. exists t, t'. reflexivity.
  - intros e evs H. destruct (sim_beh_no_raise _ _ _ _ H).
  - intros evs H. apply HB. exact H.
Qed.

Lemma steps_tail k t1 c1 v1 t2 c2 v2 :
  command_beh "SetupPlayer" (player_params p) c1 (ODone v1) ->
  command_beh "SetupGameUI" (ui_params p) c2 (ODone v2) ->
  steps_beh j p total k [StepPlayer; StepUI]
    (EvJob j (AppendLog (log_line t1 "Player olusturuluyor...")) :: c1 ++
     EvJob j (SetProgress (py_percent (k + 1) total)) ::
     EvJob j (AppendLog (log_line t2 "UI olusturuluyor...")) :: c2 ++
     [EvJob j (SetProgress 100)]) (ODone tt).
Proof.
  intros H1 H2.
  apply (sb_command j p total k StepPlayer _ _ _ _ t1 c1 v1 _ _ eq_refl H1).
  apply (sb_command j p total (k + 1) StepUI _ _ _ _ t2 c2 v2 _ _ eq_refl H2).
  constructor.
Qed.

Lemma sat_generate_body p' (B : list Event -> Obs unit -> Prop) :
  same_request p p' ->
  (∀ evs o, body_beh j p evs o -> B evs o) ->
  sat j (generate_body j) p' B.
Proof.
  intros Hsame HB. unfold generate_body. apply sat_bind_connect. intros [|]; cbn [negb].
  2:{ apply sat_simulate_generation; [exact Hsame |].
      intros evs o H. apply HB. right. eauto. }
  apply sat_bind_getitem. destruct (Hsame) as (Hn & Hg & Hs). rewrite Hs.
  assert (Hsteps : ∀ evs (o : Obs unit), bridge_beh j p evs o -> B (EvConnect true :: evs) o).
  { intros evs o H. apply HB. left. eauto. }
  clear HB. unfold steps_of in *.
  apply sat_bind_log. intros t0. apply sat_bind_send.
  2:{ intros e cevs Hc. apply Hsteps. simpl.
      apply (sb_failed j p total 0 StepScene _ _ _ _ t0 cevs e eq_refl Hc). }
  intros v0 c0 Hc0. apply sat_bind_mutate. apply sat_bind_getitem.
  change (systems (apply_job (SetProgress (py_percent (0 + 1) (len (systems p) + 3)))
                     (apply_job (AppendLog (log_line t0 "Scene olusturuluyor...")) p')))
    with (systems p').
  rewrite Hs.
  set (scene evs := EvJob j (AppendLog (log_line t0 "Scene olusturuluyor...")) :: c0 ++
                    EvJob j (SetProgress (py_percent (0 + 1) total)) :: evs).
  assert (Hscene : ∀ evs (o : Obs unit),
             steps_beh j p total (0 + 1) ((StepSystem <$> systems p) ++ [StepPlayer; StepUI])
               evs o ->
             steps_beh j p total 0 (StepScene :: (StepSystem <$> systems p) ++ [StepPlayer; StepUI])
               (scene evs) o).
  { intros evs o H. apply (sb_command j p total 0 StepScene _ _ _ _ t0 c0 v0 _ _ eq_refl Hc0 H). }
  apply sat_bind with (B1 := import_beh j p total (0 + 1) (systems p)).
  { apply (sat_import_systems j p); [| auto].
    apply same_request_apply, same_request_apply. repeat split; assumption. }
  2:{ intros e evs H. cbn [app]. rewrite <- ?app_assoc. cbn [app]. apply Hsteps. simpl.
      apply Hscene. apply steps_beh_app_stop; [exact H | discriminate]. }
  2:{ intros evs H. cbn [app]. rewrite <- ?app_assoc. cbn [app]. apply Hsteps. simpl.
      apply Hscene. apply steps_beh_app_stop; [exact H | discriminate]. }
  intros k ievs [-> Hi].
  assert (Hlen : (0 + 1 + len (StepSystem <$> systems p))%Z = (0 + 1 + len (systems p))%Z).
  { unfold len. rewrite length_fmap. reflexivity. }
  assert (Hsame2 : same_request p
            (replay j (apply_job (SetProgress (py_percent (0 + 1) total))
                         (apply_job (AppendLog (log_line t0 "Scene olusturuluyor...")) p')) ievs)).
  { apply same_request_replay, same_request_apply, same_request_apply.
    repeat split; assumption. }
  apply sat_bind_log. intros t1. apply sat_bind_getitem.
  assert (Hpp : ∀ q, same_request p q -> player_params q = player_params p).
  { intros q (_ & Hg' & Hs'). unfold player_params. rewrite Hg', Hs'. reflexivity. }
  assert (Hup : ∀ q, same_request p q -> ui_params q = ui_params p).
  { intros q (_ & _ & Hs'). unfold ui_params. rewrite Hs'. reflexivity. }
  rewrite (Hpp _ (same_request_apply _ _ _ Hsame2)).
  apply sat_bind_send.
  2:{ intros e cevs Hc. cbn [app]. rewrite <- ?app_assoc. cbn [app]. apply Hsteps. simpl.
      apply Hscene. apply steps_beh_app_done; [exact Hi |]. rewrite Hlen.
      apply (sb_failed j p total _ StepPlayer _ _ _ _ t1 cevs e eq_refl Hc). }
  intros v1 c1 Hc1. apply sat_bind_mutate. apply sat_bind_log. intros t2.
  apply sat_bind_getitem.
  rewrite (Hup _ (same_request_apply _ _ _ (same_request_apply _ _ _
                    (same_request_apply _ _ _ Hsame2)))).
  apply sat_bind_send.
  2:{ intros e cevs Hc. cbn [app]. rewrite <- ?app_assoc. cbn [app]. apply Hsteps. simpl.
      apply Hscene. apply steps_beh_app_done; [exact Hi |]. rewrite Hlen.
      apply (sb_command j p total _ StepPlayer _ _ _ _ t1 c1 v1 _ _ eq_refl Hc1).
      apply (sb_failed j p total _ StepUI _ _ _ _ t2 cevs e eq_refl Hc). }
  intros v2 c2 Hc2. apply sat_bind_mutate. apply sat_bind_mutate. apply sat_bind_now.
  intros t3. apply sat_bind_mutate. apply sat_log. intros t4.
  cbn [app]. rewrite <- ?app_assoc. cbn [app]. apply Hsteps. simpl.
  exists (scene (ievs ++
            EvJob j (AppendLog (log_line t1 "Player olusturuluyor...")) :: c1 ++
            EvJob j (SetProgress (py_percent (0 + 1 + len (systems p) + 1) total)) ::
            EvJob j (AppendLog (log_line t2 "UI olusturuluyor...")) :: c2 ++
            [EvJob j (SetProgress 100)])),
    [EvJob j (SetStatus "completed"); EvJob j (SetCompletedAt (isoformat t3));
     EvJob j (AppendLog (log_line t4 "Tamamlandi!"))].
  split; [| split].
  - unfold scene. repeat (rewrite <- app_assoc || rewrite <- app_comm_cons). reflexivity.
  - apply Hscene. apply steps_beh_app_done; [exact Hi |]. rewrite Hlen.
    apply (steps_tail _ t1 c1 v1 t2 c2 v2 Hc1 Hc2).
  - exists t3, t4. reflexivity.
Qed.

(** The master lemma: every block of [generate_prototype], run for the job
    it owns among other tasks, keeps the frame and extends a behaviour of
    [generate_beh]; the dict is its events replayed. *)
Lemma generate_prototype_wp prototype_id w0 acc w P :
  prototypes_db w !! prototype_id = Some j ->
  frame j w0 w ->
  heap w !! j = Some p ->
  (∀ o evs w0' w',
      generate_beh j p evs o -> frame j w0' w' -> heap w' !! j = Some (replay j p evs) ->
      P o w0' (acc ++ evs) w') ->
  wp j (generate_prototype prototype_id w) w0 acc P.
Proof.
  intros Hdb Hfr Hh HP. unfold generate_prototype.
  unfold bind at 1. unfold db_getitem. rewrite Hdb. cbn [bind_res]. apply wp_prepend.
  rewrite app_nil_r. clear Hdb. revert w0 acc w P Hfr Hh HP.
  change (sat j
            (run mutate j (SetStatus "generating") ;
             run log j "Basladi" ;
             try_except (generate_body j)
               (fun e => run mutate j (SetStatus "failed") ; log j ("HATA: " +:+ str e)))
            p (generate_beh j p)).
  apply sat_bind_mutate. apply sat_bind_log. intros t.
  assert (Hpre : prelude j [EvJob j (SetStatus "generating");
                            EvJob j (AppendLog (log_line t "Basladi"))])
    by (exists t; reflexivity).
  apply sat_try with (B1 := body_beh j p).
  - apply sat_generate_body; [| auto].
    apply same_request_apply, same_request_apply, same_request_refl.
  - intros e evs1 [(evs' & -> & H) | (evs' & -> & [])]. simpl in H.
    apply sat_bind_mutate. apply sat_log. intros t'. cbn [app].
    apply (gb_bridge_failed j p [_; _] evs' e
             [EvJob j (SetStatus "failed");
              EvJob j (AppendLog (log_line t' ("HATA: " +:+ str e)))] Hpre H).
    exists t'. reflexivity.
  - intros [] evs [(evs' & -> & (sevs & fin & -> & H & Hfin)) | (evs' & -> & (sevs & fin & -> & H & Hfin))].
    + apply (gb_bridge_done j p [_; _] sevs fin Hpre H Hfin).
    + apply (gb_sim_done j p [_; _] sevs fin Hpre H Hfin).
  - intros evs [(evs' & -> & H) | (evs' & -> & H)].
    + apply (gb_bridge_paused j p [_; _] evs' Hpre H).
    + apply (gb_sim_paused j p [_; _] evs' Hpre H).
Qed.

End Runs.

(** ** Histories: projections and replay *)

Section Histories.

Variable j : nat.

Lemma job_events_app evs1 evs2 :
  job_events j (evs1 ++ evs2) = job_events j evs1 ++ job_events j evs2.
Proof. apply omap_app. Qed.

Lemma job_events_cons_job e evs : job_events j (EvJob j e :: evs) = e :: job_events j evs.
Proof. unfold job_events. simpl. destruct (decide (j = j)); [reflexivity | contradiction]. Qed.

Lemma job_events_bridge evs : Forall bridge_event evs -> job_events j evs = [].
Proof.
  induction 1 as [| e evs He _ IH]; [reflexivity |].
  unfold job_events in *. simpl. destruct e; simpl in He; try contradiction; exact IH.
Qed.

Lemma progress_values_app evs1 evs2 :
  progress_values j (evs1 ++ evs2) = progress_values j evs1 ++ progress_values j evs2.
Proof. unfold progress_values. rewrite job_events_app. apply omap_app. Qed.

Lemma log_lines_app evs1 evs2 :
  log_lines j (evs1 ++ evs2) = log_lines j evs1 ++ log_lines j evs2.
Proof. unfold log_lines. rewrite job_events_app. apply omap_app. Qed.

Lemma statuses_app evs1 evs2 :
  statuses j (evs1 ++ evs2) = statuses j evs1 ++ statuses j evs2.
Proof. unfold statuses. rewrite job_events_app. apply omap_app. Qed.

Lemma completions_app evs1 evs2 :
  completions j (evs1 ++ evs2) = completions j evs1 ++ completions j evs2.
Proof. unfold completions. rewrite job_events_app. apply omap_app. Qed.

Lemma sent_commands_app evs1 evs2 :
  sent_commands (evs1 ++ evs2) = sent_commands evs1 ++ sent_commands evs2.
Proof. apply omap_app. Qed.

Lemma raised_commands_app evs1 evs2 :
  raised_commands (evs1 ++ evs2) = raised_commands evs1 ++ raised_commands evs2.
Proof. apply omap_app. Qed.

Lemma replay_job_events p evs :
  replay j p evs = foldl (fun p e => apply_job e p) p (job_events j evs).
Proof.
  revert p. induction evs as [| e evs IH]; intros p; [reflexivity |].
  unfold replay, job_events in *. simpl.
  destruct e as [j' je | | | |]; simpl; try apply IH.
  destruct (decide (j' = j)); simpl; apply IH.
Qed.

Lemma replay_logs p evs : logs (replay j p evs) = logs p ++ log_lines j evs.
Proof.
  rewrite replay_job_events. unfold log_lines. generalize (job_events j evs) as l.
  intros l. revert p. induction l as [| e l IH]; intros p; simpl.
  - rewrite app_nil_r. reflexivity.
  - rewrite IH. destruct e; simpl; try reflexivity. rewrite <- app_assoc. reflexivity.
Qed.

Lemma replay_progress p evs :
  progress (replay j p evs) = default (progress p) (last (progress_values j evs)).
Proof.
  rewrite replay_job_events. unfold progress_values. generalize (job_events j evs) as l.
  intros l. induction l as [| e l IH] using rev_ind; [reflexivity |].
  rewrite foldl_snoc, omap_app. destruct e; simpl; rewrite ?app_nil_r; try exact IH.
  rewrite last_snoc. reflexivity.
Qed.

Lemma replay_status p evs :
  status (replay j p evs) = default (status p) (last (statuses j evs)).
Proof.
  rewrite replay_job_events. unfold statuses. generalize (job_events j evs) as l.
  intros l. induction l as [| e l IH] using rev_ind; [reflexivity |].
  rewrite foldl_snoc, omap_app. destruct e; simpl; rewrite ?app_nil_r; try exact IH.
  rewrite last_snoc. reflexivity.
Qed.

Lemma replay_completedAt p evs :
  completedAt (replay j p evs) =
  match last (completions j evs) with
  | Some t => Some t
  | None => completedAt p
  end.
Proof.
  rewrite replay_job_events. unfold completions. generalize (job_events j evs) as l.
  intros l. induction l as [| e l IH] using rev_ind; [reflexivity |].
  rewrite foldl_snoc, omap_app. destruct e; simpl; rewrite ?app_nil_r; try exact IH.
  rewrite last_snoc. reflexivity.
Qed.

(** *** What a [send_command] call leaves in a history *)

Lemma command_beh_job_events c ps evs (o : Obs Json) :
  command_beh c ps evs o -> job_events j evs = [].
Proof. intros H. apply job_events_bridge, (command_beh_bridge _ _ _ _ H). Qed.

Lemma command_beh_sent c ps evs (o : Obs Json) :
  command_beh c ps evs o -> sent_commands evs = [] ∨ sent_commands evs = [(c, ps)].
Proof.
  destruct 1 as [pre value [-> | ->] | | pre sent cause [-> | ->] [-> | ->]]; simpl; auto.
Qed.

Lemma command_beh_sent_done c ps evs v :
  command_beh c ps evs (ODone v) -> sent_commands evs = [(c, ps)].
Proof.
  intros H. inversion H as [pre value [-> | ->] | |]; subst; reflexivity.
Qed.

Lemma command_beh_raised_done c ps evs v :
  command_beh c ps evs (ODone v) -> raised_commands evs = [].
Proof.
  intros H. inversion H as [pre value [-> | ->] | |]; subst; reflexivity.
Qed.

Lemma command_beh_raised c ps evs e :
  command_beh c ps evs (ORaised e) ->
  ∃ pre, evs = pre ++ [EvRaise c e] ∧ raised_commands pre = [] ∧
         (e = HTTPException 503 "Unity Bridge baglantisi yok" ∨
          ∃ cause, e = HTTPException 500 ("Unity komut hatasi: " +:+ str cause)).
Proof.
  intros H. inversion H as [| | pre sent cause Hpre Hsent]; subst.
  - exists [EvConnect false]. repeat split; auto.
  - exists (pre ++ sent). rewrite <- app_assoc. repeat split; [| eauto].
    destruct Hpre as [-> | ->], Hsent as [-> | ->]; reflexivity.
Qed.

End Histories.

(** ** The progress scale *)

Lemma percents_length total first n : length (percents total first n) = n.
Proof. revert first. induction n as [| n IH]; intros first; simpl; [| rewrite IH]; reflexivity. Qed.

Lemma percents_app total first n m :
  percents total first (n + m) =
  percents total first n ++ percents total (first + Z.of_nat n) m.
Proof.
  revert first. induction n as [| n IH]; intros first.
  - simpl. rewrite Z.add_0_r. reflexivity.
  - cbn [Nat.add percents app]. rewrite IH. do 3 f_equal. lia.
Qed.



Lemma percents_last total n :
  (0 < total)%Z -> Z.of_nat (S n) = total -> last (percents total 0 (S n)) = Some 100%Z.
Proof.
  intros Ht Hn. replace (S n) with (n + 1)%nat by lia. rewrite percents_app. simpl.
  rewrite last_snoc. f_equal. replace (0 + Z.of_nat n + 1)%Z with total by lia.
  apply py_percent_full, Ht.
Qed.

Lemma expected_progress_systems total k requested :
  expected_progress total k (StepSystem <$> requested) = percents total k (length requested).
Proof.
  revert k. induction requested as [| key rest IH]; intros k; simpl; [reflexivity |].
  rewrite IH. reflexivity.
Qed.

Lemma expected_progress_app total k s1 s2 :
  expected_progress total k (s1 ++ s2) =
  expected_progress total k s1 ++ expected_progress total (k + len s1) s2.
Proof.
  revert k. induction s1 as [| st s1 IH]; intros k; simpl.
  - replace (k + len [])%Z with k by (unfold len; simpl; lia). reflexivity.
  - rewrite IH. do 3 f_equal. unfold len. simpl length. lia.
Qed.

(** With [total_steps = len(systems) + 3], what the bridge-driven steps
    store is the scale [py_percent k total_steps] for [k = 1 .. total_steps]:
    the literal 100 of the last step is [py_percent total_steps total_steps]. *)
Lemma expected_progress_steps requested :
  expected_progress (len requested + 3) 0 (steps_of requested) =
  percents (len requested + 3) 0 (length requested + 3).
Proof.
  unfold steps_of. cbn [expected_progress progress_after].
  rewrite expected_progress_app, expected_progress_systems.
  replace (length requested + 3)%nat with (1 + (length requested + (1 + 1)))%nat by lia.
  rewrite (percents_app _ 0 1). cbn [percents app]. f_equal.
  rewrite (percents_app _ _ (length requested)). f_equal.
  unfold len. rewrite length_fmap. cbn [expected_progress progress_after percents Nat.add].
  replace (0 + Z.of_nat 1 + Z.of_nat (length requested))%Z
    with (0 + 1 + Z.of_nat (length requested))%Z by lia.
  f_equal. f_equal. symmetry.
  replace (0 + 1 + Z.of_nat (length requested) + 1 + 1)%Z
    with (Z.of_nat (length requested) + 3)%Z by lia.
  apply py_percent_full. lia.
Qed.

(** ** What the behaviours leave in a history *)

Section Behaviours.

Variable j : nat.
Variable p : Prototype.
Variable total : Z.

Lemma stamped_cons msg t msgs lines :
  stamped msgs lines -> stamped (msg :: msgs) (log_line t msg :: lines).
Proof. intros H. constructor; [eauto | exact H]. Qed.

Lemma stamped_app msgs1 lines1 msgs2 lines2 :
  stamped msgs1 lines1 -> stamped msgs2 lines2 -> stamped (msgs1 ++ msgs2) (lines1 ++ lines2).
Proof. apply Forall2_app. Qed.

(** The steps that ran to their end. *)
Lemma steps_beh_done k sts evs :
  steps_beh j p total k sts evs (ODone tt) ->
  progress_values j evs = expected_progress total k sts ∧
  stamped (omap (step_msg p) sts) (log_lines j evs) ∧
  sent_commands evs = omap (step_command p) sts ∧
  raised_commands evs = [] ∧
  statuses j evs = [] ∧
  completions j evs = [].
Proof.
  intros H. remember (ODone tt) as o eqn:Ho. revert Ho.
  induction H as [k | k st rest evs o' Hr _ IH | k st rest msg c ps t cevs v evs o' Hr Hc _ IH
                 | k st rest msg c ps t cevs v Hr Hs Hc | k st rest msg c ps t cevs e Hr Hc];
    intros Ho; try discriminate.
  - repeat split; constructor.
  - destruct (IH Ho) as (H1 & H2 & H3 & H4 & H5 & H6).
    unfold step_msg, step_command. cbn [omap list_omap expected_progress]. rewrite Hr.
    cbn [fmap option_fmap option_map].
    unfold progress_values, log_lines, statuses, completions in *.
    rewrite job_events_cons_job. cbn [omap list_omap progress_of log_of status_of].
    unfold sent_commands, raised_commands in *. cbn [omap list_omap].
    repeat split; try assumption. f_equal. exact H1.
  - destruct (IH Ho) as (H1 & H2 & H3 & H4 & H5 & H6).
    unfold step_msg, step_command. cbn [omap list_omap expected_progress]. rewrite Hr.
    cbn [fmap option_fmap option_map fst snd].
    unfold progress_values, log_lines, statuses, completions in *.
    rewrite job_events_cons_job, job_events_app, (command_beh_job_events j _ _ _ _ Hc),
      job_events_cons_job.
    cbn [omap list_omap progress_of log_of status_of app].
    change (EvJob j (AppendLog (log_line t msg)) :: cevs ++
            EvJob j (SetProgress (progress_after st (k + 1) total)) :: evs)
      with ([EvJob j (AppendLog (log_line t msg))] ++ cevs ++
            [EvJob j (SetProgress (progress_after st (k + 1) total))] ++ evs).
    rewrite !sent_commands_app, !raised_commands_app,
      (command_beh_sent_done _ _ _ _ Hc), (command_beh_raised_done _ _ _ _ Hc).
    cbn [sent_commands raised_commands omap list_omap app].
    repeat split; try assumption.
    + f_equal. exact H1.
    + apply stamped_cons. exact H2.
    + f_equal. exact H3.
Qed.

(** The steps cut short by a command that raised: [m] steps were done, the
    next one logged its line and its command failed. *)
Lemma steps_beh_raised k sts evs e :
  steps_beh j p total k sts evs (ORaised e) ->
  ∃ m st msg c ps done t cevs,
    sts !! m = Some st ∧ step_request p st = Some (msg, c, ps) ∧
    evs = done ++ EvJob j (AppendLog (log_line t msg)) :: cevs ∧
    steps_beh j p total k (take m sts) done (ODone tt) ∧
    command_beh c ps cevs (ORaised e).
Proof.
  intros H. remember (ORaised e) as o eqn:Ho. revert Ho.
  induction H as [k | k st rest evs o' Hr _ IH | k st rest msg c ps t cevs v evs o' Hr Hc _ IH
                 | k st rest msg c ps t cevs v Hr Hs Hc | k st rest msg c ps t cevs e' Hr Hc];
    intros Ho; try discriminate.
  - destruct (IH Ho) as (m & st' & msg' & c' & ps' & done & t' & cevs' & H1 & H2 & -> & H4 & H5).
    exists (S m), st', msg', c', ps', (EvJob j (SetProgress (progress_after st (k + 1) total)) :: done),
      t', cevs'.
    repeat split; try assumption. cbn [take]. apply sb_skip; assumption.
  - destruct (IH Ho) as (m & st' & msg' & c' & ps' & done & t' & cevs' & H1 & H2 & -> & H4 & H5).
    exists (S m), st', msg', c', ps',
      (EvJob j (AppendLog (log_line t msg)) :: cevs ++
       EvJob j (SetProgress (progress_after st (k + 1) total)) :: done), t', cevs'.
    repeat split; try assumption.
    + cbn [app]. rewrite <- app_assoc. reflexivity.
    + cbn [take]. apply (sb_command j p total k st _ msg c ps t cevs v _ _ Hr Hc H4).
  - injection Ho as ->.
    exists 0%nat, st, msg, c, ps, [], t, cevs. repeat split; try assumption. constructor.
Qed.

(** The simulated steps that ran to their end: no bridge event at all. *)
Lemma sim_beh_done i sts evs :
  sim_beh j total i sts evs (ODone tt) ->
  progress_values j evs = percents total i (length sts) ∧
  stamped (sim_msg <$> sts) (log_lines j evs) ∧
  sent_commands evs = [] ∧
  raised_commands evs = [] ∧
  statuses j evs = [] ∧
  completions j evs = [].
Proof.
  intros H. remember (ODone tt) as o eqn:Ho. revert Ho.
  induction H as [i | i st rest | i st rest t evs o' _ IH]; intros Ho; try discriminate.
  - repeat split; constructor.
  - destruct (IH Ho) as (H1 & H2 & H3 & H4 & H5 & H6).
    unfold progress_values, log_lines, statuses, completions in *.
    rewrite !job_events_cons_job.
    cbn [omap list_omap progress_of log_of status_of length percents fmap list_fmap].
    unfold sent_commands, raised_commands in *. cbn [omap list_omap].
    repeat split; try assumption.
    + f_equal. exact H1.
    + apply stamped_cons. exact H2.
Qed.

End Behaviours.

(** ** Runs of the engine *)

Lemma wp_run_under {A} j (r : Res A) :
  ∀ env w0 acc (P : Obs A -> World -> list Event -> World -> Prop),
    Forall (respects j) env ->
    wp j r w0 acc P ->
    ∃ w0', P (obs_of (outcome (run_under env r))) w0'
             (acc ++ events (run_under env r)) (final (run_under env r)).
Proof.
  induction r as [a evs w | e evs w | evs w k IH]; intros env w0 acc P Henv H; simpl in *.
  - eauto.
  - eauto.
  - destruct H as [_ H].
    set (w' := match env with f :: _ => f w | [] => w end).
    assert (Hr : rely j w w').
    { unfold rely, w'. destruct env as [| f env']; [reflexivity |].
      apply Forall_cons in Henv. apply Henv. }
    assert (Henv' : Forall (respects j) (tail env)).
    { destruct env as [| f env']; [constructor |]. apply Forall_cons in Henv. apply Henv. }
    destruct (IH w' (tail env) w' (acc ++ evs) P Henv' (H w' Hr)) as [w0' H'].
    exists w0'. rewrite app_assoc. exact H'.
Qed.

Lemma events_prepend {A} env evs (r : Res A) :
  events (run_under env (prepend evs r)) = evs ++ events (run_under env r).
Proof. destruct r; simpl; [reflexivity | reflexivity | rewrite app_assoc; reflexivity]. Qed.

Lemma catch_prepend {A} evs (r : Res A) h :
  catch_res (prepend evs r) h = prepend evs (catch_res r h).
Proof.
  destruct r as [a evs' w | e evs' w | evs' w k]; simpl; try reflexivity.
  destruct (h e w); simpl; rewrite app_assoc; reflexivity.
Qed.

Lemma prepend_prepend {A} evs1 evs2 (r : Res A) :
  prepend evs1 (prepend evs2 r) = prepend (evs1 ++ evs2) r.
Proof. destruct r; simpl; rewrite app_assoc; reflexivity. Qed.

(** The first block of a run: the status, the first log line, and the
    outcome of [connect()] in the state the run starts in. *)
Lemma engine_run_head env prototype_id w j :
  prototypes_db w !! prototype_id = Some j ->
  ∃ t rest,
    events (engine_run env prototype_id w) =
    EvJob j (SetStatus "generating") :: EvJob j (AppendLog (log_line t "Basladi")) ::
    EvConnect (accepts w) :: rest.
Proof.
  intros Hdb. unfold engine_run, generate_prototype, bind at 1, db_getitem. rewrite Hdb.
  cbn [bind_res]. unfold bind at 1. unfold mutate at 1. cbn [bind_res].
  unfold bind at 1. unfold log at 1. unfold bind at 1. unfold now at 1. cbn [bind_res].
  unfold mutate at 1. cbn [prepend bind_res app]. unfold try_except, generate_body.
  unfold bind at 1. unfold connect, accepts.
  cbn [network set_heap].
  destruct (network w) as [| [msg | s] net]; cbn [bind_res];
    rewrite catch_prepend, !prepend_prepend, events_prepend; cbn [app]; eauto.
Qed.

Section RunFacts.

Variable j : nat.
Variable p : Prototype.

Local Abbreviation total := (len (systems p) + 3)%Z.

(** Every run of the engine ends by returning, its events are a behaviour
    of [generate_beh], and the dict is its events replayed. *)
Lemma engine_run_beh env prototype_id w :
  prototypes_db w !! prototype_id = Some j ->
  heap w !! j = Some p ->
  Forall (respects j) env ->
  outcome (engine_run env prototype_id w) = inr tt ∧
  generate_beh j p (events (engine_run env prototype_id w)) (ODone tt) ∧
  heap (final (engine_run env prototype_id w)) !! j =
    Some (replay j p (events (engine_run env prototype_id w))).
Proof.
  intros Hdb Hp Henv. unfold engine_run.
  pose proof (generate_prototype_wp j p prototype_id w [] w
                (fun o w0 acc w' =>
                   match o with
                   | ODone a => generate_beh j p acc (ODone a) ∧ heap w' !! j = Some (replay j p acc)
                   | ORaised _ => False
                   | OPaused => True
                   end) Hdb (frame_refl j w) Hp) as H.
  assert (Hwp : wp j (generate_prototype prototype_id w) w []
                  (fun o w0 acc w' =>
                     match o with
                     | ODone a => generate_beh j p acc (ODone a) ∧
                                  heap w' !! j = Some (replay j p acc)
                     | ORaised _ => False
                     | OPaused => True
                     end)).
  { apply H. intros o evs w0' w' Hb _ Hh. cbn [app]. destruct o as [a | e |]; auto.
    inversion Hb. }
  destruct (wp_run_under j _ env w [] _ Henv Hwp) as [w0' Hrun].
  cbn [app] in Hrun.
  destruct (outcome (run_under env (generate_prototype prototype_id w))) as [e | []];
    cbn [obs_of] in Hrun; [contradiction |].
  destruct Hrun as [Hb Hh]. auto.
Qed.

(** A finished run is one of three: simulated, bridge-driven to the end,
    or bridge-driven up to a command that raised. *)
Lemma generate_beh_done evs :
  generate_beh j p evs (ODone tt) ->
  ∃ pre ok sevs fin,
    prelude j pre ∧ evs = pre ++ EvConnect ok :: sevs ++ fin ∧
    ((ok = false ∧ sim_beh j total 0 (steps_of (systems p)) sevs (ODone tt) ∧
      completion j "Tamamlandi (simule)!" fin) ∨
     (ok = true ∧ steps_beh j p total 0 (steps_of (systems p)) sevs (ODone tt) ∧
      completion j "Tamamlandi!" fin) ∨
     (ok = true ∧ ∃ e, steps_beh j p total 0 (steps_of (systems p)) sevs (ORaised e) ∧
                       failure j e fin)).
Proof.
  intros H. inversion H; subst;
    eexists _, _, _, _; (split; [eassumption |]); (split; [reflexivity |]).
  - left. auto.
  - right. left. auto.
  - right. right. split; [reflexivity |]. eauto.
Qed.

Lemma engine_run_cases env prototype_id w :
  prototypes_db w !! prototype_id = Some j ->
  heap w !! j = Some p ->
  Forall (respects j) env ->
  ∃ pre sevs fin,
    prelude j pre ∧
    events (engine_run env prototype_id w) = pre ++ EvConnect (accepts w) :: sevs ++ fin ∧
    heap (final (engine_run env prototype_id w)) !! j =
      Some (replay j p (events (engine_run env prototype_id w))) ∧
    ((accepts w = false ∧ sim_beh j total 0 (steps_of (systems p)) sevs (ODone tt) ∧
      completion j "Tamamlandi (simule)!" fin) ∨
     (accepts w = true ∧ steps_beh j p total 0 (steps_of (systems p)) sevs (ODone tt) ∧
      completion j "Tamamlandi!" fin) ∨
     (accepts w = true ∧ ∃ e, steps_beh j p total 0 (steps_of (systems p)) sevs (ORaised e) ∧
                              failure j e fin)).
Proof.
  intros Hdb Hp Henv.
  destruct (engine_run_beh env prototype_id w Hdb Hp Henv) as (_ & Hb & Hh).
  destruct (engine_run_head env prototype_id w j Hdb) as (t & rest & Hhead).
  destruct (generate_beh_done _ Hb) as (pre & ok & sevs & fin & Hpre & Hev & Hcases).
  exists pre, sevs, fin. split; [exact Hpre |].
  assert (Hok : ok = accepts w).
  { destruct Hpre as [t' ->]. rewrite Hev in Hhead. cbn [app] in Hhead.
    injection Hhead as _ E _. exact E. }
  subst ok. auto.
Qed.

End RunFacts.

Section RunProjections.

Variable j : nat.

Lemma prelude_projections pre ok sevs fin :
  prelude j pre ->
  progress_values j (pre ++ EvConnect ok :: sevs ++ fin) =
    progress_values j sevs ++ progress_values j fin ∧
  (∃ t, log_lines j (pre ++ EvConnect ok :: sevs ++ fin) =
        log_line t "Basladi" :: log_lines j sevs ++ log_lines j fin) ∧
  statuses j (pre ++ EvConnect ok :: sevs ++ fin) =
    "generating" :: statuses j sevs ++ statuses j fin ∧
  completions j (pre ++ EvConnect ok :: sevs ++ fin) = completions j sevs ++ completions j fin ∧
  sent_commands (pre ++ EvConnect ok :: sevs ++ fin) = sent_commands sevs ++ sent_commands fin ∧
  raised_commands (pre ++ EvConnect ok :: sevs ++ fin) =
    raised_commands sevs ++ raised_commands fin.
Proof.
  intros [t ->].
  change ([EvJob j (SetStatus "generating"); EvJob j (AppendLog (log_line t "Basladi"))] ++
          EvConnect ok :: sevs ++ fin)
    with ([EvJob j (SetStatus "generating"); EvJob j (AppendLog (log_line t "Basladi"));
           EvConnect ok] ++ sevs ++ fin).
  rewrite !sent_commands_app, !raised_commands_app.
  unfold progress_values, log_lines, statuses, completions.
  rewrite !job_events_app, !omap_app.
  change (job_events j [EvJob j (SetStatus "generating");
                        EvJob j (AppendLog (log_line t "Basladi")); EvConnect ok])
    with (job_events j (EvJob j (SetStatus "generating") ::
                        EvJob j (AppendLog (log_line t "Basladi")) :: [EvConnect ok])).
  rewrite !job_events_cons_job.
  cbn. repeat split. exists t. reflexivity.
Qed.

Lemma completion_projections msg fin :
  completion j msg fin ->
  progress_values j fin = [] ∧ (∃ t, log_lines j fin = [log_line t msg]) ∧
  statuses j fin = ["completed"] ∧ (∃ t, completions j fin = [isoformat t]) ∧
  sent_commands fin = [] ∧ raised_commands fin = [].
Proof.
  intros (t & t' & ->).
  unfold progress_values, log_lines, statuses, completions.
  rewrite !job_events_cons_job. cbn. repeat split; eauto.
Qed.

Lemma failure_projections e fin :
  failure j e fin ->
  progress_values j fin = [] ∧
  (∃ t, log_lines j fin = [log_line t ("HATA: " +:+ str e)]) ∧
  statuses j fin = ["failed"] ∧ completions j fin = [] ∧
  sent_commands fin = [] ∧ raised_commands fin = [].
Proof.
  intros (t & ->).
  unfold progress_values, log_lines, statuses, completions.
  rewrite !job_events_cons_job. cbn. repeat split; eauto.
Qed.

End RunProjections.

Lemma expected_progress_no_ui total k sts :
  Forall (fun st => st ≠ StepUI) sts ->
  expected_progress total k sts = percents total k (length sts).
Proof.
  intros H. revert k. induction H as [| st sts Hst _ IH]; intros k; simpl; [reflexivity |].
  rewrite IH. f_equal. destruct st; try reflexivity. contradiction.
Qed.

Lemma steps_of_front requested :
  steps_of requested = (StepScene :: (StepSystem <$> requested) ++ [StepPlayer]) ++ [StepUI] ∧
  Forall (fun st => st ≠ StepUI) (StepScene :: (StepSystem <$> requested) ++ [StepPlayer]).
Proof.
  split.
  - unfold steps_of. cbn [app]. rewrite <- app_assoc. reflexivity.
  - constructor; [discriminate |]. apply Forall_app. split.
    + apply Forall_fmap, Forall_forall. intros key _. discriminate.
    + repeat constructor. discriminate.
Qed.

Lemma steps_of_length requested : length (steps_of requested) = (length requested + 3)%nat.
Proof. unfold steps_of. simpl. rewrite length_app, length_fmap. simpl. lia. Qed.

(** The steps done before a failing one store the first [m] values of the
    scale. *)
Lemma expected_progress_take total k requested m :
  (m < length (steps_of requested))%nat ->
  expected_progress total k (take m (steps_of requested)) = percents total k m.
Proof.
  intros Hm. destruct (steps_of_front requested) as [E Hfront].
  rewrite steps_of_length in Hm. rewrite E.
  set (front := StepScene :: (StepSystem <$> requested) ++ [StepPlayer]) in *.
  assert (Hlen : length front = (length requested + 2)%nat).
  { unfold front. simpl. rewrite length_app, length_fmap. simpl. lia. }
  rewrite take_app_le by lia.
  rewrite expected_progress_no_ui.
  - rewrite length_take. f_equal. lia.
  - apply Forall_take, Hfront.
Qed.

Lemma percents_take total k n m :
  (m <= n)%nat -> take m (percents total k n) = percents total k m.
Proof.
  intros H. replace n with (m + (n - m))%nat by lia. rewrite percents_app.
  rewrite take_app_le by (rewrite percents_length; lia).
  rewrite take_ge by (rewrite percents_length; lia). reflexivity.
Qed.

Section Summary.

Variable j : nat.
Variable p : Prototype.

Local Abbreviation total := (len (systems p) + 3)%Z.

Lemma engine_run_summary env prototype_id w :
  prototypes_db w !! prototype_id = Some j ->
  heap w !! j = Some p ->
  Forall (respects j) env ->
  heap (final (engine_run env prototype_id w)) !! j =
    Some (replay j p (events (engine_run env prototype_id w))) ∧
  ((accepts w = false ∧ simulated_summary j p (events (engine_run env prototype_id w))) ∨
   (accepts w = true ∧ completed_summary j p (events (engine_run env prototype_id w))) ∨
   (accepts w = true ∧ failed_summary j p (events (engine_run env prototype_id w)))).
Proof.
  intros Hdb Hp Henv.
  destruct (engine_run_cases j p env prototype_id w Hdb Hp Henv)
    as (pre & sevs & fin & Hpre & -> & Hh & Hcases).
  split; [exact Hh |].
  destruct (prelude_projections j pre (accepts w) sevs fin Hpre)
    as (Hpv & (t0 & Hlog) & Hst & Hco & Hse & Hra).
  destruct Hcases as [(Hacc & Hs & Hfin) | [(Hacc & Hs & Hfin) | (Hacc & e & Hs & Hfin)]].
  - left. split; [exact Hacc |].
    destruct (sim_beh_done j total 0 _ _ Hs) as (S1 & S2 & S3 & S4 & S5 & S6).
    destruct (completion_projections j _ _ Hfin) as (F1 & (t1 & F2) & F3 & (t2 & F4) & F5 & F6).
    unfold simulated_summary.
    rewrite Hpv, Hlog, Hst, Hco, Hse, Hra, S1, S3, S4, S5, S6, F1, F2, F3, F4, F5, F6.
    rewrite steps_of_length, app_nil_r.
    repeat split; eauto.
    apply stamped_cons, stamped_app; [exact S2 |]. apply stamped_cons. constructor.
  - right. left. split; [exact Hacc |].
    destruct (steps_beh_done j p total 0 _ _ Hs) as (S1 & S2 & S3 & S4 & S5 & S6).
    destruct (completion_projections j _ _ Hfin) as (F1 & (t1 & F2) & F3 & (t2 & F4) & F5 & F6).
    unfold completed_summary.
    rewrite Hpv, Hlog, Hst, Hco, Hse, Hra, S1, S3, S4, S5, S6, F1, F2, F3, F4, F5, F6.
    rewrite expected_progress_steps, !app_nil_r.
    repeat split; eauto.
    apply stamped_cons, stamped_app; [exact S2 |]. apply stamped_cons. constructor.
  - right. right. split; [exact Hacc |].
    destruct (steps_beh_raised j p total 0 _ _ e Hs)
      as (m & st & msg & c & ps & done & t & cevs & Hm & Hreq & -> & Hdone & Hc).
    destruct (steps_beh_done j p total 0 _ _ Hdone) as (S1 & S2 & S3 & S4 & S5 & S6).
    destruct (failure_projections j _ _ Hfin) as (F1 & (t1 & F2) & F3 & F4 & F5 & F6).
    destruct (command_beh_raised c ps cevs e Hc) as (cpre & Hcevs & Hcra & Heshape).
    exists m, st, msg, c, ps, e.
    assert (Hmlt : (m < length (steps_of (systems p)))%nat) by (eapply lookup_lt_Some, Hm).
    change (done ++ EvJob j (AppendLog (log_line t msg)) :: cevs)
      with (done ++ [EvJob j (AppendLog (log_line t msg))] ++ cevs) in *.
    rewrite Hpv, Hlog, Hst, Hco, Hse, Hra, F1, F2, F3, F4, F5, F6.
    rewrite !progress_values_app, !log_lines_app, !statuses_app, !completions_app,
      !sent_commands_app, !raised_commands_app.
    rewrite S1, S3, S4, S5, S6, (expected_progress_take _ _ _ _ Hmlt).
    unfold progress_values, log_lines, statuses, completions.
    rewrite (command_beh_job_events j _ _ _ _ Hc), !job_events_cons_job.
    cbn [omap list_omap progress_of log_of status_of app job_events sent_commands
           raised_commands].
    rewrite ?app_nil_r. rewrite <- ?app_assoc. cbn [app].
    repeat split; try assumption; try reflexivity.
    + apply stamped_cons. apply stamped_app; [exact S2 |].
      apply stamped_cons. apply stamped_cons. constructor.
    + destruct (command_beh_sent c ps cevs _ Hc) as [-> | ->]; [left | right];
        rewrite ?app_nil_r; reflexivity.
    + rewrite Hcevs, raised_commands_app, Hcra. reflexivity.
Qed.

End Summary.

(** ** The claims about one run of the engine *)

Lemma sim_beh_own j total i sts evs (o : Obs unit) :
  sim_beh j total i sts evs o -> Forall (fun e => ∃ je, e = EvJob j je) evs.
Proof. induction 1; repeat constructor; eauto. Qed.

Lemma percents_prefix total m n :
  (m <= n)%nat -> percents total 0 m `prefix_of` percents total 0 n.
Proof.
  intros H. replace n with (m + (n - m))%nat by lia. rewrite percents_app.
  apply prefix_app_r. reflexivity.
Qed.

Lemma contains_cons needle c s :
  contains needle (String c s) =
  if String.prefix needle (String c s) then true else contains needle s.
Proof. reflexivity. Qed.

Lemma contains_suffix needle s1 s2 :
  contains needle s2 = true -> contains needle (s1 +:+ s2) = true.
Proof.
  intros H. induction s1 as [| c s1 IH]; [exact H |].
  change (String c s1 +:+ s2) with (String c (s1 +:+ s2)).
  rewrite contains_cons, IH. destruct (String.prefix needle _); reflexivity.
Qed.

(** C3: when the first [connect()] of a run fails, the engine takes the
    simulated path: it sends nothing to the bridge and no [send_command] call
    is made (every event is an assignment to the job or the failed
    connection attempt); it stores the same values as the bridge-driven
    steps would, one per step of the [len(systems) + 3]; it appends one line
    marked [(simule)] per step, naming the step; and it always ends with
    status [completed], progress 100 and a completion time. *)
Theorem simulated_path_completes env prototype_id w j p :
  prototypes_db w !! prototype_id = Some j ->
  heap w !! j = Some p ->
  Forall (respects j) env ->
  accepts w = false ->
  outcome (engine_run env prototype_id w) = inr tt ∧
  Forall (fun e => (∃ je, e = EvJob j je) ∨ e = EvConnect false)
    (events (engine_run env prototype_id w)) ∧
  sent_commands (events (engine_run env prototype_id w)) = [] ∧
  progress_values j (events (engine_run env prototype_id w)) =
    expected_progress (len (systems p) + 3) 0 (steps_of (systems p)) ∧
  length (progress_values j (events (engine_run env prototype_id w))) =
    (length (systems p) + 3)%nat ∧
  stamped ("Basladi" :: (sim_msg <$> steps_of (systems p)) ++ ["Tamamlandi (simule)!"])
    (log_lines j (events (engine_run env prototype_id w))) ∧
  (∀ st, contains "(simule)" (sim_msg st) = true) ∧
  statuses j (events (engine_run env prototype_id w)) = ["generating"; "completed"] ∧
  ∃ p', heap (final (engine_run env prototype_id w)) !! j = Some p' ∧
        status p' = "completed" ∧ progress p' = 100%Z ∧ is_Some (completedAt p').
Proof.
  intros Hdb Hp Henv Hacc.
  destruct (engine_run_beh j p env prototype_id w Hdb Hp Henv) as (Hout & _ & _).
  destruct (engine_run_cases j p env prototype_id w Hdb Hp Henv)
    as (pre & sevs & fin & Hpre & Hev & _ & Hcases).
  destruct (engine_run_summary j p env prototype_id w Hdb Hp Henv) as (Hh & Hsum).
  destruct Hsum as [(_ & S) | [(Hacc' & _) | (Hacc' & _)]]; try congruence.
  destruct S as (S1 & S2 & S3 & (t & S4) & S5 & S6).
  split; [exact Hout |]. split.
  { rewrite Hev, Hacc.
    destruct Hcases as [(_ & Hs & (t1 & t2 & ->)) | [(Hacc' & _) | (Hacc' & _)]];
      try congruence.
    destruct Hpre as [t0 ->].
    repeat (apply Forall_cons; split; [eauto |]).
    apply Forall_app. split.
    - eapply Forall_impl; [apply (sim_beh_own _ _ _ _ _ _ Hs) |]. intros e He. left. exact He.
    - repeat (apply Forall_cons; split; [eauto |]). constructor. }
  split; [exact S5 |]. split; [rewrite S1, expected_progress_steps; reflexivity |].
  split; [rewrite S1; apply percents_length |]. split; [exact S2 |].
  split.
  { intros [| key | |]; try reflexivity.
    apply (contains_suffix "(simule)" key " ekleniyor (simule)..."). reflexivity. }
  split; [exact S3 |].
  exists (replay j p (events (engine_run env prototype_id w))). split; [exact Hh |].
  rewrite replay_status, replay_progress, replay_completedAt, S1, S3, S4. cbn [last default].
  repeat split; eauto.
  replace (length (systems p) + 3)%nat with (S (length (systems p) + 2)) by lia.
  rewrite percents_last; [reflexivity | unfold len; lia | unfold len; lia].
Qed.


(** ** Exact and binary64 progress *)

Lemma elem_of_range k n : k ∈ range n ↔ (0 <= k < n)%Z.
Proof.
  unfold range. rewrite list_elem_of_fmap. split.
  - intros (i & -> & Hi). apply elem_of_seq in Hi. lia.
  - intros H. exists (Z.to_nat k). split; [lia |]. apply elem_of_seq. lia.
Qed.

Lemma percents_agree_spec bound k n :
  percents_agree bound = true ->
  (0 <= k <= n)%Z -> (0 < n < bound)%Z -> py_percent k n = floor_percent k n.
Proof.
  unfold percents_agree. intros H Hk Hn.
  rewrite forallb_forall in H. specialize (H (n - 1)%Z).
  rewrite <- list_elem_of_In, elem_of_range in H. specialize (H ltac:(lia)).
  rewrite forallb_forall in H. specialize (H k).
  rewrite <- list_elem_of_In, elem_of_range in H. specialize (H ltac:(lia)).
  replace (n - 1 + 1)%Z with n in H by lia. apply Z.eqb_eq, H.
Qed.

Lemma percents_agree_50 : percents_agree 50 = true.
Proof. vm_compute. reflexivity. Qed.

Lemma py_percent_floor k n :
  (0 <= k <= n)%Z -> (0 < n < 50)%Z -> py_percent k n = floor_percent k n.
Proof. apply percents_agree_spec, percents_agree_50. Qed.

Lemma py_percent_29_50 : py_percent 29 50 = 57%Z ∧ floor_percent 29 50 = 58%Z.
Proof. split; vm_compute; reflexivity. Qed.

Lemma binary64_agree_spec bound k n :
  binary64_agree bound = true ->
  (0 <= k <= n)%Z -> (0 < n < bound)%Z -> py_percent k n = binary64_percent k n.
Proof.
  unfold binary64_agree. intros H Hk Hn.
  rewrite forallb_forall in H. specialize (H (n - 1)%Z).
  rewrite <- list_elem_of_In, elem_of_range in H. specialize (H ltac:(lia)).
  rewrite forallb_forall in H. specialize (H k).
  rewrite <- list_elem_of_In, elem_of_range in H. specialize (H ltac:(lia)).
  replace (n - 1 + 1)%Z with n in H by lia. apply Z.eqb_eq, H.
Qed.

(** The rational model of the progress expression computes what the
    kernel's binary64 floats compute, for every total up to 128. *)
Lemma binary64_agree_128 : binary64_agree 128 = true.
Proof. vm_compute. reflexivity. Qed.

Lemma py_percent_binary64 k n :
  (0 <= k <= n)%Z -> (0 < n < 128)%Z -> py_percent k n = binary64_percent k n.
Proof. apply binary64_agree_spec, binary64_agree_128. Qed.

(** ** Runs in which a command fails *)

Lemma steps_of_scene requested m :
  steps_of requested !! m = Some StepScene -> m = 0%nat.
Proof.
  destruct m as [| m]; [reflexivity |]. unfold steps_of. cbn [lookup list_lookup].
  intros H. apply list_elem_of_lookup_2 in H. apply elem_of_app in H as [H | H].
  - apply list_elem_of_fmap in H as (key & E & _). discriminate.
  - apply elem_of_cons in H as [H | H]; [discriminate |].
    apply list_elem_of_singleton in H. discriminate.
Qed.

Lemma percents_last_any total m :
  last (percents total 0 (S m)) = Some (py_percent (Z.of_nat (S m)) total).
Proof.
  replace (S m) with (m + 1)%nat at 1 by lia. rewrite percents_app. simpl.
  rewrite last_snoc. do 2 f_equal. lia.
Qed.

Lemma job_events_cons_bridge j e evs :
  bridge_event e -> job_events j (e :: evs) = job_events j evs.
Proof. destruct e; simpl; intros H; solve [reflexivity | destruct H]. Qed.

Ltac job_history :=
  repeat (rewrite job_events_cons_job || (rewrite job_events_cons_bridge by exact I));
  cbn [job_events omap list_omap status_of progress_of log_of app].

Lemma replay_handler j q c e line :
  replay j q [EvRaise c e; EvJob j (SetStatus "failed"); EvJob j (AppendLog line)] =
  apply_job (AppendLog line) (apply_job (SetStatus "failed") q).
Proof. unfold replay. simpl. destruct (decide (j = j)); [reflexivity | contradiction]. Qed.

Section FailedRuns.

Variable j : nat.
Variable p : Prototype.

Local Abbreviation total := (len (systems p) + 3)%Z.

(** The events of a run in which a [send_command] call raised: the steps
    before it, the line of the failing step, the call, and the handler. *)
Lemma engine_run_failed env prototype_id w :
  prototypes_db w !! prototype_id = Some j ->
  heap w !! j = Some p ->
  Forall (respects j) env ->
  raised_commands (events (engine_run env prototype_id w)) ≠ [] ->
  accepts w = true ∧
  ∃ m st msg c ps e t0 done t cpre t1,
    steps_of (systems p) !! m = Some st ∧ step_request p st = Some (msg, c, ps) ∧
    steps_beh j p total 0 (take m (steps_of (systems p))) done (ODone tt) ∧
    command_beh c ps (cpre ++ [EvRaise c e]) (ORaised e) ∧
    raised_commands cpre = [] ∧
    (e = HTTPException 503 "Unity Bridge baglantisi yok" ∨
     ∃ cause, e = HTTPException 500 ("Unity komut hatasi: " +:+ str cause)) ∧
    events (engine_run env prototype_id w) =
      ([EvJob j (SetStatus "generating"); EvJob j (AppendLog (log_line t0 "Basladi"));
        EvConnect true] ++ done ++ [EvJob j (AppendLog (log_line t msg))] ++ cpre) ++
      [EvRaise c e; EvJob j (SetStatus "failed");
       EvJob j (AppendLog (log_line t1 ("HATA: " +:+ str e)))].
Proof.
  intros Hdb Hp Henv Hraised.
  destruct (engine_run_cases j p env prototype_id w Hdb Hp Henv)
    as (pre & sevs & fin & Hpre & Hev & _ & Hcases).
  destruct (prelude_projections j pre (accepts w) sevs fin Hpre)
    as (_ & _ & _ & _ & _ & Hra).
  rewrite Hev, Hra in Hraised.
  destruct Hcases as [(Hacc & Hs & Hfin) | [(Hacc & Hs & Hfin) | (Hacc & e & Hs & Hfin)]].
  - destruct (sim_beh_done j total 0 _ _ Hs) as (_ & _ & _ & S & _).
    destruct (completion_projections j _ _ Hfin) as (_ & _ & _ & _ & _ & F).
    rewrite S, F in Hraised. contradiction.
  - destruct (steps_beh_done j p total 0 _ _ Hs) as (_ & _ & _ & S & _).
    destruct (completion_projections j _ _ Hfin) as (_ & _ & _ & _ & _ & F).
    rewrite S, F in Hraised. contradiction.
  - split; [exact Hacc |].
    destruct (steps_beh_raised j p total 0 _ _ e Hs)
      as (m & st & msg & c & ps & done & t & cevs & Hm & Hreq & -> & Hdone & Hc).
    destruct (command_beh_raised c ps cevs e Hc) as (cpre & -> & Hcra & Heshape).
    destruct Hpre as [t0 ->]. destruct Hfin as [t1 ->].
    exists m, st, msg, c, ps, e, t0, done, t, cpre, t1.
    repeat split; try assumption.
    rewrite Hev, Hacc. cbn [app]. repeat (rewrite <- app_assoc; cbn [app]). reflexivity.
Qed.

End FailedRuns.

(** C4: when a bridge command of a run fails (which happens only after the
    initial connect succeeded), the run stops there: the events after the
    failing call are the assignment of [failed] to the status and one
    [HATA] line carrying the text of the exception, whose detail is the
    503 message or the 500 message with the cause; no call failed before;
    the completion time is as it was; progress and the log lines are those
    recorded before the failure, the error line apart; nothing is sent
    after the failure. *)
Theorem bridge_failure_aborts env prototype_id w j p :
  prototypes_db w !! prototype_id = Some j ->
  heap w !! j = Some p ->
  Forall (respects j) env ->
  raised_commands (events (engine_run env prototype_id w)) ≠ [] ->
  accepts w = true ∧
  ∃ before c e t p',
    events (engine_run env prototype_id w) =
      before ++ [EvRaise c e; EvJob j (SetStatus "failed");
                 EvJob j (AppendLog (log_line t ("HATA: " +:+ str e)))] ∧
    raised_commands before = [] ∧
    (e = HTTPException 503 "Unity Bridge baglantisi yok" ∨
     ∃ cause, e = HTTPException 500 ("Unity komut hatasi: " +:+ str cause)) ∧
    outcome (engine_run env prototype_id w) = inr tt ∧
    heap (final (engine_run env prototype_id w)) !! j = Some p' ∧
    status p' = "failed" ∧
    statuses j (events (engine_run env prototype_id w)) = ["generating"; "failed"] ∧
    completedAt p' = completedAt p ∧
    progress p' = progress (replay j p before) ∧
    logs p' = logs (replay j p before) ++ [log_line t ("HATA: " +:+ str e)] ∧
    sent_commands (events (engine_run env prototype_id w)) = sent_commands before.
Proof.
  intros Hdb Hp Henv Hraised.
  destruct (engine_run_beh j p env prototype_id w Hdb Hp Henv) as (Hout & _ & Hh).
  destruct (engine_run_failed j p env prototype_id w Hdb Hp Henv Hraised)
    as (Hacc & m & st & msg & c & ps & e & t0 & done & t & cpre & t1 &
        Hm & Hreq & Hdone & Hc & Hcra & He & Hev).
  split; [exact Hacc |].
  destruct (steps_beh_done j p _ 0 _ _ Hdone) as (_ & _ & _ & S4 & S5 & S6).
  eexists _, c, e, t1, _. split; [exact Hev |].
  split.
  { rewrite !raised_commands_app, S4, Hcra. reflexivity. }
  split; [exact He |]. split; [exact Hout |]. split; [exact Hh |].
  rewrite Hev.
  rewrite replay_app, replay_handler.
  split; [reflexivity |].
  split.
  { rewrite !statuses_app, S5. unfold statuses.
    rewrite (job_events_bridge j cpre).
    - job_history. reflexivity.
    - pose proof (command_beh_bridge _ _ _ _ Hc) as Hb.
      apply Forall_app in Hb as [Hb _]. exact Hb. }
  split.
  { cbn [completedAt apply_job]. rewrite replay_completedAt.
    rewrite !completions_app, S6. unfold completions.
    rewrite (job_events_bridge j cpre).
    - job_history. reflexivity.
    - pose proof (command_beh_bridge _ _ _ _ Hc) as Hb.
      apply Forall_app in Hb as [Hb _]. exact Hb. }
  split; [reflexivity |].
  split; [reflexivity |].
  rewrite sent_commands_app with (evs2 := [_; _; _]). cbn. rewrite app_nil_r. reflexivity.
Qed.

(** C10: on the bridge-driven path a step's progress is stored only after
    the step's command returned.  When a command fails, the values stored
    are those of the [m] steps before the failing one, so the progress left
    is the engine's [int((m / total_steps) * 100)], and 0 when the first
    (scene) command fails; this is floor(m / total_steps * 100) whenever
    [total_steps < 50].  The line of the failing step is in the log, and
    was appended before the events of the failing call. *)
Theorem failed_progress_counts_completed_steps env prototype_id w j p :
  prototypes_db w !! prototype_id = Some j ->
  heap w !! j = Some p ->
  Forall (respects j) env ->
  progress p = 0%Z ->
  raised_commands (events (engine_run env prototype_id w)) ≠ [] ->
  ∃ m st msg c ps e t before cevs after p',
    steps_of (systems p) !! m = Some st ∧
    step_request p st = Some (msg, c, ps) ∧
    events (engine_run env prototype_id w) =
      before ++ [EvJob j (AppendLog (log_line t msg))] ++ cevs ++ after ∧
    command_beh c ps cevs (ORaised e) ∧
    raised_commands before = [] ∧
    sent_commands before = omap (step_command p) (take m (steps_of (systems p))) ∧
    progress_values j before = percents (len (systems p) + 3) 0 m ∧
    progress_values j (events (engine_run env prototype_id w)) =
      percents (len (systems p) + 3) 0 m ∧
    heap (final (engine_run env prototype_id w)) !! j = Some p' ∧
    progress p' =
      (if decide (m = 0%nat) then 0 else py_percent (Z.of_nat m) (len (systems p) + 3))%Z ∧
    ((len (systems p) + 3 < 50)%Z ->
     progress p' = floor_percent (Z.of_nat m) (len (systems p) + 3)) ∧
    (st = StepScene -> progress p' = 0%Z) ∧
    log_line t msg ∈ logs p'.
Proof.
  intros Hdb Hp Henv Hzero Hraised.
  destruct (engine_run_beh j p env prototype_id w Hdb Hp Henv) as (_ & _ & Hh).
  destruct (engine_run_failed j p env prototype_id w Hdb Hp Henv Hraised)
    as (Hacc & m & st & msg & c & ps & e & t0 & done & t & cpre & t1 &
        Hm & Hreq & Hdone & Hc & Hcra & He & Hev).
  destruct (steps_beh_done j p _ 0 _ _ Hdone) as (S1 & _ & S3 & S4 & _ & _).
  assert (Hmlt : (m < length (steps_of (systems p)))%nat) by (eapply lookup_lt_Some, Hm).
  rewrite (expected_progress_take _ _ _ _ Hmlt) in S1.
  assert (Hcpre : job_events j cpre = []).
  { apply job_events_bridge. pose proof (command_beh_bridge _ _ _ _ Hc) as Hb.
    apply Forall_app in Hb as [Hb _]. exact Hb. }
  assert (Hbefore : progress_values j
            ([EvJob j (SetStatus "generating"); EvJob j (AppendLog (log_line t0 "Basladi"));
              EvConnect true] ++ done) = percents (len (systems p) + 3) 0 m).
  { rewrite progress_values_app, S1. unfold progress_values. job_history. reflexivity. }
  assert (Hall : progress_values j (events (engine_run env prototype_id w)) =
                 percents (len (systems p) + 3) 0 m).
  { rewrite Hev. rewrite !progress_values_app, S1. unfold progress_values.
    rewrite Hcpre. job_history. rewrite !app_nil_r. reflexivity. }
  assert (Hprog : progress (replay j p (events (engine_run env prototype_id w))) =
            (if decide (m = 0%nat) then 0
             else py_percent (Z.of_nat m) (len (systems p) + 3))%Z).
  { rewrite replay_progress, Hall. destruct m as [| m'].
    - simpl. exact Hzero.
    - rewrite percents_last_any. destruct (decide (S m' = 0%nat)); [lia | reflexivity]. }
  exists m, st, msg, c, ps, e, t,
    ([EvJob j (SetStatus "generating"); EvJob j (AppendLog (log_line t0 "Basladi"));
      EvConnect true] ++ done),
    (cpre ++ [EvRaise c e]),
    [EvJob j (SetStatus "failed"); EvJob j (AppendLog (log_line t1 ("HATA: " +:+ str e)))],
    (replay j p (events (engine_run env prototype_id w))).
  split; [exact Hm |]. split; [exact Hreq |].
  split.
  { rewrite Hev. repeat (rewrite <- app_assoc; cbn [app]). reflexivity. }
  split; [exact Hc |].
  split; [rewrite raised_commands_app, S4; reflexivity |].
  split; [rewrite sent_commands_app, S3; reflexivity |].
  split; [exact Hbefore |]. split; [exact Hall |]. split; [exact Hh |].
  split; [exact Hprog |].
  split.
  { intros Hsmall. rewrite Hprog. destruct (decide (m = 0%nat)) as [-> | Hne].
    - reflexivity.
    - apply py_percent_floor; [| unfold len in *; lia].
      rewrite steps_of_length in Hmlt. unfold len. lia. }
  split.
  { intros ->. rewrite Hprog. apply steps_of_scene in Hm. subst m. reflexivity. }
  rewrite replay_logs, Hev. apply elem_of_app. right.
  rewrite !log_lines_app. apply elem_of_app. left. apply elem_of_app. right.
  apply elem_of_app. right. apply elem_of_app. left.
  unfold log_lines. job_history. apply list_elem_of_singleton. reflexivity.
Qed.

(** ** Steps without a command *)

Lemma percents_lookup total first n i v :
  percents total first n !! i = Some v -> v = py_percent (first + Z.of_nat i + 1) total.
Proof.
  revert first i. induction n as [| n IH]; intros first i H; [discriminate |].
  destruct i as [| i]; simpl in H.
  - injection H as <-. f_equal. lia.
  - apply IH in H. subst v. f_equal. lia.
Qed.


Lemma step_msg_none p st :
  step_msg p st = None ↔ ∃ key, st = StepSystem key ∧ SYSTEM_TEMPLATES !! key = None.
Proof.
  unfold step_msg. destruct st as [| key | |]; simpl.
  - split; [discriminate | intros (k & E & _); discriminate].
  - destruct (SYSTEM_TEMPLATES !! key) eqn:E; simpl.
    + split; [discriminate | intros (k & [= <-] & E'); congruence].
    + split; [eauto | reflexivity].
  - split; [discriminate | intros (k & E & _); discriminate].
  - split; [discriminate | intros (k & E & _); discriminate].
Qed.


Section SentAndStored.

Variable j : nat.
Variable p : Prototype.


Lemma engine_run_progress_prefix env prototype_id w :
  prototypes_db w !! prototype_id = Some j ->
  heap w !! j = Some p ->
  Forall (respects j) env ->
  progress_values j (events (engine_run env prototype_id w))
    `prefix_of` percents (len (systems p) + 3) 0 (length (systems p) + 3).
Proof.
  intros Hdb Hp Henv.
  destruct (engine_run_summary j p env prototype_id w Hdb Hp Henv) as (_ & Hsum).
  destruct Hsum as [(_ & S) | [(_ & S) | (_ & S)]].
  - destruct S as (-> & _). reflexivity.
  - destruct S as (-> & _). reflexivity.
  - destruct S as (m & st & msg & c & ps & e & Hm & _ & -> & _).
    apply percents_prefix. apply lookup_lt_Some in Hm. rewrite steps_of_length in Hm. lia.
Qed.

Lemma engine_run_progress_lookup env prototype_id w i v :
  prototypes_db w !! prototype_id = Some j ->
  heap w !! j = Some p ->
  Forall (respects j) env ->
  progress_values j (events (engine_run env prototype_id w)) !! i = Some v ->
  (i < length (systems p) + 3)%nat ∧ v = py_percent (Z.of_nat i + 1) (len (systems p) + 3).
Proof.
  intros Hdb Hp Henv Hi.
  destruct (engine_run_progress_prefix env prototype_id w Hdb Hp Henv) as [rest E].
  assert (H : percents (len (systems p) + 3) 0 (length (systems p) + 3) !! i = Some v).
  { rewrite E. apply lookup_app_l_Some, Hi. }
  split.
  - apply lookup_lt_Some in H. rewrite percents_length in H. exact H.
  - apply percents_lookup in H. rewrite H. f_equal.
Qed.

End SentAndStored.


(** C7 (amended): the values stored by a run are one per executed step, in
    order, and the value stored after step [i + 1] is
    floor((i + 1) / total_steps * 100) whenever [total_steps < 50].  On the
    simulated path every step, whatever its key, appends one time-stamped
    line describing it.  On the bridge-driven path the scene, player and UI
    steps and the per-system steps whose key is in the catalog append one
    line each, and a per-system step whose key is unknown appends none; in
    a run that fails, the steps before the failing one and the failing step
    have their lines, followed by the error line. *)
Theorem progress_and_log_per_step env prototype_id w j p :
  prototypes_db w !! prototype_id = Some j ->
  heap w !! j = Some p ->
  Forall (respects j) env ->
  (∀ i v, progress_values j (events (engine_run env prototype_id w)) !! i = Some v ->
          (i < length (steps_of (systems p)))%nat ∧
          ((len (systems p) + 3 < 50)%Z ->
           v = floor_percent (Z.of_nat i + 1) (len (systems p) + 3))) ∧
  (accepts w = false ->
   length (progress_values j (events (engine_run env prototype_id w))) =
     length (steps_of (systems p)) ∧
   stamped ("Basladi" :: (sim_msg <$> steps_of (systems p)) ++ ["Tamamlandi (simule)!"])
     (log_lines j (events (engine_run env prototype_id w)))) ∧
  (accepts w = true -> raised_commands (events (engine_run env prototype_id w)) = [] ->
   length (progress_values j (events (engine_run env prototype_id w))) =
     length (steps_of (systems p)) ∧
   stamped ("Basladi" :: omap (step_msg p) (steps_of (systems p)) ++ ["Tamamlandi!"])
     (log_lines j (events (engine_run env prototype_id w)))) ∧
  (accepts w = true -> raised_commands (events (engine_run env prototype_id w)) ≠ [] ->
   ∃ m st msg e,
     steps_of (systems p) !! m = Some st ∧ step_msg p st = Some msg ∧
     length (progress_values j (events (engine_run env prototype_id w))) = m ∧
     stamped ("Basladi" :: omap (step_msg p) (take m (steps_of (systems p))) ++
              [msg; "HATA: " +:+ str e])
       (log_lines j (events (engine_run env prototype_id w)))) ∧
  (∀ st, step_msg p st = None ↔ ∃ key, st = StepSystem key ∧ SYSTEM_TEMPLATES !! key = None).
Proof.
  intros Hdb Hp Henv.
  destruct (engine_run_summary j p env prototype_id w Hdb Hp Henv) as (_ & Hsum).
  split.
  { intros i v Hi.
    destruct (engine_run_progress_lookup j p env prototype_id w i v Hdb Hp Henv Hi)
      as (Hlt & ->).
    rewrite steps_of_length. split; [exact Hlt |]. intros Hsmall.
    apply py_percent_floor; unfold len in *; lia. }
  split.
  { intros Hacc. destruct Hsum as [(_ & S) | [(Hacc' & _) | (Hacc' & _)]]; try congruence.
    destruct S as (-> & S & _). rewrite percents_length, steps_of_length. auto. }
  split.
  { intros Hacc Hra. destruct Hsum as [(Hacc' & _) | [(_ & S) | (_ & S)]]; try congruence.
    - destruct S as (-> & S & _). rewrite percents_length, steps_of_length. auto.
    - destruct S as (m & st & msg & c & ps & e & _ & _ & _ & _ & _ & _ & _ & Hra' & _).
      congruence. }
  split; [| intros st; apply step_msg_none].
  intros Hacc Hra. destruct Hsum as [(Hacc' & _) | [(_ & S) | (_ & S)]]; try congruence.
  - destruct S as (_ & _ & _ & _ & _ & Hra'). contradiction.
  - destruct S as (m & st & msg & c & ps & e & Hm & Hreq & -> & Hlog & _).
    exists m, st, msg, e. split; [exact Hm |].
    split; [unfold step_msg; rewrite Hreq; reflexivity |].
    split; [apply percents_length | exact Hlog].
Qed.

(** ** The bridge client's failures *)

Lemma send_command_connects c ps w :
  (connected (unity_bridge w) = false ->
   connects (events (run_under [] (send_command c ps w))) = [accepts w] ∧
   network (final (run_under [] (send_command c ps w))) = tail (network w)) ∧
  (connected (unity_bridge w) = true ->
   connects (events (run_under [] (send_command c ps w))) = [] ∧
   network (final (run_under [] (send_command c ps w))) = network w).
Proof.
  unfold send_command, bind, is_connected, try_except, socket_send, socket_recv_response,
    emit, raise, ret, set_connected, connect, accepts.
  cbn [bind_res prepend].
  split; intros Hc; rewrite Hc; cbn [negb bind_res prepend app].
  - destruct (network w) as [| [msg | s] rest] eqn:E; cbn; rewrite ?E;
      [split; reflexivity .. |].
    destruct (sock_sends s) as [| [msg |] sends']; cbn; [split; reflexivity .. |].
    destruct (recv_until_newline "" (sock_recvs s)) as [[e | response] recvs']; cbn;
      [split; reflexivity |].
    destruct (json_loads (strip response)) as [e | v]; cbn; split; reflexivity.
  - rewrite Hc. cbn [negb].
    destruct (socket (unity_bridge w)) as [s |]; cbn; [| split; reflexivity].
    destruct (sock_sends s) as [| [msg |] sends']; cbn; [split; reflexivity .. |].
    destruct (recv_until_newline "" (sock_recvs s)) as [[e | response] recvs']; cbn;
      [split; reflexivity |].
    destruct (json_loads (strip response)) as [e | v]; cbn; split; reflexivity.
Qed.

Lemma accepts_false_unavailable w :
  connected (unity_bridge w) = false -> accepts w = false -> unavailable w.
Proof.
  unfold accepts, unavailable. intros Hc Ha. split; [exact Hc |].
  intros s rest E. rewrite E in Ha. discriminate.
Qed.

(** C8: a [send_command] call returns or raises without suspending.  When
    the connection is not live it makes exactly one [connect()] attempt
    (none when it is live).  If the connection is still not live, the call
    raises the 503 [HTTPException], an exception its callers catch, having
    written nothing to the transport and left the store as it was.  When a
    transport or parse error [cause] occurs on a live connection, the
    connection is marked not live and the call raises the 500
    [HTTPException] whose detail carries [str(cause)]. *)
Theorem send_command_failures c ps w :
  ((∃ v evs w', send_command c ps w = Done v evs w') ∨
   (∃ code detail evs w', send_command c ps w = Raised (HTTPException code detail) evs w')) ∧
  (connected (unity_bridge w) = false ->
   connects (events (run_under [] (send_command c ps w))) = [accepts w] ∧
   network (final (run_under [] (send_command c ps w))) = tail (network w)) ∧
  (connected (unity_bridge w) = true ->
   connects (events (run_under [] (send_command c ps w))) = [] ∧
   network (final (run_under [] (send_command c ps w))) = network w) ∧
  (connected (unity_bridge w) = false -> accepts w = false ->
   outcome (run_under [] (send_command c ps w)) =
     inl (HTTPException 503 "Unity Bridge baglantisi yok") ∧
   events (run_under [] (send_command c ps w)) =
     [EvConnect false; EvRaise c (HTTPException 503 "Unity Bridge baglantisi yok")] ∧
   sent_commands (events (run_under [] (send_command c ps w))) = [] ∧
   connected (unity_bridge (final (run_under [] (send_command c ps w)))) = false ∧
   heap (final (run_under [] (send_command c ps w))) = heap w ∧
   prototypes_db (final (run_under [] (send_command c ps w))) = prototypes_db w) ∧
  (∀ s cause, live w s -> exchange s = inl cause ->
   outcome (run_under [] (send_command c ps w)) =
     inl (HTTPException 500 ("Unity komut hatasi: " +:+ str cause)) ∧
   raised_commands (events (run_under [] (send_command c ps w))) =
     [(c, HTTPException 500 ("Unity komut hatasi: " +:+ str cause))] ∧
   connected (unity_bridge (final (run_under [] (send_command c ps w)))) = false) ∧
  (∀ s value, live w s -> exchange s = inr value ->
   outcome (run_under [] (send_command c ps w)) = inr value ∧
   sent_commands (events (run_under [] (send_command c ps w))) = [(c, ps)] ∧
   connected (unity_bridge (final (run_under [] (send_command c ps w)))) = true).
Proof.
  split.
  { destruct (send_command_cases c ps w) as
      [(v & evs & w' & E & _) | (e & evs & w' & E & Hb & _)]; [left; eauto |].
    right. inversion Hb; subst; eauto. }
  split; [apply send_command_connects |]. split; [apply send_command_connects |].
  split.
  { intros Hc Ha.
    destruct (send_command_unavailable c ps w (accepts_false_unavailable w Hc Ha))
      as (w' & E & Hh & Hd & Hcon & _).
    rewrite E. cbn [run_under outcome events final]. repeat split; assumption || reflexivity. }
  split.
  - intros s cause Hl Hx. pose proof (send_command_live c ps w s Hl) as H.
    rewrite Hx in H. destruct H as (pre & sent & w' & E & Hpre & Hsent & _ & _ & Hcon).
    rewrite E. cbn [run_under outcome events final]. split; [reflexivity |].
    split; [| exact Hcon].
    rewrite !raised_commands_app. destruct Hpre as [-> | ->], Hsent as [-> | ->]; reflexivity.
  - intros s value Hl Hx. pose proof (send_command_live c ps w s Hl) as H.
    rewrite Hx in H. destruct H as (pre & w' & E & Hpre & _ & _ & Hcon).
    rewrite E. cbn [run_under outcome events final]. split; [reflexivity |].
    split; [| exact Hcon].
    rewrite sent_commands_app. destruct Hpre as [-> | ->]; reflexivity.
Qed.

(** ** The progress websocket *)










(** ** Jobs in the event loop *)

Lemma job_only_events j j' evs : job_only j evs -> j' ≠ j -> job_events j' evs = [].
Proof.
  intros H Hne. induction H as [| e evs He _ IH]; [reflexivity |].
  unfold job_events in *. cbn [omap list_omap]. destruct e as [l je | | | |]; try exact IH.
  subst l. destruct (decide (j = j')); [congruence | exact IH].
Qed.

Lemma job_only_bridge j evs : Forall bridge_event evs -> job_only j evs.
Proof.
  intros H. eapply Forall_impl; [exact H |]. intros [l je | | | |]; simpl; tauto.
Qed.

Lemma job_only_app j evs1 evs2 : job_only j evs1 -> job_only j evs2 -> job_only j (evs1 ++ evs2).
Proof. intros H1 H2. apply Forall_app. auto. Qed.

Lemma job_only_cons j e evs : job_only j evs -> job_only j (EvJob j e :: evs).
Proof. intros H. constructor; [reflexivity | exact H]. Qed.

Section AnyObservation.

Variable j : nat.
Variable p : Prototype.
Variable total : Z.

(** What the bridge-driven steps leave in a history, wherever they are. *)
Lemma steps_beh_any k sts evs o :
  steps_beh j p total k sts evs o ->
  progress_values j evs `prefix_of` expected_progress total k sts ∧
  statuses j evs = [] ∧ completions j evs = [] ∧ job_only j evs.
Proof.
  induction 1 as [k | k st rest evs o' Hr _ IH | k st rest msg c ps t cevs v evs o' Hr Hc _ IH
                 | k st rest msg c ps t cevs v Hr Hs Hc | k st rest msg c ps t cevs e Hr Hc].
  - repeat split; [apply prefix_nil | constructor].
  - destruct IH as (H1 & H2 & H3 & H4).
    unfold progress_values, statuses, completions in *. rewrite job_events_cons_job.
    cbn [omap list_omap progress_of status_of expected_progress].
    repeat split; try assumption; [apply prefix_cons, H1 | apply job_only_cons, H4].
  - destruct IH as (H1 & H2 & H3 & H4).
    unfold progress_values, statuses, completions in *.
    rewrite job_events_cons_job, job_events_app, (command_beh_job_events j _ _ _ _ Hc),
      job_events_cons_job.
    cbn [omap list_omap progress_of status_of app expected_progress].
    repeat split; try assumption; [apply prefix_cons, H1 |].
    apply job_only_cons, job_only_app;
      [apply job_only_bridge, (command_beh_bridge _ _ _ _ Hc) | apply job_only_cons, H4].
  - unfold progress_values, statuses, completions.
    rewrite job_events_cons_job, (command_beh_job_events j _ _ _ _ Hc).
    cbn [omap list_omap progress_of status_of].
    repeat split; [apply prefix_nil |].
    apply job_only_cons, job_only_bridge, (command_beh_bridge _ _ _ _ Hc).
  - unfold progress_values, statuses, completions.
    rewrite job_events_cons_job, (command_beh_job_events j _ _ _ _ Hc).
    cbn [omap list_omap progress_of status_of].
    repeat split; [apply prefix_nil |].
    apply job_only_cons, job_only_bridge, (command_beh_bridge _ _ _ _ Hc).
Qed.

Lemma sim_beh_any i sts evs o :
  sim_beh j total i sts evs o ->
  progress_values j evs `prefix_of` percents total i (length sts) ∧
  statuses j evs = [] ∧ completions j evs = [] ∧ job_only j evs.
Proof.
  induction 1 as [i | i st rest | i st rest t evs o' _ IH].
  - repeat split; [apply prefix_nil | constructor].
  - repeat split; [apply prefix_nil | constructor].
  - destruct IH as (H1 & H2 & H3 & H4).
    unfold progress_values, statuses, completions in *. rewrite !job_events_cons_job.
    cbn [omap list_omap progress_of status_of length percents].
    repeat split; try assumption; [apply prefix_cons, H1 | apply job_only_cons, job_only_cons, H4].
Qed.

End AnyObservation.

Lemma job_only_prelude j pre ok rest :
  prelude j pre -> job_only j rest -> job_only j (pre ++ EvConnect ok :: rest).
Proof.
  intros [t ->] H. cbn [app]. apply job_only_cons, job_only_cons. constructor; [exact I | exact H].
Qed.

Lemma job_only_completion j msg fin : completion j msg fin -> job_only j fin.
Proof. intros (t & t' & ->). repeat apply job_only_cons. constructor. Qed.

Lemma job_only_failure j e fin : failure j e fin -> job_only j fin.
Proof. intros (t & ->). repeat apply job_only_cons. constructor. Qed.

Section EngineHistory.

Variable j : nat.
Variable p : Prototype.

Local Abbreviation total := (len (systems p) + 3)%Z.
Local Abbreviation scale := (percents (len (systems p) + 3) 0 (length (systems p) + 3)).

(** The history of the engine at any observation: suspended, completed or
    failed. *)
Lemma generate_beh_any evs o :
  generate_beh j p evs o ->
  job_only j evs ∧
  progress_values j evs `prefix_of` scale ∧
  ((o = OPaused ∧ statuses j evs = ["generating"] ∧ completions j evs = []) ∨
   (o = ODone tt ∧ statuses j evs = ["generating"; "completed"] ∧
    (∃ t, completions j evs = [isoformat t]) ∧ progress_values j evs = scale) ∨
   (o = ODone tt ∧ statuses j evs = ["generating"; "failed"] ∧ completions j evs = [])).
Proof.
  intros H.
  inversion H as [pre sevs Hpre Hs | pre sevs fin Hpre Hs Hfin | pre sevs Hpre Hs
                  | pre sevs fin Hpre Hs Hfin | pre sevs e fin Hpre Hs Hfin]; subst.
  - destruct (sim_beh_any j total 0 _ _ _ Hs) as (S1 & S2 & S3 & S4).
    rewrite steps_of_length in S1.
    destruct (prelude_projections j pre false sevs [] Hpre) as (P1 & _ & P3 & P4 & _).
    rewrite app_nil_r in P1, P3, P4.
    split; [apply job_only_prelude; assumption |].
    rewrite P1, P3, P4, S2, S3, app_nil_r. split; [exact S1 | left; auto].
  - destruct (sim_beh_done j total 0 _ _ Hs) as (S1 & _ & _ & _ & S2 & S3).
    destruct (sim_beh_any j total 0 _ _ _ Hs) as (_ & _ & _ & S4).
    rewrite steps_of_length in S1.
    destruct (completion_projections j _ _ Hfin) as (F1 & _ & F3 & F4 & _).
    destruct (prelude_projections j pre false sevs fin Hpre) as (P1 & _ & P3 & P4 & _).
    split.
    { apply job_only_prelude; [assumption |].
      apply job_only_app; [exact S4 | eapply job_only_completion, Hfin]. }
    rewrite P1, P3, P4, S1, S2, S3, F1, F3, app_nil_r. split; [reflexivity |].
    right. left. repeat split. exact F4.
  - destruct (steps_beh_any j p total 0 _ _ _ Hs) as (S1 & S2 & S3 & S4).
    rewrite expected_progress_steps in S1.
    destruct (prelude_projections j pre true sevs [] Hpre) as (P1 & _ & P3 & P4 & _).
    rewrite app_nil_r in P1, P3, P4.
    split; [apply job_only_prelude; assumption |].
    rewrite P1, P3, P4, S2, S3, app_nil_r. split; [exact S1 | left; auto].
  - destruct (steps_beh_done j p total 0 _ _ Hs) as (S1 & _ & _ & _ & S2 & S3).
    destruct (steps_beh_any j p total 0 _ _ _ Hs) as (_ & _ & _ & S4).
    rewrite expected_progress_steps in S1.
    destruct (completion_projections j _ _ Hfin) as (F1 & _ & F3 & F4 & _).
    destruct (prelude_projections j pre true sevs fin Hpre) as (P1 & _ & P3 & P4 & _).
    split.
    { apply job_only_prelude; [assumption |].
      apply job_only_app; [exact S4 | eapply job_only_completion, Hfin]. }
    rewrite P1, P3, P4, S1, S2, S3, F1, F3, app_nil_r. split; [reflexivity |].
    right. left. repeat split. exact F4.
  - destruct (steps_beh_any j p total 0 _ _ _ Hs) as (S1 & S2 & S3 & S4).
    rewrite expected_progress_steps in S1.
    destruct (failure_projections j _ _ Hfin) as (F1 & _ & F3 & F4 & _).
    destruct (prelude_projections j pre true sevs fin Hpre) as (P1 & _ & P3 & P4 & _).
    split.
    { apply job_only_prelude; [assumption |].
      apply job_only_app; [exact S4 | eapply job_only_failure, Hfin]. }
    rewrite P1, P3, P4, S2, S3, F1, F3, F4, app_nil_r. split; [exact S1 |].
    right. right. auto.
Qed.

End EngineHistory.

(** *** One step of the event loop keeps every job's invariant *)

Lemma wp_block {A} j (r : Res A) w0 acc P :
  wp j r w0 acc P -> P (res_obs r) w0 (acc ++ res_events r) (res_world r).
Proof. destruct r; simpl; tauto. Qed.

Lemma step_resume s i prototype_id (k : Coro unit) :
  tasks s !! i = Some (Some (prototype_id, k)) ->
  step (Resume i) s =
    {| world := res_world (k (world s));
       tasks := <[i := res_task prototype_id (k (world s))]> (tasks s);
       history := history s ++ res_events (k (world s)) |}.
Proof. intros H. unfold step. rewrite H. destruct (k (world s)); reflexivity. Qed.

Lemma task_inv_transfer s s' j :
  heap (world s') !! j = heap (world s) !! j ->
  job_events j (history s') = job_events j (history s) ->
  tasks s' !! j = tasks s !! j ->
  (∀ prototype_id, prototypes_db (world s) !! prototype_id = Some j ->
                   prototypes_db (world s') !! prototype_id = Some j) ->
  task_inv s j -> task_inv s' j.
Proof.
  intros Hh He Ht Hd (p0 & acc & Hc & Hheap & Hev & Htask).
  exists p0, acc. rewrite Hh, He, Ht.
  split; [exact Hc |]. split; [exact Hheap |]. split; [exact Hev |].
  destruct (tasks s !! j) as [[[prototype_id k] |] |]; [| exact Htask | exact Htask].
  destruct Htask as (Hdb & Hacc & Hwp). split; [apply Hd, Hdb |]. split; [exact Hacc |].
  intros w' Hw'. apply Hwp. exact Hw'.
Qed.

Lemma step_submit request uuid4 s :
  ∃ p0,
    created p0 ∧
    step (Submit request uuid4) s =
      {| world := {| heap := heap (world s) ++ [p0];
                     prototypes_db := <[String.substring 0 8 uuid4 := length (heap (world s))]>
                                        (prototypes_db (world s));
                     unity_bridge := unity_bridge (world s);
                     network := network (world s);
                     clock := S (clock (world s)) |};
         tasks := tasks s ++ [Some (String.substring 0 8 uuid4,
                                    generate_prototype (String.substring 0 8 uuid4))];
         history := history s |}.
Proof. eexists. split; [| reflexivity]. repeat split. Qed.

Lemma submit_inv request uuid4 s :
  system_inv s ->
  prototypes_db (world s) !! String.substring 0 8 uuid4 = None ->
  system_inv (step (Submit request uuid4) s).
Proof.
  intros (Hlen & Hout & Hjobs) Hfresh.
  destruct (step_submit request uuid4 s) as (p0 & Hc & ->).
  split; [| split]; cbn [world tasks history heap].
  - rewrite !length_app. simpl. lia.
  - intros j Hj. apply Hout. rewrite length_app in Hj. simpl in Hj. lia.
  - intros j Hj. rewrite length_app in Hj. simpl in Hj.
    destruct (decide (j = length (heap (world s)))) as [-> | Hne].
    + exists p0, []. split; [exact Hc |].
      cbn [world heap history tasks prototypes_db replay foldl].
      rewrite lookup_app_r by lia. rewrite Nat.sub_diag.
      split; [reflexivity |]. split; [apply Hout; lia |].
      rewrite lookup_app_r by lia. rewrite Hlen, Nat.sub_diag. cbn [lookup list_lookup].
      split; [apply lookup_insert_eq |]. split; [left; reflexivity |].
      intros w' Hw' Hdb. cbn [lookup list_lookup] in Hw'.
      apply generate_prototype_wp with (j := length (heap (world s))) (p := p0);
        [exact Hdb | apply frame_refl | exact Hw' |].
      intros o evs w0' w'' Hb Hf Hh. cbn [app]. split; [exact Hb |]. split; [exact Hf | exact Hh].
    + apply (task_inv_transfer s); cbn [world heap history tasks prototypes_db].
      * apply lookup_app_l. lia.
      * reflexivity.
      * apply lookup_app_l. lia.
      * intros prototype_id Hdb. rewrite lookup_insert_ne; [exact Hdb | congruence].
      * apply Hjobs. lia.
Qed.

Lemma resume_inv i s : system_inv s -> system_inv (step (Resume i) s).
Proof.
  intros (Hlen & Hout & Hjobs).
  destruct (tasks s !! i) as [[[prototype_id k] |] |] eqn:Ht;
    [| unfold step; rewrite Ht; repeat split; assumption ..].
  assert (Hi : (i < length (heap (world s)))%nat).
  { rewrite <- Hlen. eapply lookup_lt_Some, Ht. }
  rewrite (step_resume s i prototype_id k Ht).
  destruct (Hjobs i Hi) as (p0 & acc & Hc & Hheap & Hev & Htask). rewrite Ht in Htask.
  destruct Htask as (Hdb & Hacc & Hwp).
  specialize (Hwp (world s) eq_refl Hdb).
  destruct (wp_block _ _ _ _ _ Hwp) as (Hbeh & (Hfdb & Hflen & Hfheap) & Hh').
  destruct (generate_beh_any i p0 _ _ Hbeh) as (Honly & _).
  apply Forall_app in Honly as [_ Honly].
  split; [| split]; cbn [world tasks history].
  - rewrite length_insert, Hflen. exact Hlen.
  - intros j Hj. rewrite Hflen in Hj. rewrite job_events_app, (Hout j Hj).
    apply (job_only_events i); [exact Honly | lia].
  - intros j Hj. rewrite Hflen in Hj.
    destruct (decide (j = i)) as [-> | Hne].
    + exists p0, (acc ++ res_events (k (world s))).
      cbn [world tasks history]. split; [exact Hc |]. split; [exact Hh' |].
      split; [rewrite !job_events_app, Hev; reflexivity |].
      rewrite list_lookup_insert_eq by (rewrite Hlen; exact Hi).
      destruct (k (world s)) as [[] evs w' | e evs w' | evs w' k'];
        cbn [res_task res_obs res_events res_world] in *.
      * exact Hbeh.
      * inversion Hbeh.
      * split; [rewrite Hfdb; exact Hdb |]. split; [right; exact Hbeh |].
        intros w'' Hw'' _. destruct Hwp as [_ Hwp]. apply Hwp. exact Hw''.
    + apply (task_inv_transfer s); cbn [world heap history tasks].
      * apply Hfheap, Hne.
      * rewrite job_events_app, (job_only_events i j _ Honly Hne), app_nil_r. reflexivity.
      * apply list_lookup_insert_ne. congruence.
      * intros id Hid. rewrite Hfdb. exact Hid.
      * apply Hjobs, Hj.
Qed.

Lemma initial_inv net t0 : system_inv (initial net t0).
Proof.
  split; [reflexivity |]. split; [reflexivity |]. cbn. intros j Hj. lia.
Qed.

Lemma exec_inv ls : ∀ s, system_inv s -> fresh_ids ls s -> system_inv (exec ls s).
Proof.
  induction ls as [| l ls IH]; intros s Hinv Hfresh; [exact Hinv |].
  destruct Hfresh as [Hl Hrest]. unfold exec. cbn [foldl]. apply IH; [| exact Hrest].
  destruct l as [request uuid4 | i]; [apply submit_inv | apply resume_inv]; assumption.
Qed.

(** *** What the invariant says of a job *)


Lemma job_history s j p :
  task_inv s j ->
  heap (world s) !! j = Some p ->
  lifecycle (statuses j (history s)) ∧
  status p = default "queued" (last (statuses j (history s))) ∧
  progress p = default 0%Z (last (progress_values j (history s))) ∧
  progress_values j (history s)
    `prefix_of` percents (len (systems p) + 3) 0 (length (systems p) + 3) ∧
  (status p = "completed" ->
   progress_values j (history s) = percents (len (systems p) + 3) 0 (length (systems p) + 3) ∧
   is_Some (completedAt p)) ∧
  (is_terminal (status p) = true -> tasks s !! j = Some None).
Proof.
  intros (p0 & acc & (Hst & Hpr & Hlg & Hco) & Hheap & Hev & Htask) Hp.
  rewrite Hheap in Hp. injection Hp as <-.
  destruct (same_request_replay j p0 p0 acc (same_request_refl p0)) as (_ & _ & Hsys).
  rewrite Hsys.
  unfold statuses, progress_values. rewrite Hev.
  fold (statuses j acc). fold (progress_values j acc).
  rewrite replay_status, replay_progress, replay_completedAt, Hst, Hpr, Hco.
  assert (Hcases : (acc = [] ∧ tasks s !! j ≠ Some None) ∨
                   ∃ o, generate_beh j p0 acc o ∧
                        (o = OPaused ∧ tasks s !! j ≠ Some None ∨ tasks s !! j = Some None)).
  { destruct (tasks s !! j) as [[[prototype_id k] |] |]; [| | contradiction].
    - destruct Htask as (_ & [-> | Hb] & _); [left; split; [reflexivity | discriminate] |].
      right. exists OPaused. split; [exact Hb |]. left. split; [reflexivity | discriminate].
    - right. exists (ODone tt). auto. }
  destruct Hcases as [[-> Hlive] | (o & Hb & Ho)].
  - cbn. repeat split; [left; reflexivity | apply prefix_nil | discriminate .. |].
    intros H. discriminate.
  - destruct (generate_beh_any j p0 acc o Hb) as (_ & Hpre & Hkinds).
    destruct Hkinds as [(-> & S & C) | [(-> & S & (t & C) & P) | (-> & S & C)]];
      rewrite S, ?C; cbn [last default].
    + repeat split; [right; left; reflexivity | exact Hpre | discriminate .. |].
      intros H. discriminate.
    + repeat split; [right; right; left; reflexivity | exact Hpre | exact P | eauto |].
      intros _. destruct Ho as [[Ho _] | Ho]; [discriminate | exact Ho].
    + repeat split; [right; right; right; reflexivity | exact Hpre | discriminate .. |].
      intros _. destruct Ho as [[Ho _] | Ho]; [discriminate | exact Ho].
Qed.



Lemma exec_app ls ls' s : exec (ls ++ ls') s = exec ls' (exec ls s).
Proof. unfold exec. apply foldl_app. Qed.

Lemma fresh_ids_app ls ls' s :
  fresh_ids (ls ++ ls') s -> fresh_ids ls s ∧ fresh_ids ls' (exec ls s).
Proof.
  revert s. induction ls as [| l ls IH]; intros s H; [split; [exact I | exact H] |].
  destruct H as [Hl Hrest]. destruct (IH _ Hrest) as [H1 H2]. repeat split; assumption.
Qed.

(** *** Progress is assigned while the job is generating *)









(** ** The claims about every job of the service *)




(** * Further properties of the code *)

(** ** The job store *)

Lemma create_prototype_world request uuid4 w :
  heap (create_prototype request uuid4 w).2 = heap w ++ [(create_prototype request uuid4 w).1.1] ∧
  prototypes_db (create_prototype request uuid4 w).2 =
    <[String.substring 0 8 uuid4 := length (heap w)]> (prototypes_db w).
Proof. split; reflexivity. Qed.

Lemma get_prototype_stored prototype_id w j p :
  prototypes_db w !! prototype_id = Some j -> heap w !! j = Some p ->
  get_prototype prototype_id w = inr p.
Proof. intros Hj Hp. unfold get_prototype. rewrite Hj, Hp. reflexivity. Qed.

(** X1: [get_prototype] after [create_prototype] returns the dict just
    created, and every other identifier answers as before; in a store
    without dangling entries [get_prototype] gives the 404 exactly for the
    identifiers that were never stored, and [create_prototype] keeps the
    store that way. *)
Theorem get_after_create request uuid4 w :
  store_ok w ->
  get_prototype (String.substring 0 8 uuid4) (create_prototype request uuid4 w).2 =
    inr (create_prototype request uuid4 w).1.1 ∧
  (∀ prototype_id, prototype_id ≠ String.substring 0 8 uuid4 ->
     get_prototype prototype_id (create_prototype request uuid4 w).2 =
     get_prototype prototype_id w) ∧
  (∀ prototype_id,
     get_prototype prototype_id w = inl (HTTPException 404 "Prototip bulunamadi") ↔
     prototypes_db w !! prototype_id = None) ∧
  store_ok (create_prototype request uuid4 w).2.
Proof.
  intros Hok. destruct (create_prototype_world request uuid4 w) as [Hh Hd].
  split; [| split; [| split]].
  - apply (get_prototype_stored _ _ (length (heap w))).
    + rewrite Hd. apply lookup_insert_eq.
    + rewrite Hh, lookup_app_r by lia. rewrite Nat.sub_diag. reflexivity.
  - intros prototype_id Hne. unfold get_prototype. rewrite Hd, Hh.
    rewrite lookup_insert_ne by congruence.
    destruct (prototypes_db w !! prototype_id) as [j |] eqn:Hj; [| reflexivity].
    rewrite lookup_app_l by (eapply Hok, Hj). reflexivity.
  - intros prototype_id. unfold get_prototype.
    destruct (prototypes_db w !! prototype_id) as [j |] eqn:Hj.
    + destruct (lookup_lt_is_Some_2 _ _ (Hok _ _ Hj)) as [p Hp]. rewrite Hp.
      split; discriminate.
    + split; reflexivity.
  - intros prototype_id j. rewrite Hd, Hh, length_app. cbn [length].
    destruct (decide (prototype_id = String.substring 0 8 uuid4)) as [-> | Hne].
    + rewrite lookup_insert_eq. intros [= <-]. lia.
    + rewrite lookup_insert_ne by congruence. intros Hj. specialize (Hok _ _ Hj). lia.
Qed.

(** X2: the identifier is only the first eight characters of the uuid.
    When a second request draws a uuid with the same eight characters, the
    later job takes the identifier: [get_prototype] returns it, no
    identifier names the earlier dict any more, and the earlier dict is
    still in memory as it was. *)
Theorem colliding_identifier_replaces request1 uuid1 request2 uuid2 w :
  store_ok w ->
  String.substring 0 8 uuid1 = String.substring 0 8 uuid2 ->
  get_prototype (String.substring 0 8 uuid1)
    (create_prototype request2 uuid2 (create_prototype request1 uuid1 w).2).2 =
    inr (create_prototype request2 uuid2 (create_prototype request1 uuid1 w).2).1.1 ∧
  (∀ prototype_id,
     prototypes_db (create_prototype request2 uuid2 (create_prototype request1 uuid1 w).2).2
       !! prototype_id ≠ Some (length (heap w))) ∧
  heap (create_prototype request2 uuid2 (create_prototype request1 uuid1 w).2).2
    !! length (heap w) = Some (create_prototype request1 uuid1 w).1.1.
Proof.
  intros Hok Hsame.
  set (w1 := (create_prototype request1 uuid1 w).2).
  destruct (create_prototype_world request1 uuid1 w) as [Hh1 Hd1].
  destruct (create_prototype_world request2 uuid2 w1) as [Hh2 Hd2].
  fold w1 in Hh1, Hd1.
  split; [| split].
  - rewrite Hsame. apply (get_prototype_stored _ _ (length (heap w1))).
    + rewrite Hd2. apply lookup_insert_eq.
    + rewrite Hh2, lookup_app_r by lia. rewrite Nat.sub_diag. reflexivity.
  - intros prototype_id. rewrite Hd2, Hd1, Hsame, insert_insert_eq, Hh1, length_app. cbn [length].
    destruct (decide (prototype_id = String.substring 0 8 uuid2)) as [-> | Hne].
    + rewrite lookup_insert_eq. intros [= H]. lia.
    + rewrite lookup_insert_ne by congruence. intros Hj. specialize (Hok _ _ Hj). lia.
  - rewrite Hh2, Hh1. rewrite lookup_app_l by (rewrite length_app; simpl; lia).
    rewrite lookup_app_r by lia. rewrite Nat.sub_diag. reflexivity.
Qed.

(** ** The bridge client *)

Lemma append_empty_r (s : string) : s +:+ "" = s.
Proof.
  induction s as [| c s IH]; [reflexivity |].
  change (String c s +:+ "") with (String c (s +:+ "")). f_equal. exact IH.
Qed.

Lemma append_assoc3 (s1 s2 s3 : string) : (s1 +:+ s2) +:+ s3 = s1 +:+ (s2 +:+ s3).
Proof.
  induction s1 as [| c s1 IH]; [reflexivity |].
  change (String c ((s1 +:+ s2) +:+ s3) = String c (s1 +:+ (s2 +:+ s3))). f_equal. exact IH.
Qed.

Lemma recv_until_newline_done response recvs :
  endswith_newline response = true ->
  recv_until_newline response recvs = (inr response, recvs).
Proof. intros H. destruct recvs; simpl; rewrite H; reflexivity. Qed.

Lemma recv_until_newline_step response e recvs :
  endswith_newline response = false ->
  recv_until_newline response (e :: recvs) =
  match e with
  | RecvError msg => (inl (Error msg), recvs)
  | Chunk EmptyString => (inr response, recvs)
  | Chunk chunk => recv_until_newline (response +:+ chunk) recvs
  end.
Proof. intros H. simpl. rewrite H. destruct e as [[| c chunk] | msg]; reflexivity. Qed.

(** X3: the receive loop of [send_command].  When it yields a response,
    the response is the text received so far followed by the chunks it
    consumed, all non-empty; it never stopped earlier although the text
    ended in a newline; it stopped either because the text now ends in a
    newline, or because the peer closed (an empty chunk, which it consumes);
    and what follows in the stream is left unread.  A newline inside a
    chunk, or followed by more bytes in the same chunk, does not end the
    loop. *)
Theorem recv_until_newline_frames recvs : ∀ response r rest,
  recv_until_newline response recvs = (inr r, rest) ->
  ∃ chunks closing,
    recvs = (Chunk <$> chunks) ++ closing ++ rest ∧
    r = response +:+ chunks_text chunks ∧
    Forall (fun chunk => chunk ≠ "") chunks ∧
    (∀ n, (n < length chunks)%nat ->
          endswith_newline (response +:+ chunks_text (take n chunks)) = false) ∧
    ((closing = [] ∧ endswith_newline r = true) ∨
     (closing = [Chunk ""] ∧ endswith_newline r = false)).
Proof.
  induction recvs as [| e recvs IH]; intros response r rest H.
  - simpl in H. destruct (endswith_newline response) eqn:E; [| discriminate].
    injection H as <- <-. exists [], []. cbn. rewrite append_empty_r.
    repeat split; [constructor | intros n Hn; lia | auto].
  - destruct (endswith_newline response) eqn:E.
    + rewrite (recv_until_newline_done _ _ E) in H. injection H as <- <-.
      exists [], []. cbn. rewrite append_empty_r.
      repeat split; [constructor | intros n Hn; lia | auto].
    + rewrite (recv_until_newline_step _ _ _ E) in H.
      destruct e as [[| c chunk] | msg]; [| | discriminate].
      * injection H as <- <-. exists [], [Chunk ""]. cbn. rewrite append_empty_r.
        repeat split; [constructor | intros n Hn; lia | auto].
      * destruct (IH _ _ _ H) as (chunks & closing & -> & -> & Hne & Hearly & Hend).
        exists (String c chunk :: chunks), closing.
        cbn [fmap list_fmap app chunks_text foldr].
        split; [reflexivity |]. split; [apply append_assoc3 |].
        split; [constructor; [discriminate | exact Hne] |].
        split.
        { intros [| n] Hn; cbn [take chunks_text foldr].
          - rewrite append_empty_r. exact E.
          - rewrite <- append_assoc3. apply Hearly. simpl in Hn. lia. }
        exact Hend.
Qed.

Lemma send_command_health c ps w :
  (∀ value, outcome (run_under [] (send_command c ps w)) = inr value ->
            connected (unity_bridge (final (run_under [] (send_command c ps w)))) = true ∧
            is_Some (socket (unity_bridge (final (run_under [] (send_command c ps w)))))) ∧
  (∀ e, outcome (run_under [] (send_command c ps w)) = inl e ->
        connected (unity_bridge (final (run_under [] (send_command c ps w)))) = false).
Proof.
  unfold send_command, bind, is_connected, try_except, socket_send, socket_recv_response,
    emit, raise, ret, set_connected, connect.
  cbn [bind_res prepend].
  destruct (connected (unity_bridge w)) eqn:Hc; cbn [negb bind_res prepend app].
  - rewrite Hc. cbn [negb].
    destruct (socket (unity_bridge w)) as [s |]; cbn;
      [| split; [intros v H; discriminate | reflexivity]].
    destruct (sock_sends s) as [| [msg |] sends']; cbn;
      [split; [intros v H; discriminate | reflexivity] .. |].
    destruct (recv_until_newline "" (sock_recvs s)) as [[e | response] recvs']; cbn;
      [split; [intros v H; discriminate | reflexivity] |].
    destruct (json_loads (strip response)) as [e | v]; cbn;
      [split; [intros v H; discriminate | reflexivity] |].
    split; [intros v' _; rewrite Hc; eauto | intros e H; discriminate].
  - destruct (network w) as [| [msg | s] rest] eqn:E; cbn;
      [split; [intros v H; discriminate | reflexivity] .. |].
    destruct (sock_sends s) as [| [msg |] sends']; cbn;
      [split; [intros v H; discriminate | reflexivity] .. |].
    destruct (recv_until_newline "" (sock_recvs s)) as [[e | response] recvs']; cbn;
      [split; [intros v H; discriminate | reflexivity] |].
    destruct (json_loads (strip response)) as [e | v]; cbn;
      [split; [intros v H; discriminate | reflexivity] |].
    split; [intros v' _; eauto | intros e H; discriminate].
Qed.

Lemma connect_result w :
  outcome (run_under [] (connect w)) = inr (accepts w) ∧
  connected (unity_bridge (final (run_under [] (connect w)))) = accepts w ∧
  is_Some (socket (unity_bridge (final (run_under [] (connect w))))) ∧
  heap (final (run_under [] (connect w))) = heap w ∧
  prototypes_db (final (run_under [] (connect w))) = prototypes_db w.
Proof.
  unfold connect, accepts. destruct (network w) as [| [msg | s] rest]; cbn; eauto 6.
Qed.

(** X4: the client object keeps its invariant: after [connect] and after
    [send_command], however they end, and after [disconnect], a connection
    marked live has a socket.  [connect] never raises and returns the flag
    it leaves.  Under the invariant a call of [send_command] either finds
    no connection (503) or exchanges on a socket, so the cause carried by a
    500 is a transport or parse error of that exchange, never a missing
    socket. *)
Theorem bridge_client_invariant c ps w :
  bridge_ok (final (run_under [] (connect w))) ∧
  outcome (run_under [] (connect w)) =
    inr (connected (unity_bridge (final (run_under [] (connect w))))) ∧
  bridge_ok (final (run_under [] (send_command c ps w))) ∧
  (bridge_ok w -> bridge_ok (disconnect w)) ∧
  (bridge_ok w ->
   ∀ e, outcome (run_under [] (send_command c ps w)) = inl e ->
        e = HTTPException 503 "Unity Bridge baglantisi yok" ∨
        ∃ s cause, live w s ∧ exchange s = inl cause ∧
                   e = HTTPException 500 ("Unity komut hatasi: " +:+ str cause)).
Proof.
  destruct (connect_result w) as (Hout & Hflag & Hsock & _).
  split; [intros _; exact Hsock |].
  split; [rewrite Hout, Hflag; reflexivity |].
  split.
  { intros Hc. destruct (send_command_health c ps w) as [Hok Hfail].
    destruct (outcome (run_under [] (send_command c ps w))) as [e | v] eqn:Ho.
    - rewrite (Hfail e eq_refl) in Hc. discriminate.
    - apply (Hok v eq_refl). }
  split.
  { intros Hw. unfold disconnect.
    destruct (socket (unity_bridge w)) as [s |] eqn:Hs; [intros H; discriminate | exact Hw]. }
  intros Hw e He.
  destruct (live_or_not w) as [[s Hl] | [Hu | [Hc Hs]]].
  - pose proof (send_command_live c ps w s Hl) as H.
    destruct (exchange s) as [cause | v] eqn:Hx.
    + destruct H as (pre & sent & w' & E & _). rewrite E in He. injection He as <-.
      right. exists s, cause. auto.
    + destruct H as (pre & w' & E & _). rewrite E in He. discriminate.
  - destruct (send_command_unavailable c ps w Hu) as (w' & E & _).
    rewrite E in He. injection He as <-. left. reflexivity.
  - destruct (Hw Hc) as [s Hs']. congruence.
Qed.

(** X5: what [health_check] reports about the bridge follows the last
    call: "connected" right after a command that returned, "disconnected"
    right after a command that raised and after [disconnect] of a client
    that has a socket; the queue length it reports is 0. *)
Theorem health_follows_last_call c ps w :
  (∀ value, outcome (run_under [] (send_command c ps w)) = inr value ->
     health_check (final (run_under [] (send_command c ps w))) =
       JDict [("api", JStr "healthy"); ("unity_bridge", JStr "connected");
              ("queue_length", JNum 0)]) ∧
  (∀ e, outcome (run_under [] (send_command c ps w)) = inl e ->
     health_check (final (run_under [] (send_command c ps w))) =
       JDict [("api", JStr "healthy"); ("unity_bridge", JStr "disconnected");
              ("queue_length", JNum 0)]) ∧
  (is_Some (socket (unity_bridge w)) ->
     health_check (disconnect w) =
       JDict [("api", JStr "healthy"); ("unity_bridge", JStr "disconnected");
              ("queue_length", JNum 0)] ∧
     connects (events (run_under [] (send_command c ps (disconnect w)))) = [accepts w]).
Proof.
  destruct (send_command_health c ps w) as [Hok Hfail].
  split; [| split].
  - intros v Hv. unfold health_check. destruct (Hok v Hv) as [-> _]. reflexivity.
  - intros e He. unfold health_check. rewrite (Hfail e He). reflexivity.
  - intros [s Hs].
    assert (Hd : disconnect w = set_bridge {| socket := Some dead_socket; connected := false |} w).
    { unfold disconnect. rewrite Hs. reflexivity. }
    rewrite Hd. split; [reflexivity |].
    destruct (send_command_connects c ps
                (set_bridge {| socket := Some dead_socket; connected := false |} w))
      as [H _].
    destruct (H eq_refl) as [-> _]. reflexivity.
Qed.

(** ** The generation engine *)

(** X6: [generate_prototype] reads [prototypes_db[prototype_id]] before its
    [try]: for an identifier that is not stored it raises [KeyError] at
    once, having written and sent nothing.  For a stored job it never
    raises, whatever the bridge does: every run returns, and a command
    that failed shows only as the job's [failed] status. *)
Theorem generate_prototype_raises_only_keyerror prototype_id w :
  (prototypes_db w !! prototype_id = None ->
   generate_prototype prototype_id w = Raised (KeyError prototype_id) [] w) ∧
  (∀ j p env,
     prototypes_db w !! prototype_id = Some j -> heap w !! j = Some p ->
     Forall (respects j) env ->
     outcome (engine_run env prototype_id w) = inr tt ∧
     (raised_commands (events (engine_run env prototype_id w)) ≠ [] ->
      ∃ p', heap (final (engine_run env prototype_id w)) !! j = Some p' ∧
            status p' = "failed")).
Proof.
  split.
  - intros H. unfold generate_prototype, bind, db_getitem. rewrite H. reflexivity.
  - intros j p env Hdb Hp Henv.
    destruct (engine_run_beh j p env prototype_id w Hdb Hp Henv) as (Hout & _ & Hh).
    split; [exact Hout |]. intros Hraised.
    destruct (engine_run_failed j p env prototype_id w Hdb Hp Henv Hraised)
      as (_ & m & st & msg & c & ps & e & t0 & done & t & cpre & t1 & _ & _ & _ & _ & _ & _ & Hev).
    eexists. split; [exact Hh |]. rewrite Hev, replay_app, replay_handler. reflexivity.
Qed.

Lemma step_command_system p key : step_command p (StepSystem key) = import_command p key.
Proof.
  unfold step_command, import_command. simpl.
  destruct (SYSTEM_TEMPLATES !! key); reflexivity.
Qed.

Lemma omap_step_command_systems p (requested : list string) :
  omap (step_command p) (StepSystem <$> requested) = omap (import_command p) requested.
Proof.
  induction requested as [| key rest IH]; [reflexivity |].
  cbn [fmap list_fmap omap list_omap]. rewrite step_command_system, IH. reflexivity.
Qed.

Lemma generation_commands_steps p :
  omap (step_command p) (steps_of (systems p)) = generation_commands p.
Proof.
  unfold steps_of, generation_commands.
  change (StepScene :: (StepSystem <$> systems p) ++ [StepPlayer; StepUI])
    with ([StepScene] ++ (StepSystem <$> systems p) ++ [StepPlayer; StepUI]).
  rewrite !omap_app, omap_step_command_systems. reflexivity.
Qed.

(** X7: the commands a run writes to the bridge are, in order, a prefix of:
    [SetupSceneStructure], one [ImportVaultSystem] per requested key that
    the catalog holds (in request order, a repeated key repeated),
    [SetupPlayer], [SetupGameUI].  A bridge-driven run in which no command
    fails writes all of them; a simulated run writes none. *)
Theorem commands_in_source_order env prototype_id w j p :
  prototypes_db w !! prototype_id = Some j ->
  heap w !! j = Some p ->
  Forall (respects j) env ->
  sent_commands (events (engine_run env prototype_id w)) `prefix_of` generation_commands p ∧
  (accepts w = true -> raised_commands (events (engine_run env prototype_id w)) = [] ->
   sent_commands (events (engine_run env prototype_id w)) = generation_commands p) ∧
  (accepts w = false -> sent_commands (events (engine_run env prototype_id w)) = []) ∧
  length (generation_commands p) =
    (3 + length (filter (fun key => is_Some (SYSTEM_TEMPLATES !! key)) (systems p)))%nat.
Proof.
  intros Hdb Hp Henv.
  destruct (engine_run_summary j p env prototype_id w Hdb Hp Henv) as (_ & Hsum).
  rewrite <- generation_commands_steps.
  split; [| split; [| split]].
  - destruct Hsum as [(_ & S) | [(_ & S) | (_ & S)]].
    + destruct S as (_ & _ & _ & _ & -> & _). apply prefix_nil.
    + destruct S as (_ & _ & _ & _ & -> & _). reflexivity.
    + destruct S as (m & st & msg & c & ps & e & Hm & Hreq & _ & _ & _ & _ & Hsent & _).
      assert (Hfull : omap (step_command p) (steps_of (systems p)) =
                      omap (step_command p) (take m (steps_of (systems p))) ++
                      (c, ps) :: omap (step_command p) (drop (S m) (steps_of (systems p)))).
      { rewrite <- (take_drop_middle _ _ _ Hm) at 1. rewrite omap_app.
        cbn [omap list_omap]. unfold step_command at 2. rewrite Hreq. reflexivity. }
      rewrite Hfull. destruct Hsent as [-> | ->].
      * apply prefix_app_r. reflexivity.
      * apply prefix_app, prefix_cons, prefix_nil.
  - intros Hacc Hra. destruct Hsum as [(Hacc' & _) | [(_ & S) | (_ & S)]]; [congruence | |].
    + destruct S as (_ & _ & _ & _ & -> & _). reflexivity.
    + destruct S as (m & st & msg & c & ps & e & _ & _ & _ & _ & _ & _ & _ & Hra' & _).
      congruence.
  - intros Hacc. destruct Hsum as [(_ & S) | [(Hacc' & _) | (Hacc' & _)]]; [| congruence ..].
    destruct S as (_ & _ & _ & _ & -> & _). reflexivity.
  - rewrite generation_commands_steps. unfold generation_commands.
    cbn [length]. rewrite length_app. cbn [length].
    assert (H : ∀ l, length (omap (import_command p) l) =
                     length (filter (fun key => is_Some (SYSTEM_TEMPLATES !! key)) l)).
    { induction l as [| key l IH]; [reflexivity |].
      cbn [omap list_omap]. rewrite filter_cons. unfold import_command at 1.
      destruct (SYSTEM_TEMPLATES !! key) as [template |] eqn:E; cbn [fmap option_fmap option_map].
      - rewrite decide_True by eauto. cbn [length]. rewrite IH. reflexivity.
      - rewrite decide_False by (intros [x Hx]; discriminate). exact IH. }
    rewrite H. lia.
Qed.

(** ** The service over time *)

Lemma replay_identity j p evs : same_identity p (replay j p evs).
Proof.
  revert p. induction evs as [| e evs IH]; intros p; [repeat split |].
  unfold replay. cbn [foldl]. fold (replay j).
  destruct e as [l je | | | |]; try apply IH.
  destruct (decide (l = j)); [| apply IH].
  destruct (IH (apply_job je p)) as (H1 & H2 & H3 & H4 & H5 & H6).
  destruct je; repeat split; assumption.
Qed.

Lemma get_prototype_inr prototype_id w p :
  get_prototype prototype_id w = inr p ↔
  ∃ j, prototypes_db w !! prototype_id = Some j ∧ heap w !! j = Some p.
Proof.
  unfold get_prototype. split.
  - destruct (prototypes_db w !! prototype_id) as [j |]; [| discriminate].
    destruct (heap w !! j) as [p' |] eqn:E; [| discriminate]. intros [= <-]. eauto.
  - intros (j & -> & ->). reflexivity.
Qed.

(** A step changes a dict only by assignments of the engine. *)
Lemma step_job l s j p :
  system_inv s -> heap (world s) !! j = Some p ->
  ∃ evs, heap (world (step l s)) !! j = Some (replay j p evs).
Proof.
  intros (Hlen & Hout & Hjobs) Hp.
  assert (Hj : (j < length (heap (world s)))%nat) by (eapply lookup_lt_Some, Hp).
  destruct l as [request uuid4 | i].
  - destruct (step_submit request uuid4 s) as (p0 & _ & ->). cbn [world heap].
    exists []. rewrite lookup_app_l by lia. exact Hp.
  - destruct (tasks s !! i) as [[[prototype_id k] |] |] eqn:Ht;
      [| exists []; unfold step; rewrite Ht; exact Hp ..].
    assert (Hi : (i < length (heap (world s)))%nat).
    { rewrite <- Hlen. eapply lookup_lt_Some, Ht. }
    rewrite (step_resume s i prototype_id k Ht). cbn [world].
    destruct (Hjobs i Hi) as (p0 & acc & _ & Hheap & _ & Htask). rewrite Ht in Htask.
    destruct Htask as (Hdb & _ & Hwp). specialize (Hwp (world s) eq_refl Hdb).
    destruct (wp_block _ _ _ _ _ Hwp) as (_ & (_ & _ & Hfheap) & Hh').
    destruct (decide (j = i)) as [-> | Hne].
    + exists (res_events (k (world s))). rewrite Hh'. rewrite Hheap in Hp.
      injection Hp as <-. rewrite replay_app. reflexivity.
    + exists []. rewrite (Hfheap j Hne). exact Hp.
Qed.

Lemma step_db l s prototype_id j :
  system_inv s ->
  match l with
  | Submit _ uuid4 => prototypes_db (world s) !! String.substring 0 8 uuid4 = None
  | Resume _ => True
  end ->
  prototypes_db (world s) !! prototype_id = Some j ->
  prototypes_db (world (step l s)) !! prototype_id = Some j.
Proof.
  intros (Hlen & Hout & Hjobs) Hfresh Hid.
  destruct l as [request uuid4 | i].
  - destruct (step_submit request uuid4 s) as (p0 & _ & ->). cbn [world prototypes_db].
    rewrite lookup_insert_ne by congruence. exact Hid.
  - destruct (tasks s !! i) as [[[id k] |] |] eqn:Ht;
      [| unfold step; rewrite Ht; exact Hid ..].
    assert (Hi : (i < length (heap (world s)))%nat).
    { rewrite <- Hlen. eapply lookup_lt_Some, Ht. }
    rewrite (step_resume s i id k Ht). cbn [world].
    destruct (Hjobs i Hi) as (p0 & acc & _ & _ & _ & Htask). rewrite Ht in Htask.
    destruct Htask as (Hdb & _ & Hwp). specialize (Hwp (world s) eq_refl Hdb).
    destruct (wp_block _ _ _ _ _ Hwp) as (_ & (Hfdb & _ & _) & _).
    rewrite Hfdb. exact Hid.
Qed.

Lemma exec_job ls : ∀ s j p,
  system_inv s -> fresh_ids ls s -> heap (world s) !! j = Some p ->
  ∃ evs, heap (world (exec ls s)) !! j = Some (replay j p evs).
Proof.
  induction ls as [| l ls IH]; intros s j p Hinv Hfresh Hp; [exists []; exact Hp |].
  destruct Hfresh as [Hl Hrest]. unfold exec. cbn [foldl]. fold (exec ls (step l s)).
  destruct (step_job l s j p Hinv Hp) as [evs1 H1].
  assert (Hinv' : system_inv (step l s)).
  { destruct l as [request uuid4 | i]; [apply submit_inv | apply resume_inv]; assumption. }
  destruct (IH _ j _ Hinv' Hrest H1) as [evs2 H2].
  exists (evs1 ++ evs2). rewrite replay_app. exact H2.
Qed.

Lemma exec_db ls : ∀ s prototype_id j,
  system_inv s -> fresh_ids ls s -> prototypes_db (world s) !! prototype_id = Some j ->
  prototypes_db (world (exec ls s)) !! prototype_id = Some j.
Proof.
  induction ls as [| l ls IH]; intros s prototype_id j Hinv Hfresh Hid; [exact Hid |].
  destruct Hfresh as [Hl Hrest]. unfold exec. cbn [foldl]. fold (exec ls (step l s)).
  apply IH; [| exact Hrest | apply step_db; assumption].
  destruct l as [request uuid4 | i]; [apply submit_inv | apply resume_inv]; assumption.
Qed.

(** X8: once an identifier answers with a job, it answers in every later
    state of the service (identifiers drawn being new): [get_prototype]
    never turns to 404, and the job it returns has the same id, name, game
    type, systems, reference and creation time; its log has only grown: the
    lines it had are still there, in place, followed by the new ones. *)
Theorem stored_jobs_stay_retrievable net t0 ls ls' prototype_id p :
  fresh_ids (ls ++ ls') (initial net t0) ->
  get_prototype prototype_id (world (exec ls (initial net t0))) = inr p ->
  ∃ p', get_prototype prototype_id (world (exec (ls ++ ls') (initial net t0))) = inr p' ∧
        same_identity p p' ∧ logs p `prefix_of` logs p'.
Proof.
  intros Hfresh Hget. destruct (fresh_ids_app _ _ _ Hfresh) as [Hf1 Hf2].
  pose proof (exec_inv ls _ (initial_inv net t0) Hf1) as Hinv.
  apply get_prototype_inr in Hget as (j & Hid & Hp).
  destruct (exec_job ls' _ j p Hinv Hf2 Hp) as [evs Hp'].
  exists (replay j p evs). rewrite exec_app. split.
  - apply get_prototype_inr. exists j. split; [apply exec_db; assumption | exact Hp'].
  - split; [apply replay_identity |]. rewrite replay_logs. apply prefix_app_r. reflexivity.
Qed.





(** ** The progress expression *)

Lemma percents_near_floor_spec bound k n :
  percents_near_floor bound = true ->
  (0 <= k <= n)%Z -> (0 < n < bound)%Z ->
  (floor_percent k n - 1 <= py_percent k n <= floor_percent k n)%Z.
Proof.
  unfold percents_near_floor. intros H Hk Hn.
  rewrite forallb_forall in H. specialize (H (n - 1)%Z).
  rewrite <- list_elem_of_In, elem_of_range in H. specialize (H ltac:(lia)).
  rewrite forallb_forall in H. specialize (H k).
  rewrite <- list_elem_of_In, elem_of_range in H. specialize (H ltac:(lia)).
  replace (n - 1 + 1)%Z with n in H by lia.
  apply andb_true_iff in H as [H1 H2]. apply Z.leb_le in H1, H2. lia.
Qed.

Lemma percents_near_floor_128 : percents_near_floor 128 = true.
Proof. vm_compute. reflexivity. Qed.

(** X11: the value [int((k / total_steps) * 100)] the engine stores.  For
    [0 <= k <= k' <= total_steps] it lies between 0 and 100 and does not
    decrease from [k] to [k']; at [k = total_steps] it is exactly 100.
    For totals below 128 it is what IEEE binary64 arithmetic gives, and it
    is the exact floor of [k * 100 / total_steps] or one below it. *)
Theorem progress_expression_range :
  (∀ k k' n, (0 <= k <= k')%Z -> (k' <= n)%Z -> (0 < n)%Z ->
     (0 <= py_percent k n)%Z ∧ (py_percent k n <= py_percent k' n)%Z ∧
     (py_percent k' n <= 100)%Z) ∧
  (∀ n, (0 < n)%Z -> py_percent n n = 100%Z) ∧
  (∀ k n, (0 <= k <= n)%Z -> (0 < n < 128)%Z ->
     py_percent k n = binary64_percent k n ∧
     (floor_percent k n - 1 <= py_percent k n <= floor_percent k n)%Z).
Proof.
  split; [| split].
  - intros k k' n Hk Hk' Hn.
    pose proof (py_percent_mono k k' n Hk Hn) as H1.
    pose proof (py_percent_mono k' n n ltac:(lia) Hn) as H2.
    rewrite (py_percent_full n Hn) in H2. lia.
  - intros n Hn. apply py_percent_full, Hn.
  - intros k n Hk Hn. split; [apply py_percent_binary64; assumption |].
    apply (percents_near_floor_spec 128); [apply percents_near_floor_128 | exact Hk | exact Hn].
Qed.

End Backend.

(** * The claims on concrete runs *)

Local Abbreviation submitted_on := (submitted clock_HMS clock_iso loads http_str).
Local Abbreviation engine_on := (engine clock_HMS clock_iso loads http_str).
Local Abbreviation exec_on := (exec clock_HMS clock_iso loads http_str).
Local Abbreviation fresh_on := (fresh_ids clock_HMS clock_iso loads http_str).

(** The simulated run of a request with a known and an unknown key. *)
Lemma simulated_path_completes_example :
  accepts (world (submitted_on [] ["health"; "bogus"])) = false ∧
  outcome (engine_on [] ["health"; "bogus"]) = inr tt ∧
  sent_commands (events (engine_on [] ["health"; "bogus"])) = [] ∧
  statuses 0 (events (engine_on [] ["health"; "bogus"])) = ["generating"; "completed"] ∧
  length (progress_values 0 (events (engine_on [] ["health"; "bogus"]))) = 5%nat.
Proof.
  split; [reflexivity |].
  destruct (simulated_path_completes clock_HMS clock_iso loads http_str [] "0a1b2c3d"
              (world (submitted_on [] ["health"; "bogus"])) 0
              (job_of (world (submitted_on [] ["health"; "bogus"]))))
    as (H1 & _ & H3 & _ & H5 & _ & _ & H8 & _);
    [vm_compute; reflexivity | reflexivity | constructor | reflexivity |].
  exact (conj H1 (conj H3 (conj H8 H5))).
Defined.

(** A bridge that answers the scene command and resets the connection on
    the import of [health]. *)
Lemma bridge_failure_aborts_example :
  raised_commands (events (engine_on [Accepted (answering 1)] ["health"])) ≠ [] ∧
  accepts (world (submitted_on [Accepted (answering 1)] ["health"])) = true ∧
  ∃ before c e t p',
    events (engine_on [Accepted (answering 1)] ["health"]) =
      before ++ [EvRaise c e; EvJob 0 (SetStatus "failed");
                 EvJob 0 (AppendLog (log_line clock_HMS t ("HATA: " +:+ str http_str e)))] ∧
    heap (final (engine_on [Accepted (answering 1)] ["health"])) !! 0%nat = Some p' ∧
    status p' = "failed" ∧ completedAt p' = None.
Proof.
  assert (Hraised : raised_commands (events (engine_on [Accepted (answering 1)] ["health"])) ≠ []).
  { intros H. vm_compute in H. discriminate H. }
  split; [exact Hraised |].
  destruct (bridge_failure_aborts clock_HMS clock_iso loads http_str [] "0a1b2c3d"
              (world (submitted_on [Accepted (answering 1)] ["health"])) 0
              (job_of (world (submitted_on [Accepted (answering 1)] ["health"]))))
    as (Hacc & before & c & e & t & p' & Hev & _ & _ & _ & Hh & Hst & _ & Hco & _);
    [vm_compute; reflexivity | reflexivity | constructor | exact Hraised |].
  split; [exact Hacc |]. exists before, c, e, t, p'. auto.
Defined.



(** A bridge-driven run to the end, one key known and one unknown. *)
Lemma progress_and_log_per_step_example :
  accepts (world (submitted_on [Accepted (answering 4)] ["health"; "bogus"])) = true ∧
  raised_commands (events (engine_on [Accepted (answering 4)] ["health"; "bogus"])) = [] ∧
  length (progress_values 0 (events (engine_on [Accepted (answering 4)] ["health"; "bogus"]))) =
    5%nat ∧
  stamped clock_HMS
    ["Basladi"; "Scene olusturuluyor..."; "HealthSystem ekleniyor...";
     "Player olusturuluyor..."; "UI olusturuluyor..."; "Tamamlandi!"]
    (log_lines 0 (events (engine_on [Accepted (answering 4)] ["health"; "bogus"]))).
Proof.
  assert (Hacc : accepts (world (submitted_on [Accepted (answering 4)] ["health"; "bogus"])) =
                 true) by reflexivity.
  assert (Hra : raised_commands
                  (events (engine_on [Accepted (answering 4)] ["health"; "bogus"])) = [])
    by (vm_compute; reflexivity).
  destruct (progress_and_log_per_step clock_HMS clock_iso loads http_str [] "0a1b2c3d"
              (world (submitted_on [Accepted (answering 4)] ["health"; "bogus"])) 0
              (job_of (world (submitted_on [Accepted (answering 4)] ["health"; "bogus"]))))
    as (_ & _ & H3 & _);
    [vm_compute; reflexivity | reflexivity | constructor |].
  destruct (H3 Hacc Hra) as [Hlen Hlog].
  exact (conj Hacc (conj Hra (conj Hlen Hlog))).
Defined.

(** A request with forty-seven keys: fifty steps.  The bridge answers
    twenty-nine commands and resets the connection on the thirtieth. *)
Lemma failed_progress_counts_completed_steps_example :
  progress (job_of (world (submitted_on [Accepted (answering 29)] (replicate 47 "health")))) =
    0%Z ∧
  raised_commands (events (engine_on [Accepted (answering 29)] (replicate 47 "health"))) ≠ [] ∧
  ∃ p',
    heap (final (engine_on [Accepted (answering 29)] (replicate 47 "health"))) !! 0%nat =
      Some p' ∧
    length (progress_values 0
              (events (engine_on [Accepted (answering 29)] (replicate 47 "health")))) =
      29%nat ∧
    progress p' = py_percent 29 50 ∧ progress p' = 57%Z ∧ floor_percent 29 50 = 58%Z.
Proof.
  assert (Hraised : raised_commands
            (events (engine_on [Accepted (answering 29)] (replicate 47 "health"))) ≠ []).
  { intros H. vm_compute in H. discriminate H. }
  split; [reflexivity |]. split; [exact Hraised |].
  destruct (failed_progress_counts_completed_steps clock_HMS clock_iso loads http_str []
              "0a1b2c3d"
              (world (submitted_on [Accepted (answering 29)] (replicate 47 "health"))) 0
              (job_of (world (submitted_on [Accepted (answering 29)] (replicate 47 "health")))))
    as (m & st & msg & c & ps & e & t & before & cevs & after & p' &
        _ & _ & _ & _ & _ & _ & _ & Hvalues & Hh & Hprog & _);
    [vm_compute; reflexivity | reflexivity | constructor | reflexivity | exact Hraised |].
  assert (Hm : m = 29%nat).
  { apply (f_equal length) in Hvalues. rewrite percents_length in Hvalues.
    rewrite <- Hvalues. vm_compute. reflexivity. }
  subst m. exists p'. split; [exact Hh |].
  split; [vm_compute; reflexivity |].
  split; [exact Hprog |].
  split; [rewrite Hprog; vm_compute; reflexivity | vm_compute; reflexivity].
Defined.




(** * Where the specification's wording and the code part *)

(** C7, as worded: one descriptive line per step, unknown keys included,
    and progress floor(completed / total * 100).  On the bridge-driven path
    the request [["bogus"]] runs four steps and stores four values, but
    logs three step lines: none for the step of the unknown key.  And with
    fifty steps the value stored after the twenty-ninth is 57, not 58. *)
Lemma unknown_key_logs_no_line :
  length (steps_of (systems (job_of (world (submitted_on [Accepted (answering 3)] ["bogus"])))))
    = 4%nat ∧
  statuses 0 (events (engine_on [Accepted (answering 3)] ["bogus"])) =
    ["generating"; "completed"] ∧
  progress_values 0 (events (engine_on [Accepted (answering 3)] ["bogus"])) =
    [25; 50; 75; 100]%Z ∧
  log_lines 0 (events (engine_on [Accepted (answering 3)] ["bogus"])) =
    ["[00:00:01] Basladi"; "[00:00:02] Scene olusturuluyor...";
     "[00:00:03] Player olusturuluyor..."; "[00:00:04] UI olusturuluyor...";
     "[00:00:06] Tamamlandi!"] ∧
  py_percent 29 50 = 57%Z ∧ floor_percent 29 50 = 58%Z.
Proof. repeat split; vm_compute; reflexivity. Qed.


(** C10, as worded: floor(k / total_steps * 100).  With forty-seven keys
    and a failure of the thirtieth command, the job is left at 57: the
    quotient 29/50 rounds below 0.58 in binary64, and so does its product
    with 100, which [int()] truncates; the exact value is 58. *)
Lemma failed_progress_is_not_the_floor :
  status (job_of (final (engine_on [Accepted (answering 29)] (replicate 47 "health")))) =
    "failed" ∧
  length (progress_values 0
            (events (engine_on [Accepted (answering 29)] (replicate 47 "health")))) = 29%nat ∧
  progress (job_of (final (engine_on [Accepted (answering 29)] (replicate 47 "health")))) =
    57%Z ∧
  binary64_percent 29 50 = 57%Z ∧
  floor_percent 29 50 = 58%Z.
Proof. repeat split; vm_compute; reflexivity. Qed.

(** * The further properties on concrete runs *)

Local Abbreviation create_on := (create_prototype clock_HMS clock_iso loads http_str).

Lemma store_ok_initial net t0 : store_ok (world (initial net t0)).
Proof. intros prototype_id j H. cbn in H. rewrite lookup_empty in H. discriminate. Qed.

Lemma get_after_create_example :
  store_ok (world (initial [] 0)) ∧
  get_prototype "0a1b2c3d" (create_on (request_of ["health"]) uuid (world (initial [] 0))).2 =
    inr (create_on (request_of ["health"]) uuid (world (initial [] 0))).1.1 ∧
  get_prototype "7e8f9a0b" (create_on (request_of ["health"]) uuid (world (initial [] 0))).2 =
    inl (HTTPException 404 "Prototip bulunamadi").
Proof.
  split; [apply store_ok_initial |].
  destruct (get_after_create clock_HMS clock_iso loads http_str (request_of ["health"]) uuid
              (world (initial [] 0)) (store_ok_initial [] 0)) as (H1 & H2 & _).
  split; [exact H1 |]. rewrite H2 by discriminate. reflexivity.
Defined.

Lemma colliding_identifier_replaces_example :
  store_ok (world (initial [] 0)) ∧
  String.substring 0 8 uuid = String.substring 0 8 colliding_uuid ∧
  get_prototype "0a1b2c3d"
    (world (twice_submitted clock_HMS clock_iso loads http_str [] ["health"] ["mana"])) =
    inr (create_on (request_of ["mana"]) colliding_uuid
           (create_on (request_of ["health"]) uuid (world (initial [] 0))).2).1.1 ∧
  systems (create_on (request_of ["mana"]) colliding_uuid
             (create_on (request_of ["health"]) uuid (world (initial [] 0))).2).1.1 = ["mana"].
Proof.
  split; [apply store_ok_initial |]. split; [reflexivity |].
  destruct (colliding_identifier_replaces clock_HMS clock_iso loads http_str
              (request_of ["health"]) uuid (request_of ["mana"]) colliding_uuid
              (world (initial [] 0)) (store_ok_initial [] 0) eq_refl) as (H1 & _).
  split; [exact H1 | reflexivity].
Defined.

Lemma recv_until_newline_frames_example :
  recv_until_newline "" sample_stream =
    (inr ("true" +:+ String LF EmptyString), [Chunk "next"]) ∧
  ∃ chunks closing,
    sample_stream = (Chunk <$> chunks) ++ closing ++ [Chunk "next"] ∧
    "true" +:+ String LF EmptyString = "" +:+ chunks_text chunks.
Proof.
  assert (H : recv_until_newline "" sample_stream =
              (inr ("true" +:+ String LF EmptyString), [Chunk "next"])) by reflexivity.
  split; [exact H |].
  destruct (recv_until_newline_frames sample_stream "" _ _ H)
    as (chunks & closing & H1 & H2 & _).
  exists chunks, closing. split; assumption.
Defined.

Lemma commands_in_source_order_example :
  accepts (world (submitted_on [Accepted (answering 4)] ["health"; "bogus"])) = true ∧
  sent_commands (events (engine_on [Accepted (answering 4)] ["health"; "bogus"])) =
    generation_commands
      (job_of (world (submitted_on [Accepted (answering 4)] ["health"; "bogus"]))) ∧
  length (generation_commands
            (job_of (world (submitted_on [Accepted (answering 4)] ["health"; "bogus"])))) =
    4%nat.
Proof.
  destruct (commands_in_source_order clock_HMS clock_iso loads http_str [] "0a1b2c3d"
              (world (submitted_on [Accepted (answering 4)] ["health"; "bogus"])) 0
              (job_of (world (submitted_on [Accepted (answering 4)] ["health"; "bogus"]))))
    as (_ & H2 & _ & _);
    [vm_compute; reflexivity | reflexivity | constructor |].
  split; [reflexivity |]. split; [| vm_compute; reflexivity].
  apply H2; [reflexivity | vm_compute; reflexivity].
Defined.

Lemma stored_jobs_stay_retrievable_example :
  fresh_on (bridge_schedule ++ later_schedule) (initial [Accepted (answering 4)] 0) ∧
  ∃ p', get_prototype "0a1b2c3d"
          (world (exec_on (bridge_schedule ++ later_schedule)
                    (initial [Accepted (answering 4)] 0))) = inr p' ∧
        name p' = "Arena" ∧
        logs (job_of (world (exec_on [Submit (request_of ["health"]) uuid; Resume 0]
                               (initial [Accepted (answering 4)] 0)))) `prefix_of` logs p'.
Proof.
  assert (Hfresh : fresh_on (([Submit (request_of ["health"]) uuid; Resume 0] ++ [Resume 0]) ++
                             later_schedule) (initial [Accepted (answering 4)] 0)).
  { vm_compute. repeat split. }
  split; [exact Hfresh |].
  destruct (stored_jobs_stay_retrievable clock_HMS clock_iso loads http_str
              [Accepted (answering 4)] 0 [Submit (request_of ["health"]) uuid; Resume 0]
              ([Resume 0] ++ later_schedule) "0a1b2c3d"
              (job_of (world (exec_on [Submit (request_of ["health"]) uuid; Resume 0]
                                (initial [Accepted (answering 4)] 0)))))
    as (p' & Hget & (_ & Hname & _) & Hlogs);
    [exact Hfresh | vm_compute; reflexivity |].
  exists p'. split; [exact Hget |]. split; [exact Hname | exact Hlogs].
Defined.


